(** * ZarcFit: circuit model, fit engine and time-domain transform

    A shallow embedding of the numerical core of ZarcFit
    (AuxiliaryClasses/ModelCircuits.py, FitBuilder.py, TimeDomainBuilder.py
    and Calculator.py) and the properties the specification states about it.

    Numbers.  Python floats are read as exact real numbers ([R]).  The two
    infinities the code writes down itself (the bounds of Pei) live in
    [xreal].  A float operation whose IEEE result would be inf or nan
    (a division by zero, the logarithm of zero) has no real value: Python's
    own floats raise ZeroDivisionError there and numpy only warns, and the
    embedding stops with [ZeroDivisionError] in both cases.

    Rounding.  A theorem over [R] is a statement of exact real arithmetic.
    Where the rounding or the overflow of IEEE doubles decides a sentence
    of the specification (the wrap of Pei, the value of the inductor), the
    expression is embedded a second time on binary64 floats, in
    [Binary64], and evaluated there.

    Dictionaries are [gmap string _]; an absent key raises [KeyError].
    Exceptions are values of [exn], carried by [result]; methods that
    mutate their object thread it through the state monad [M]. *)

From Stdlib Require Floats.
From Stdlib Require Import Reals Lra Lia ZArith List.
From stdpp Require Import gmap strings.

Local Open Scope R_scope.
Local Open Scope string_scope.

(** ** Exceptions and results *)

Inductive exn : Type :=
| ValueError
| KeyError
| IndexError
| ZeroDivisionError.

Inductive result (A : Type) : Type :=
| Ok (a : A)
| Raise (e : exn).

Arguments Ok {A} a.
Arguments Raise {A} e.

#[global] Instance result_ret : MRet result := fun A a => Ok a.

#[global] Instance result_bind : MBind result := fun A B f m =>
  match m with
  | Ok a => f a
  | Raise e => Raise e
  end.

(** Stateful methods: the object before the call goes in, the outcome and
    the object after the call come out.  A raise keeps the mutations made
    before it, as in Python. *)
Definition M (S A : Type) : Type := S -> result A * S.

#[global] Instance M_ret {S} : MRet (M S) := fun A a s => (Ok a, s).

#[global] Instance M_bind {S} : MBind (M S) := fun A B f m s =>
  match m s with
  | (Ok a, s') => f a s'
  | (Raise e, s') => (Raise e, s')
  end.

Definition lift {S A} (r : result A) : M S A := fun s => (r, s).

(** [[f(x) for x in xs]]: left to right, stopping at the first raise. *)
Fixpoint mapM {A B} (f : A -> result B) (xs : list A) : result (list B) :=
  match xs with
  | [] => Ok []
  | x :: xs' => y ← f x; ys ← mapM f xs'; Ok (y :: ys)
  end.

Definition getitem {V} (d : gmap string V) (k : string) : result V :=
  match d !! k with
  | Some v => Ok v
  | None => Raise KeyError
  end.

(** [a[i]] on a list or array. *)
Definition index {A} (a : list A) (i : nat) : result A :=
  match a !! i with
  | Some v => Ok v
  | None => Raise IndexError
  end.

(** Elementwise numpy operations pair up two arrays of equal length, or
    stretch an array of length one; other shapes do not broadcast. *)
Definition broadcast2 {A B} (a : list A) (b : list B) : result (list (A * B)) :=
  if decide (length a = length b) then Ok (zip a b)
  else
    match a, b with
    | [x], _ => Ok (map (pair x) b)
    | _, [y] => Ok (map (fun x => (x, y)) a)
    | _, _ => Raise ValueError
    end.

Definition reading {S A} (f : S -> result A) : M S A := fun s => (f s, s).

(** ** Floats and complex numbers *)

#[global] Instance R_eq_dec : EqDecision R := Req_dec_T.
#[global] Instance R_lt_dec (x y : R) : Decision (x < y) := Rlt_dec x y.
#[global] Instance R_le_dec (x y : R) : Decision (x <= y) := Rle_dec x y.
#[global] Instance R_gt_dec (x y : R) : Decision (x > y) := Rlt_dec y x.

Definition float_div (x y : R) : result R :=
  if decide (y = 0) then Raise ZeroDivisionError else Ok (x / y).

(** [x ** y] on floats, over the reals: no overflow and no underflow.
    Every call site has already rejected a negative base and a zero base
    with a negative exponent. *)
Definition float_pow (x y : R) : R :=
  if decide (x = 0) then (if decide (y = 0) then 1 else 0) else Rpower x y.

(** [x % m] on floats, for [m > 0], over the reals: the result has the
    sign of [m] and is below [m].  [Binary64.float_rem] is the same
    operation on doubles, where the result can round to [m] itself. *)
Definition float_mod (x m : R) : R := x - m * IZR (Zfloor (x / m)).

Definition np_log10 (x : R) : R := ln x / ln 10.

(** [sum(l)] *)
Definition Rsum (l : list R) : R := foldr Rplus 0 l.

Record complex : Type := Cx { real : R; imag : R }.

Definition c_of_R (x : R) : complex := Cx x 0.
Definition c_j : complex := Cx 0 1.
Definition c_zero : complex := Cx 0 0.

Definition c_add (a b : complex) : complex :=
  Cx (real a + real b) (imag a + imag b).

Definition c_sub (a b : complex) : complex :=
  Cx (real a - real b) (imag a - imag b).

Definition c_mul (a b : complex) : complex :=
  Cx (real a * real b - imag a * imag b) (real a * imag b + imag a * real b).

#[global] Instance complex_eq_dec : EqDecision complex.
Proof. solve_decision. Defined.

(** [1.0 / z] *)
Definition c_inv (z : complex) : result complex :=
  if decide (z = c_zero) then Raise ZeroDivisionError
  else
    let n := real z * real z + imag z * imag z in
    Ok (Cx (real z / n) (- imag z / n)).

(** [(1j) ** p]: modulus 1, argument p * pi/2. *)
Definition c_j_pow (p : R) : complex := Cx (cos (p * (PI / 2))) (sin (p * (PI / 2))).

(** ** ModelCircuits.py *)

Module ModelCircuits.

Inductive circuit_class : Type := Series | Parallel.

(** A ModelCircuitSeries or ModelCircuitParallel object.  The parent class
    is never instantiated by the application. *)
Record model_circuit : Type := Build_model_circuit {
  cls : circuit_class;
  negative_rinf : bool;
  q : gmap string R;
  par_second : gmap string R;
  par_other_sec : gmap string R
}.

Definition ModelCircuitSeries (negative_rinf : bool)
    (q par_second par_other_sec : gmap string R) : model_circuit :=
  Build_model_circuit Series negative_rinf q par_second par_other_sec.

Definition ModelCircuitParallel (negative_rinf : bool)
    (q par_second par_other_sec : gmap string R) : model_circuit :=
  Build_model_circuit Parallel negative_rinf q par_second par_other_sec.

Definition set_negative_rinf (state : bool) (self : model_circuit) : model_circuit :=
  Build_model_circuit (cls self) state (q self) (par_second self) (par_other_sec self).

Definition get_negative_rinf : M model_circuit bool :=
  fun self => (Ok (negative_rinf self), self).

Definition set_q (k : string) (v : R) : M model_circuit unit :=
  fun self =>
    (Ok tt, Build_model_circuit (cls self) (negative_rinf self)
              (<[k := v]> (q self)) (par_second self) (par_other_sec self)).

Definition set_par_second (k : string) (v : R) : M model_circuit unit :=
  fun self =>
    (Ok tt, Build_model_circuit (cls self) (negative_rinf self)
              (q self) (<[k := v]> (par_second self)) (par_other_sec self)).

Definition set_par_other_sec (k : string) (v : R) : M model_circuit unit :=
  fun self =>
    (Ok tt, Build_model_circuit (cls self) (negative_rinf self)
              (q self) (par_second self) (<[k := v]> (par_other_sec self))).

Definition _inductor (freq linf : R) : result complex :=
  if decide (linf = 0) then Raise ValueError
  else if decide (freq < 0) then Raise ValueError
  else Ok (c_mul (c_of_R ((2 * PI * freq) * linf)) c_j).

Definition _q_from_f0 (r f0 p : R) : result R :=
  if decide (r = 0) then Raise ValueError
  else if decide (f0 <= 0) then Raise ValueError
  else float_div 1 (r * float_pow (2 * PI * f0) p).

Definition _cpe (freq q pf pi : R) : result complex :=
  if decide (q = 0) then Raise ValueError
  else if decide (freq < 0) then Raise ValueError
  else if bool_decide (freq = 0) && bool_decide (pf > 0) then Raise ValueError
  else if bool_decide (freq = 0) && bool_decide (pf < 0) then Raise ValueError
  else
    let phase_factor := c_j_pow pi in
    let omega_exp := float_pow (2 * PI * freq) pf in
    c_inv (c_mul (c_mul (c_of_R q) phase_factor) (c_of_R omega_exp)).

Definition _parallel (z_1 z_2 : complex) : result complex :=
  if bool_decide (z_1 = c_zero) || bool_decide (z_2 = c_zero) then Raise ValueError
  else
    a ← c_inv z_1;
    b ← c_inv z_2;
    let denominator := c_add a b in
    c_inv denominator.

Definition _parallel_arrays (z_1 z_2 : list complex) : result (list complex) :=
  if existsb (fun z => bool_decide (z = c_zero)) z_1
     || existsb (fun z => bool_decide (z = c_zero)) z_2
  then Raise ValueError
  else
    pairs ← broadcast2 z_1 z_2;
    mapM (fun '(a, b) =>
            ia ← c_inv a;
            ib ← c_inv b;
            c_inv (c_add ia ib)) pairs.

Definition _calculate_secondary_parameters (par : gmap string R) : M model_circuit unit :=
  Rh ← lift (getitem par "Rh");
  Fh ← lift (getitem par "Fh");
  Ph ← lift (getitem par "Ph");
  Qh ← lift (_q_from_f0 Rh Fh Ph);
  Rm ← lift (getitem par "Rm");
  Fm ← lift (getitem par "Fm");
  Pm ← lift (getitem par "Pm");
  Qm ← lift (_q_from_f0 Rm Fm Pm);
  Rl ← lift (getitem par "Rl");
  Fl ← lift (getitem par "Fl");
  Pl ← lift (getitem par "Pl");
  Ql ← lift (_q_from_f0 Rl Fl Pl);
  set_q "Qh" Qh;;
  set_q "Qm" Qm;;
  set_q "Ql" Ql;;
  Rinf ← lift (getitem par "Rinf");
  set_par_second "R0" (Rinf + Rh + Rm + Rl);;
  pRh ← lift (float_div (Rinf * (Rinf + Rh)) Rh);
  set_par_second "pRh" pRh;;
  rh ← lift (float_div Rh (Rinf + Rh));
  set_par_second "pQh" (Qh * rh ^ 2);;
  pRm ← lift (float_div ((Rinf + Rh) * (Rinf + Rh + Rm)) Rm);
  set_par_second "pRm" pRm;;
  rm ← lift (float_div Rm (Rinf + Rh + Rm));
  set_par_second "pQm" (Qm * rm ^ 2);;
  pRl ← lift (float_div ((Rinf + Rh + Rm) * (Rinf + Rh + Rm + Rl)) Rl);
  set_par_second "pRl" pRl;;
  rl ← lift (float_div Rl (Rinf + Rh + Rm + Rl));
  set_par_second "pQl" (Ql * rl ^ 2);;
  Ch ← lift (float_div 1 (2 * PI * Fh * Rh));
  set_par_other_sec "Ch" Ch;;
  set_par_other_sec "pCh" (Ch * rh ^ 2);;
  Cm ← lift (float_div 1 (2 * PI * Fm * Rm));
  set_par_other_sec "Cm" Cm;;
  set_par_other_sec "pCm" (Cm * rm ^ 2);;
  Cl ← lift (float_div 1 (2 * PI * Fl * Rl));
  set_par_other_sec "Cl" Cl;;
  set_par_other_sec "pCl" (Cl * rl ^ 2).

(** [par = parameters.copy()] followed by
    [if self.negative_rinf: par['Rinf'] = -par['Rinf']]. *)
Definition copy_with_rinf_sign (parameters : gmap string R) : M model_circuit (gmap string R) :=
  negative ← get_negative_rinf;
  if negative : bool then
    Rinf ← lift (getitem parameters "Rinf");
    mret (<["Rinf" := - Rinf]> parameters)
  else mret parameters.

Module ModelCircuitSeries.

Definition run_rock (parameters : gmap string R) (freq_array : list R)
    (old_par_second : bool) : M model_circuit (list complex) :=
  par ← copy_with_rinf_sign parameters;
  (if old_par_second then mret tt else _calculate_secondary_parameters par);;
  reading (fun self =>
    mapM (fun freq =>
            Qm ← getitem (q self) "Qm";
            Pm ← getitem par "Pm";
            z_cpem ← _cpe freq Qm Pm Pm;
            Rm ← getitem par "Rm";
            zarcm ← _parallel z_cpem (c_of_R Rm);
            Ql ← getitem (q self) "Ql";
            Pl ← getitem par "Pl";
            z_cpel ← _cpe freq Ql Pl Pl;
            Rl ← getitem par "Rl";
            zarcl ← _parallel z_cpel (c_of_R Rl);
            let z_total := c_add zarcm zarcl in
            Ok z_total) freq_array).

Definition run_model (parameters : gmap string R) (freq_array : list R)
    (old_par_second : bool) : M model_circuit (list complex * list complex) :=
  par ← copy_with_rinf_sign parameters;
  (if old_par_second then mret tt else _calculate_secondary_parameters par);;
  z_rock ← run_rock par freq_array true;
  reading (fun self =>
    zinf ← mapM (fun freq =>
                   Linf ← getitem par "Linf";
                   zl ← _inductor freq Linf;
                   Rinf ← getitem par "Rinf";
                   Ok (c_add zl (c_of_R Rinf))) freq_array;
    z_cpeh ← mapM (fun freq =>
                     Qh ← getitem (q self) "Qh";
                     Ph ← getitem par "Ph";
                     _cpe freq Qh Ph Ph) freq_array;
    zarch ← mapM (fun i =>
                    z ← index z_cpeh i;
                    Rh ← getitem par "Rh";
                    _parallel z (c_of_R Rh)) (seq 0 (length freq_array));
    z_cpee ← mapM (fun freq =>
                     Qe ← getitem par "Qe";
                     Pef ← getitem par "Pef";
                     Pei ← getitem par "Pei";
                     _cpe freq Qe Pef Pei) freq_array;
    zarce ← mapM (fun i =>
                    z ← index z_cpee i;
                    Re ← getitem par "Re";
                    _parallel z (c_of_R Re)) (seq 0 (length freq_array));
    z ← mapM (fun i =>
                a ← index zinf i;
                b ← index zarch i;
                c ← index z_rock i;
                d ← index zarce i;
                Ok (c_add (c_add (c_add a b) c) d)) (seq 0 (length freq_array));
    Ok (z, z_rock)).

End ModelCircuitSeries.

Module ModelCircuitParallel.

Definition run_rock (parameters : gmap string R) (freq_array : list R)
    (old_par_second : bool) : M model_circuit (list complex) :=
  par ← copy_with_rinf_sign parameters;
  (if old_par_second then mret tt else _calculate_secondary_parameters par);;
  reading (fun self =>
    let par2 := par_second self in
    mapM (fun f =>
            pRm ← getitem par2 "pRm";
            pQm ← getitem par2 "pQm";
            Pm ← getitem par "Pm";
            zm ← _cpe f pQm Pm Pm;
            let z_line_m := c_add (c_of_R pRm) zm in
            pRl ← getitem par2 "pRl";
            pQl ← getitem par2 "pQl";
            Pl ← getitem par "Pl";
            zl ← _cpe f pQl Pl Pl;
            let z_line_l := c_add (c_of_R pRl) zl in
            z_lines ← _parallel z_line_m z_line_l;
            R0 ← getitem par2 "R0";
            _parallel z_lines (c_of_R R0)) freq_array).

(** [par2 = self.par_second] is bound before the secondary parameters are
    recomputed, but it names the same dictionary object, which
    [_calculate_secondary_parameters] updates in place: the reads below
    see the recomputed values. *)
Definition run_model (parameters : gmap string R) (freq_array : list R)
    (old_par_second : bool) : M model_circuit (list complex * list complex) :=
  par ← copy_with_rinf_sign parameters;
  (if old_par_second then mret tt else _calculate_secondary_parameters par);;
  z_rock ← run_rock par freq_array true;
  reading (fun self =>
    let par2 := par_second self in
    z_line_h ← mapM (fun f =>
                       pRh ← getitem par2 "pRh";
                       pQh ← getitem par2 "pQh";
                       Ph ← getitem par "Ph";
                       zh ← _cpe f pQh Ph Ph;
                       Ok (c_add (c_of_R pRh) zh)) freq_array;
    z_rock_line_h ← _parallel_arrays z_line_h z_rock;
    zinf ← mapM (fun f =>
                   Linf ← getitem par "Linf";
                   _inductor f Linf) freq_array;
    z_cpee ← mapM (fun f =>
                     Qe ← getitem par "Qe";
                     Pef ← getitem par "Pef";
                     Pei ← getitem par "Pei";
                     _cpe f Qe Pef Pei) freq_array;
    zarce ← mapM (fun i =>
                    z ← index z_cpee i;
                    Re ← getitem par "Re";
                    _parallel z (c_of_R Re)) (seq 0 (length freq_array));
    z_circuit ← mapM (fun i =>
                        a ← index zinf i;
                        b ← index z_rock_line_h i;
                        c ← index zarce i;
                        Ok (c_add (c_add a b) c)) (seq 0 (length freq_array));
    Ok (z_circuit, z_rock)).

End ModelCircuitParallel.

(** Method dispatch on the class of the object. *)
Definition run_rock (parameters : gmap string R) (freq_array : list R)
    (old_par_second : bool) : M model_circuit (list complex) :=
  fun self =>
    match cls self with
    | Series => ModelCircuitSeries.run_rock parameters freq_array old_par_second self
    | Parallel => ModelCircuitParallel.run_rock parameters freq_array old_par_second self
    end.

Definition run_model (parameters : gmap string R) (freq_array : list R)
    (old_par_second : bool) : M model_circuit (list complex * list complex) :=
  fun self =>
    match cls self with
    | Series => ModelCircuitSeries.run_model parameters freq_array old_par_second self
    | Parallel => ModelCircuitParallel.run_model parameters freq_array old_par_second self
    end.

Definition estimate_rock (parameters : gmap string R) (freq_array : list R)
    (impedance : list complex) : M model_circuit (list complex) :=
  reading (fun self =>
    let par := parameters in
    z_to_substract ← mapM (fun f =>
                             Qe ← getitem par "Qe";
                             Pef ← getitem par "Pef";
                             Pei ← getitem par "Pei";
                             z_cpee ← _cpe f Qe Pef Pei;
                             Re ← getitem par "Re";
                             zarce ← _parallel z_cpee (c_of_R Re);
                             Qh ← getitem (q self) "Qh";
                             Ph ← getitem par "Ph";
                             z_cpeh ← _cpe f Qh Ph Ph;
                             Rh ← getitem par "Rh";
                             zarch ← _parallel z_cpeh (c_of_R Rh);
                             Rh' ← getitem par "Rh";
                             Ok (c_sub (c_add zarch zarce) (c_of_R Rh'))) freq_array;
    if decide (length z_to_substract = length impedance) then
      Ok (map (fun '(a, b) => c_sub a b) (zip impedance z_to_substract))
    else Raise ValueError).

End ModelCircuits.

(** ** Extended reals: the bounds dictionaries hold -inf and +inf for Pei *)

Inductive xreal : Type :=
| Fin (r : R)
| PInf
| NInf.

(** The float operations [_scale_params] applies, on parameter values and on
    bounds alike. *)
Class PyFloat (A : Type) : Type := {
  times10 : A -> A;
  nonpos : A -> bool;
  log10 : A -> A
}.

#[global] Instance R_PyFloat : PyFloat R := {|
  times10 v := v * 10;
  nonpos v := bool_decide (v <= 0);
  log10 v := np_log10 v
|}.

(** [nonpos] guards [log10], so [log10 NInf] is never evaluated. *)
#[global] Instance xreal_PyFloat : PyFloat xreal := {|
  times10 v := match v with Fin r => Fin (r * 10) | PInf => PInf | NInf => NInf end;
  nonpos v := match v with Fin r => bool_decide (r <= 0) | PInf => false | NInf => true end;
  log10 v := match v with Fin r => Fin (np_log10 r) | PInf => PInf | NInf => NInf end
|}.

(** [upper - lower]; inf - inf is nan. *)
Definition xsub (a b : xreal) : result xreal :=
  match a, b with
  | Fin x, Fin y => Ok (Fin (x - y))
  | PInf, PInf | NInf, NInf => Raise ZeroDivisionError
  | PInf, _ | _, NInf => Ok PInf
  | NInf, _ | _, PInf => Ok NInf
  end.

(** [s * k] for a finite [k > 0]. *)
Definition xscale (s : xreal) (k : R) : xreal :=
  match s with Fin x => Fin (x * k) | PInf => PInf | NInf => NInf end.

(** [d / s] for a finite [d]: a finite value over an infinity is zero. *)
Definition xdiv (d : R) (s : xreal) : result R :=
  match s with Fin x => float_div d x | PInf | NInf => Ok 0 end.

(** [np.arctan2(y, x)] *)
Definition np_arctan2 (y x : R) : R :=
  if decide (0 < x) then atan (y / x)
  else if decide (x < 0) then
    (if decide (y < 0) then atan (y / x) - PI else atan (y / x) + PI)
  else if decide (0 < y) then PI / 2
  else if decide (y < 0) then - (PI / 2)
  else 0.

(** [np.log10] on an array; the logarithm of zero is -inf. *)
Definition np_log10_array (a : list R) : result (list R) :=
  mapM (fun v => if decide (v <= 0) then Raise ZeroDivisionError else Ok (np_log10 v)) a.

(** ** FitBuilder.py *)

Module FitBuilder.
Import ModelCircuits.

Record fit_builder : Type := Build_fit_builder {
  _experiment_data : gmap string (list R);
  _model_circuit : model_circuit;
  lower_bounds : gmap string xreal;
  upper_bounds : gmap string xreal;
  disabled_variables : gset string;
  gaussian_prior : bool;
  _previous_fit_params : gmap string R;
  base_weight : R;
  exp_weight : R;
  (* dictionaries emitted on the signal model_manual_values, latest first *)
  model_manual_values : list (gmap string R)
  }.

Definition __init__ (experiment_data : gmap string (list R))
    (circuit : model_circuit) : fit_builder :=
  {| _experiment_data := experiment_data;
     _model_circuit := circuit;
     lower_bounds := ∅;
     upper_bounds := ∅;
     disabled_variables := ∅;
     gaussian_prior := false;
     _previous_fit_params := ∅;
     base_weight := 3;
     exp_weight := -15;
     model_manual_values := [] |}.

Definition set_disabled_variables (key : string) (disabled : bool)
    (self : fit_builder) : fit_builder :=
  {| _experiment_data := _experiment_data self;
     _model_circuit := _model_circuit self;
     lower_bounds := lower_bounds self;
     upper_bounds := upper_bounds self;
     disabled_variables :=
       if disabled then {[key]} ∪ disabled_variables self
       else disabled_variables self ∖ {[key]};
     gaussian_prior := gaussian_prior self;
     _previous_fit_params := _previous_fit_params self;
     base_weight := base_weight self;
     exp_weight := exp_weight self;
     model_manual_values := model_manual_values self |}.

(** A slider configuration is read as: whether the name of its slider
    class contains "Power", then the lower and the upper end. *)
Definition set_bounds (slider_configurations : gmap string (bool * R * R))
    (self : fit_builder) : fit_builder :=
  let lower := (fun c : bool * R * R =>
                  let '(power, lo, _) := c in
                  Fin (if power then float_pow 10 lo else lo)) <$> slider_configurations in
  let upper := (fun c : bool * R * R =>
                  let '(power, _, hi) := c in
                  Fin (if power then float_pow 10 hi else hi)) <$> slider_configurations in
  {| _experiment_data := _experiment_data self;
     _model_circuit := _model_circuit self;
     lower_bounds := <["Pei" := NInf]> (lower ∪ lower_bounds self);
     upper_bounds := <["Pei" := PInf]> (upper ∪ upper_bounds self);
     disabled_variables := disabled_variables self;
     gaussian_prior := gaussian_prior self;
     _previous_fit_params := _previous_fit_params self;
     base_weight := base_weight self;
     exp_weight := exp_weight self;
     model_manual_values := model_manual_values self |}.

Definition set_previous_fit_params (p : gmap string R) : M fit_builder unit :=
  fun self =>
    (Ok tt,
     {| _experiment_data := _experiment_data self;
        _model_circuit := _model_circuit self;
        lower_bounds := lower_bounds self;
        upper_bounds := upper_bounds self;
        disabled_variables := disabled_variables self;
        gaussian_prior := gaussian_prior self;
        _previous_fit_params := p;
        base_weight := base_weight self;
        exp_weight := exp_weight self;
        model_manual_values := model_manual_values self |}).

Definition emit (d : gmap string R) : M fit_builder unit :=
  fun self =>
    (Ok tt,
     {| _experiment_data := _experiment_data self;
        _model_circuit := _model_circuit self;
        lower_bounds := lower_bounds self;
        upper_bounds := upper_bounds self;
        disabled_variables := disabled_variables self;
        gaussian_prior := gaussian_prior self;
        _previous_fit_params := _previous_fit_params self;
        base_weight := base_weight self;
        exp_weight := exp_weight self;
        model_manual_values := d :: model_manual_values self |}).

Definition recover_previous_fit : M fit_builder unit :=
  fun self => emit (_previous_fit_params self) self.

(** *** Parameter scaling *)

Definition _scale_params {A} `{PyFloat A} (keys : list string)
    (params : gmap string A) : result (list A) :=
  mapM (fun key =>
          value ← getitem params key;
          if String.prefix "P" key then Ok (times10 value)
          else if nonpos value then Raise ValueError
          else Ok (log10 value)) keys.

Fixpoint _descale_loop (i : nat) (keys : list string) (x : list R)
    (descale : gmap string R) : result (gmap string R) :=
  match keys with
  | [] => Ok descale
  | key :: keys' =>
      xi ← index x i;
      let v := if String.prefix "P" key then xi / 10 else float_pow 10 xi in
      _descale_loop (S i) keys' x (<[key := v]> descale)
  end.

Definition _descale_params (keys : list string) (x : list R) : result (gmap string R) :=
  _descale_loop 0 keys x ∅.

Definition _build_bounds (self : fit_builder) (free_keys : list string)
    : result (list xreal * list xreal) :=
  lower_scaled ← _scale_params free_keys (lower_bounds self);
  upper_scaled ← _scale_params free_keys (upper_bounds self);
  Ok (lower_scaled, upper_scaled).

(** *** Residuals *)

Definition _weight_function (self : fit_builder) (params : gmap string R) : result R :=
  foldl (fun acc key =>
           weight ← acc;
           v ← getitem params key;
           Ok (weight * (1 + base_weight self * exp (exp_weight self * v))))
        (Ok 1) ["Ph"; "Pm"; "Pl"; "Pef"].

Definition np_sub (a b : list R) : result (list R) :=
  pairs ← broadcast2 a b; Ok (map (fun '(x, y) => x - y) pairs).

Definition np_hypot (a b : list R) : result (list R) :=
  pairs ← broadcast2 a b; Ok (map (fun '(x, y) => sqrt (x * x + y * y)) pairs).

Definition np_arctan2_array (a b : list R) : result (list R) :=
  pairs ← broadcast2 a b; Ok (map (fun '(y, x) => np_arctan2 y x) pairs).

Definition np_degrees (a : list R) : list R := map (fun v => v * (180 / PI)) a.

(** The model is run on the circuit object as it stands when the fit
    starts; the values a run leaves in the caches of the circuit are not
    handed to the next evaluation.  With [old_par_second] false a run
    rewrites the cached values before it reads them, so the caches it
    starts from do not show in what it returns ([_residual_fresh]). *)
Definition _residual_cole (self : fit_builder) (params : gmap string R)
    : result (list R) :=
  freq_array ← getitem (_experiment_data self) "freq";
  '(z, _) ← fst (run_model params freq_array false (_model_circuit self));
  let z_real := map real z in
  let z_imag := map imag z in
  exp_real ← getitem (_experiment_data self) "Z_real";
  exp_imag ← getitem (_experiment_data self) "Z_imag";
  weight ← _weight_function self params;
  d_real ← np_sub z_real exp_real;
  d_imag ← np_sub z_imag exp_imag;
  Ok (map (fun v => v * weight) d_real ++ map (fun v => v * weight) d_imag)%list.

Definition _residual_bode (self : fit_builder) (params : gmap string R)
    : result (list R) :=
  freq_array ← getitem (_experiment_data self) "freq";
  '(z, _) ← fst (run_model params freq_array false (_model_circuit self));
  let z_real := map real z in
  let z_imag := map imag z in
  z_abs ← np_hypot z_real z_imag;
  z_phase ← np_arctan2_array z_imag z_real;
  let z_phase_deg := np_degrees z_phase in
  exp_real ← getitem (_experiment_data self) "Z_real";
  exp_imag ← getitem (_experiment_data self) "Z_imag";
  exp_abs ← np_hypot exp_real exp_imag;
  exp_phase ← np_arctan2_array exp_imag exp_real;
  let exp_phase_deg := np_degrees exp_phase in
  log_z_abs ← np_log10_array z_abs;
  log_exp_abs ← np_log10_array exp_abs;
  res_abs ← np_sub log_z_abs log_exp_abs;
  log_z_phase ← np_log10_array (map (fun v => Rabs v + 1e-10) z_phase_deg);
  log_exp_phase ← np_log10_array (map (fun v => Rabs v + 1e-10) exp_phase_deg);
  res_phase ← np_sub log_z_phase log_exp_phase;
  weight ← _weight_function self params;
  Ok (map (fun v => v * weight) res_abs ++ map (fun v => v * weight) res_phase)%list.

Definition _invalid_guess (params : gmap string R) : result (list R) :=
  Fm ← getitem params "Fm";
  Fh ← getitem params "Fh";
  Fl ← getitem params "Fl";
  Fm' ← getitem params "Fm";
  Ok [Rmax 0 (Fm - Fh); Rmax 0 (Fl - Fm')].

Definition _compute_invalid_guess_penalty (params : gmap string R)
    (prior_weight : R) : result (list R) :=
  let arbitrary_scaling := 1e4 in
  deviation ← _invalid_guess params;
  Ok (map (fun d => d * arbitrary_scaling * prior_weight) deviation).

Definition _compute_gaussian_prior (x_guess x0 : list R)
    (lower_bounds upper_bounds : list xreal) (prior_weight : R)
    (gaussian_fraction : R) : result (list R) :=
  bounds ← broadcast2 upper_bounds lower_bounds;
  widths ← mapM (fun '(u, l) => xsub u l) bounds;
  let sigmas := map (fun s => xscale s gaussian_fraction) widths in
  deltas ← np_sub x_guess x0;
  pairs ← broadcast2 deltas sigmas;
  ratios ← mapM (fun '(d, s) => xdiv d s) pairs;
  Ok (map (fun r => prior_weight * r) ratios).

(** *** The fit *)

Section Fit.

(** scipy.optimize.least_squares with method 'trf' and max_nfev 2000:
    from the objective, the start point and the bounds to [result.x]. *)
Variable least_squares :
  (list R -> result (list R)) -> list R -> list xreal * list xreal ->
  result (list R).

Definition _residual_wrapper (self : fit_builder)
    (residual_func : gmap string R -> result (list R))
    (free_keys : list string) (locked_params : gmap string R)
    (x0 : list R) (lower_bounds_scaled upper_bounds_scaled : list xreal)
    (prior_weight : R) (x_free : list R) : result (list R) :=
  free_params ← _descale_params free_keys x_free;
  let full_params := free_params ∪ locked_params in
  match residual_func full_params with
  | Raise ValueError => Ok (map (fun o => o * 1e6) (repeat 1 (Z.to_nat 10000)))
  | Raise e => Raise e
  | Ok model_residual =>
      if gaussian_prior self then
        prior_res ← _compute_gaussian_prior x_free x0 lower_bounds_scaled
                      upper_bounds_scaled prior_weight 5;
        invalid_penalty ← _compute_invalid_guess_penalty full_params prior_weight;
        Ok (model_residual ++ prior_res ++ invalid_penalty)%list
      else Ok model_residual
  end.

(** The local variables [free_keys] and [locked_params] of [fit_model].
    [all_keys] lists the keys of the dictionary; Python does so in
    insertion order, [map_to_list] in the order of the map.  The order
    only decides which coordinate of the optimizer's vector stands for
    which key, the same way in [x0], in the bounds and in the
    descaling. *)
Definition free_keys (self : fit_builder) (initial_params : gmap string R)
    : list string :=
  let all_keys := (map_to_list initial_params).*1 in
  filter (fun k => k ∉ disabled_variables self) all_keys.

Definition locked_params (self : fit_builder) (initial_params : gmap string R)
    : gmap string R :=
  filter (fun kv => kv.1 ∈ disabled_variables self) initial_params.

(** [(best_fit['Pei']+1)%4. - 1] when the key is there. *)
Definition wrap_Pei (best_fit : gmap string R) : gmap string R :=
  match best_fit !! "Pei" with
  | Some Pei => <["Pei" := float_mod (Pei + 1) 4 - 1]> best_fit
  | None => best_fit
  end.

Definition fit_model (residual_func : fit_builder -> gmap string R -> result (list R))
    (initial_params : gmap string R) (prior_weight : R)
    : M fit_builder (gmap string R) :=
  set_previous_fit_params initial_params;;
  self ← (fun self => (Ok self, self));
  let free_keys := free_keys self initial_params in
  let locked_params := locked_params self initial_params in
  x0 ← lift (_scale_params free_keys initial_params);
  '(lower_bounds_scaled, upper_bounds_scaled) ← lift (_build_bounds self free_keys);
  result_x ← lift (least_squares
                     (_residual_wrapper self (residual_func self) free_keys
                        locked_params x0 lower_bounds_scaled upper_bounds_scaled
                        prior_weight)
                     x0 (lower_bounds_scaled, upper_bounds_scaled));
  best_fit_free ← lift (_descale_params free_keys result_x);
  let best_fit := wrap_Pei (best_fit_free ∪ locked_params) in
  emit best_fit;;
  mret best_fit.

Definition fit_model_cole (initial_params : gmap string R) (prior_weight : R)
    : M fit_builder (gmap string R) :=
  fit_model _residual_cole initial_params prior_weight.

Definition fit_model_bode (initial_params : gmap string R) (prior_weight : R)
    : M fit_builder (gmap string R) :=
  fit_model _residual_bode initial_params prior_weight.

End Fit.

End FitBuilder.

(** ** TimeDomainBuilder.py *)

(** [np.linspace(start, stop, num)] *)
Definition np_linspace (start stop : R) (num : nat) : list R :=
  match num with
  | 0%nat => []
  | 1%nat => [start]
  | _ => map (fun i => start + INR i * ((stop - start) / INR (num - 1))) (seq 0 num)
  end.

(** [np.cumsum] *)
Fixpoint cumsum_from (acc : R) (a : list R) : list R :=
  match a with
  | [] => []
  | x :: a' => (acc + x) :: cumsum_from (acc + x) a'
  end.

Definition np_cumsum (a : list R) : list R := cumsum_from 0 a.

(** [np.searchsorted(a, v)] on an ascending array: the first index whose
    element is not below [v] (side "left"), respectively above [v]
    (side "right"). *)
Fixpoint searchsorted_left (a : list R) (v : R) : nat :=
  match a with
  | [] => 0
  | x :: a' => if decide (x < v) then S (searchsorted_left a' v) else 0
  end.

Fixpoint searchsorted_right (a : list R) (v : R) : nat :=
  match a with
  | [] => 0
  | x :: a' => if decide (x <= v) then S (searchsorted_right a' v) else 0
  end.

(** [a[0] = v] *)
Definition setitem0 {A} (a : list A) (v : A) : result (list A) :=
  match a with
  | [] => Raise IndexError
  | _ :: a' => Ok (v :: a')
  end.

Module TimeDomainBuilder.
Import ModelCircuits.

Record time_domain_builder : Type := Build_time_domain_builder {
  N : nat;
  T : nat;
  _integral_variables : gmap string R
}.

(** The constructor also stores the circuit object; [run_time_domain] is
    handed the circuit as an argument and does not read the stored one. *)
Definition __init__ : time_domain_builder :=
  {| N := 2 ^ 14; T := 4; _integral_variables := ∅ |}.

Definition set_integral_variable (key : string) (v : R)
    : M time_domain_builder unit :=
  fun self =>
    (Ok tt, {| N := N self; T := T self;
               _integral_variables := <[key := v]> (_integral_variables self) |}).

Section Transform.

(** numpy.fft.irfft, scipy.signal.butter and scipy.signal.filtfilt *)
Variable irfft : list complex -> result (list R).
Variable butter : nat -> R -> list R * list R.
Variable filtfilt : list R -> list R -> list R -> result (list R).

Definition _fourier_transform_pulse (z_complex : list complex) (dt : R)
    : result (list R * list R * list R) :=
  let '(b, a) := butter 2 0.45 in
  z_inversefft ← irfft z_complex;
  z_inversefft ← filtfilt b a z_inversefft;
  let t := map (fun i => INR i * dt) (seq 0 (length z_inversefft)) in
  let volt_up := 0 :: removelast (np_cumsum z_inversefft) in
  let time_to_plot_in_seconds := 2 in
  let index_ := searchsorted_right t time_to_plot_in_seconds in
  reference ← index volt_up index_;
  let volt_down := map (fun v => reference - v) volt_up in
  Ok (t, volt_down, volt_up).

Definition _integration_variables (t v_down : list R) : M time_domain_builder unit :=
  let keys := ["V(.1ms)"; "V(1ms)"; "V(10)"; "V(100)"; "V(200)"; "V(400)";
               "V(800)"; "V(1.2s)"; "V(1.6s)"] in
  let seconds := [0.0001; 0.001; 0.01; 0.1; 0.2; 0.4; 0.8; 1.2; 1.6] in
  foldl (fun acc '(key, mili) =>
           acc;;
           let index_ := searchsorted_left t mili in
           v ← lift (index v_down index_);
           set_integral_variable key v)
        (mret tt) (zip keys seconds).

(** The part of [run_time_domain] before the transform: the frequency
    grid with its first bin raised to 0.001, and the rock impedance on
    that grid with the first bin replaced by its real part. *)
Definition frequency_grid (self : time_domain_builder) : result (list R) :=
  let n_freq := (N self / 2)%nat in
  df ← float_div 1 (INR (T self));
  let fmin := 0 in
  let fmax := INR n_freq * df in
  let freq_even := np_linspace fmin fmax (n_freq + 1) in
  setitem0 freq_even 0.001.

Definition rock_spectrum (params : gmap string R) (freq_even : list R)
    : M model_circuit (list complex) :=
  z_complex ← run_rock params freq_even false;
  z0 ← lift (index z_complex 0);
  lift (setitem0 z_complex (c_of_R (real z0))).

Definition run_time_domain (params : gmap string R)
    (self : time_domain_builder) (circuit : model_circuit)
    : result (list R * list R * list R * list R)
      * time_domain_builder * model_circuit :=
  match float_div (INR (T self)) (INR (N self)) with
  | Raise e => (Raise e, self, circuit)
  | Ok dt =>
  match frequency_grid self with
  | Raise e => (Raise e, self, circuit)
  | Ok freq_even =>
  match rock_spectrum params freq_even circuit with
  | (Raise e, circuit') => (Raise e, self, circuit')
  | (Ok z_complex, circuit') =>
  match _fourier_transform_pulse z_complex dt with
  | Raise e => (Raise e, self, circuit')
  | Ok (t, volt_down, volt_up) =>
  match _integration_variables t volt_down self with
  | (Raise e, self') => (Raise e, self', circuit')
  | (Ok _, self') =>
      let index_ := searchsorted_left t (INR (T self / 2)) in
      (Ok (firstn (index_ + 1) freq_even, firstn (index_ + 1) t,
           firstn (index_ + 1) volt_down, firstn (index_ + 1) volt_up),
       self', circuit')
  end end end end end.

End Transform.

End TimeDomainBuilder.

(** ** Calculator.py *)

Module Calculator.
Import ModelCircuits.

(** The attributes of a Calculator that [_calculate_special_frequencies]
    reads or writes. *)
Record calculator : Type := Build_calculator {
  _model_circuit : model_circuit;
  _calculator_variables : gmap string R
}.

Definition set_rinf_negative (state : bool) (self : calculator) : calculator :=
  {| _model_circuit := set_negative_rinf state (_model_circuit self);
     _calculator_variables := _calculator_variables self |}.

(** A method of the circuit object, run on the Calculator's circuit. *)
Definition on_model_circuit {A} (m : M model_circuit A) : M calculator A :=
  fun self =>
    let '(r, mc) := m (_model_circuit self) in
    (r, {| _model_circuit := mc;
           _calculator_variables := _calculator_variables self |}).

Definition set_calculator_variable (key : string) (v : R) : M calculator unit :=
  fun self =>
    (Ok tt, {| _model_circuit := _model_circuit self;
               _calculator_variables := <[key := v]> (_calculator_variables self) |}).

Definition _get_special_freqs (slider_values : gmap string R) : result (list R) :=
  Fh ← getitem slider_values "Fh";
  Fm ← getitem slider_values "Fm";
  Fl ← getitem slider_values "Fl";
  Ok [Fh; Fm; Fl].

Definition _calculate_special_frequencies (params : gmap string R)
    : M calculator (list R * list R * list R) :=
  let params_no_electrode := <["Qe" := 1e2]> (<["Re" := 1e8]> params) in
  let fixed_special_frequencies := [0.1] in
  dynamic_special_freq ← lift (_get_special_freqs params);
  '(fsf_z, _) ← on_model_circuit
                   (run_model params_no_electrode fixed_special_frequencies true);
  '(dsf_z, _) ← on_model_circuit (run_model params dynamic_special_freq true);
  R01 ← lift (index (map real fsf_z) 0);
  set_calculator_variable "R01" R01;;
  let special_freq := (dynamic_special_freq ++ fixed_special_frequencies)%list in
  let spec_zr := (map real dsf_z ++ map real fsf_z)%list in
  let spec_zi := (map imag dsf_z ++ map (fun _ => 0) (map real fsf_z))%list in
  mret (special_freq, spec_zr, spec_zi).

End Calculator.

(** ** IEEE doubles

    The two expressions whose doubles behave unlike the reals they stand
    for, on binary64 floats with the rounding of the machine. *)

Module Binary64.
Import Floats.

(** C's [fmod]: the remainder of the truncated division, exact, with the
    sign of [x]. *)
Definition fmod (x y : float) : float :=
  match Prim2SF x, Prim2SF y with
  | S754_nan, _ | _, S754_nan | S754_infinity _, _ | _, S754_zero _ => nan
  | _, S754_infinity _ => x
  | S754_zero _, _ => x
  | S754_finite sx mx ex, S754_finite _ my ey =>
      let e := Z.min ex ey in
      match ((Z.pos mx * 2 ^ (ex - e)) mod (Z.pos my * 2 ^ (ey - e)))%Z with
      | Z.pos r => SF2Prim (S754_finite sx r e)
      | _ => if sx then neg_zero else zero
      end
  end.

(** [vx % wx] on Python floats: [fmod], moved by [wx] when its sign is not
    the sign of [wx].  numpy's remainder does the same for a divisor other
    than zero. *)
Definition float_rem (vx wx : float) : result float :=
  if (wx =? 0)%float then Raise ZeroDivisionError
  else
    let mod_ := fmod vx wx in
    Ok (if negb (mod_ =? 0)%float then
          if xorb (wx <? 0)%float (mod_ <? 0)%float then (mod_ + wx)%float else mod_
        else if get_sign wx then neg_zero else zero).

(** [(best_fit['Pei']+1)%4. - 1] when the key is there. *)
Definition wrap_Pei (best_fit : gmap string float) : result (gmap string float) :=
  match best_fit !! "Pei" with
  | Some Pei =>
      m ← float_rem (Pei + 1)%float 4%float;
      Ok (<["Pei" := (m - 1)%float]> best_fit)
  | None => Ok best_fit
  end.

Record complex : Type := Cx { real : float; imag : float }.

Definition c_mul (a b : complex) : complex :=
  Cx (real a * real b - imag a * imag b)%float
     (real a * imag b + imag a * real b)%float.

(** [np.pi] *)
Definition np_pi : float := 0x1.921fb54442d18p+1%float.

Definition _inductor (freq linf : float) : result complex :=
  if (linf =? 0)%float then Raise ValueError
  else if (freq <? 0)%float then Raise ValueError
  else Ok (c_mul (Cx ((2 * np_pi * freq) * linf)%float 0%float) (Cx 0%float 1%float)).

End Binary64.

(** ** Example objects

    The parameter set of [manual_test_circuit_models], an experimental
    spectrum of three points, a FitBuilder whose bounds lie a decade below
    and above these parameters, and an optimizer that returns its start
    point. *)

Module Examples.
Import ModelCircuits FitBuilder.

Definition parameters : gmap string R :=
  <["Rinf" := 10]> (<["Rh" := 20]> (<["Rm" := 30]> (<["Rl" := 40]> (<["Linf" := 0.001]>
  (<["Re" := 50]> (<["Ph" := 0.8]> (<["Pm" := 0.6]> (<["Pl" := 0.4]> (<["Fh" := 100]>
  (<["Fm" := 10]> (<["Fl" := 1]> (<["Pef" := 0.7]> (<["Pei" := 0.5]> (<["Qe" := 0.9]> ∅)))))))))))))).

Definition experiment : gmap string (list R) :=
  <["freq" := [1; 10; 100]]> (<["Z_real" := [100; 90; 80]]> (<["Z_imag" := [-5; -10; -5]]> ∅)).

Definition builder (disabled : gset string) (prior : bool) : fit_builder :=
  {| _experiment_data := experiment;
     _model_circuit := ModelCircuitSeries false ∅ ∅ ∅;
     lower_bounds := <["Pei" := NInf]> ((fun v => Fin (v / 10)) <$> parameters);
     upper_bounds := <["Pei" := PInf]> ((fun v => Fin (v * 10)) <$> parameters);
     disabled_variables := disabled;
     gaussian_prior := prior;
     _previous_fit_params := ∅;
     base_weight := 3;
     exp_weight := -15;
     model_manual_values := [] |}.

Definition start_point (f : list R -> result (list R)) (x0 : list R)
    (bounds : list xreal * list xreal) : result (list R) := Ok x0.

(** A twelve-sample impulse of ones on a grid of step 1: numpy's irfft of
    [12, 0, 0, 0, 0, 0, 0], left unchanged by a filter of unit gain. *)
Definition ones_irfft (z : list complex) : result (list R) := Ok (repeat 1 12).
Definition unit_butter (order : nat) (cutoff : R) : list R * list R := ([1], [1]).
Definition unit_filtfilt (b a x : list R) : result (list R) := Ok x.
Definition dc_spectrum : list complex := c_of_R 12 :: repeat c_zero 6.

Definition cached_series : model_circuit :=
  ModelCircuitSeries false (<["Qh" := 1e-4]> (<["Qm" := 1e-3]> (<["Ql" := 1e-2]> ∅))) ∅ ∅.

Definition calculator0 : Calculator.calculator :=
  Calculator.Build_calculator cached_series ∅.

End Examples.

(** ** Computations that do not look at the negative-Rinf flag *)

Definition with_flag {A} (b : bool) (out : result A * ModelCircuits.model_circuit)
    : result A * ModelCircuits.model_circuit :=
  (out.1, ModelCircuits.set_negative_rinf b out.2).

Definition flag_blind {A} (m : M ModelCircuits.model_circuit A) : Prop :=
  forall b self, m (ModelCircuits.set_negative_rinf b self) = with_flag b (m self).

(** ** Computations whose result is decided by the cached values they name *)

(** Two circuit objects of the same class and flag whose caches hold the
    same entries under the keys of [Kq] (in [q]) and [Ks] (in
    [par_second]). *)
Definition agree_on (Kq Ks : gset string) (c1 c2 : ModelCircuits.model_circuit) : Prop :=
  ModelCircuits.cls c1 = ModelCircuits.cls c2
  /\ ModelCircuits.negative_rinf c1 = ModelCircuits.negative_rinf c2
  /\ (forall k, k ∈ Kq -> ModelCircuits.q c1 !! k = ModelCircuits.q c2 !! k)
  /\ (forall k, k ∈ Ks -> ModelCircuits.par_second c1 !! k = ModelCircuits.par_second c2 !! k).

(** From objects related by [P] the computation gives the same outcome,
    and when that is a value it leaves objects related by [Q]. *)
Definition relates {A} (P Q : ModelCircuits.model_circuit -> ModelCircuits.model_circuit -> Prop)
    (m : M ModelCircuits.model_circuit A) : Prop :=
  forall c1 c2, P c1 c2 ->
    (m c1).1 = (m c2).1
    /\ match (m c1).1 with
       | Ok _ => Q (m c1).2 (m c2).2
       | Raise _ => True
       end.

(** The keys that [_calculate_secondary_parameters] writes and the model
    reads back. *)
Definition cached_q : gset string := {["Qh"; "Qm"; "Ql"]}.
Definition cached_par_second : gset string :=
  {["R0"; "pRh"; "pQh"; "pRm"; "pQm"; "pRl"; "pQl"]}.

(** The second object has the class and the flag of the first, and the
    cache entries of the first under every key that
    [_calculate_secondary_parameters] does not write. *)
Definition same_outside_caches (c c' : ModelCircuits.model_circuit) : Prop :=
  ModelCircuits.cls c' = ModelCircuits.cls c
  /\ ModelCircuits.negative_rinf c' = ModelCircuits.negative_rinf c
  /\ (forall k, k ∉ cached_q -> ModelCircuits.q c' !! k = ModelCircuits.q c !! k)
  /\ (forall k, k ∉ cached_par_second ->
        ModelCircuits.par_second c' !! k = ModelCircuits.par_second c !! k).

(** The parameters that [_calculate_secondary_parameters] reads. *)
Definition secondary_inputs : list string :=
  ["Rinf"; "Rh"; "Rm"; "Rl"; "Fh"; "Fm"; "Fl"; "Ph"; "Pm"; "Pl"].

Module TransformExamples.

(** An inverse real FFT with numpy's output length, 2 (m - 1) samples for
    m frequency bins, here all ones. *)
Definition even_irfft (z : list complex) : result (list R) :=
  Ok (repeat 1 (2 * (length z - 1))).

End TransformExamples.

(** * Properties *)

(** ** Results and comprehensions *)
Lemma bind_Ok {A B} (m : result A) (f : A -> result B) (b : B) :
  m ≫= f = Ok b <-> exists a, m = Ok a /\ f a = Ok b.
Proof.
  destruct m as [a | e]; simpl; split.
  - eauto.
  - intros (a' & [= <-] & H). done.
  - done.
  - intros (a' & [=] & _).
Qed.

Lemma mapM_cons {A B} (f : A -> result B) (x : A) (xs : list A) :
  mapM f (x :: xs) = y ← f x; ys ← mapM f xs; Ok (y :: ys).
Proof. reflexivity. Qed.

Lemma mapM_length {A B} (f : A -> result B) (xs : list A) (ys : list B) :
  mapM f xs = Ok ys -> length ys = length xs.
Proof.
  revert ys. induction xs as [| x xs IH]; intros ys; simpl.
  - intros [= <-]. done.
  - intros (y & Hy & (ys' & Hys & [= <-])%bind_Ok)%bind_Ok.
    simpl. f_equal. by apply IH.
Qed.

Lemma mapM_lookup {A B} (f : A -> result B) (xs : list A) (ys : list B) (i : nat) (x : A) :
  mapM f xs = Ok ys -> xs !! i = Some x -> exists y, ys !! i = Some y /\ f x = Ok y.
Proof.
  revert ys i. induction xs as [| x' xs IH]; intros ys i; simpl; [done |].
  intros (y & Hy & (ys' & Hys & [= <-])%bind_Ok)%bind_Ok Hi.
  destruct i as [| i]; simpl in *.
  - injection Hi as ->. eauto.
  - eauto.
Qed.

Lemma mapM_ext {A B} (f g : A -> result B) (xs : list A) :
  (forall x, x ∈ xs -> f x = g x) -> mapM f xs = mapM g xs.
Proof.
  induction xs as [| x xs IH]; intros H; simpl; [done |].
  rewrite (H x) by constructor. rewrite IH; [done |].
  intros y Hy. apply H. by constructor.
Qed.

Lemma mapM_Ok {A B} (f : A -> result B) (xs : list A) :
  (forall x, x ∈ xs -> exists y, f x = Ok y) -> exists ys, mapM f xs = Ok ys.
Proof.
  induction xs as [| x xs IH]; intros H; simpl; [eauto |].
  destruct (H x) as [y Hy]; [constructor |]. rewrite Hy. simpl.
  destruct IH as [ys Hys].
  { intros z Hz. apply H. by constructor. }
  rewrite Hys. simpl. eauto.
Qed.

Lemma getitem_Ok {V} (d : gmap string V) (k : string) (v : V) :
  getitem d k = Ok v <-> d !! k = Some v.
Proof. unfold getitem. destruct (d !! k); split; congruence. Qed.

Lemma index_Ok {A} (a : list A) (i : nat) (v : A) :
  index a i = Ok v <-> a !! i = Some v.
Proof. unfold index. destruct (a !! i); split; congruence. Qed.

Lemma getitem_insert_ne {V} (d : gmap string V) (k k' : string) (v : V) :
  k <> k' -> getitem (<[k := v]> d) k' = getitem d k'.
Proof. intros Hne. unfold getitem. by rewrite lookup_insert_ne. Qed.

Lemma getitem_insert_eq {V} (d : gmap string V) (k : string) (v : V) :
  getitem (<[k := v]> d) k = Ok v.
Proof. unfold getitem. by rewrite lookup_insert_eq. Qed.

(** ** The state monad *)
Lemma broadcast2_same_length {A B} (a : list A) (b : list B) :
  length a = length b -> broadcast2 a b = Ok (zip a b).
Proof. intros H. unfold broadcast2. by rewrite decide_True. Qed.

Lemma M_bind_Ok {S A B} (m : M S A) (f : A -> M S B) (s s' : S) (b : B) :
  (m ≫= f) s = (Ok b, s') <-> exists a s1, m s = (Ok a, s1) /\ f a s1 = (Ok b, s').
Proof.
  unfold mbind, M_bind. destruct (m s) as [[a | e] s1]; split.
  - eauto.
  - intros (a' & s1' & [= <- <-] & H). done.
  - done.
  - intros (a' & s1' & [=] & _).
Qed.

Lemma M_bind_Raise {S A B} (m : M S A) (f : A -> M S B) (s s' : S) (e : exn) :
  m s = (Raise e, s') -> (m ≫= f) s = (Raise e, s').
Proof. intros H. unfold mbind, M_bind. by rewrite H. Qed.

Lemma M_bind_step {S A B} (m : M S A) (f : A -> M S B) (s s' : S) (a : A) :
  m s = (Ok a, s') -> (m ≫= f) s = f a s'.
Proof. intros H. unfold mbind, M_bind. by rewrite H. Qed.

Lemma lift_Ok {S A} (r : result A) (s s' : S) (a : A) :
  lift r s = (Ok a, s') <-> r = Ok a /\ s' = s.
Proof. unfold lift. split; [intros [= -> ->]; done | intros [-> ->]; done]. Qed.

Lemma lift_Ok_bind {S A B} (a : A) (k : A -> M S B) (s : S) : (lift (Ok a) ≫= k) s = k a s.
Proof. reflexivity. Qed.

Lemma ret_bind {S A B} (a : A) (k : A -> M S B) (s : S) : (mret a ≫= k) s = k a s.
Proof. reflexivity. Qed.

Lemma reading_Ok {S A} (f : S -> result A) (s s' : S) (a : A) :
  reading f s = (Ok a, s') <-> f s = Ok a /\ s' = s.
Proof. unfold reading. split; [intros [= -> ->]; done | intros [-> ->]; done]. Qed.

(** ** Floats and complex numbers *)
Lemma float_div_Ok (x y : R) : y <> 0 -> float_div x y = Ok (x / y).
Proof. intros Hy. unfold float_div. by rewrite decide_False. Qed.

Lemma two_pi_product_nonzero (f r : R) : 0 < f -> r <> 0 -> 2 * PI * f * r <> 0.
Proof.
  intros Hf Hr. pose proof PI_RGT_0 as Hpi.
  apply Rmult_integral_contrapositive_currified; [| exact Hr].
  apply Rgt_not_eq. apply Rmult_lt_0_compat; [| exact Hf]. lra.
Qed.

Lemma float_pow_pos (x y : R) : 0 < x -> 0 < float_pow x y.
Proof.
  intros Hx. unfold float_pow. case_decide; [lra |]. unfold Rpower. apply exp_pos.
Qed.

Lemma float_pow_0_0 : float_pow 0 0 = 1.
Proof. unfold float_pow. repeat case_decide; done. Qed.

Lemma ln_10_pos : 0 < ln 10.
Proof. rewrite <- ln_1. apply ln_increasing; lra. Qed.

Lemma pow10_log10 (v : R) : 0 < v -> float_pow 10 (np_log10 v) = v.
Proof.
  intros Hv. unfold float_pow, np_log10, Rpower.
  case_decide; [lra |].
  pose proof ln_10_pos.
  replace (ln v / ln 10 * ln 10) with (ln v) by (field; lra).
  by apply exp_ln.
Qed.

Lemma float_mod_4_range (x : R) : 0 <= float_mod x 4 < 4.
Proof.
  unfold float_mod. pose proof (Zfloor_bound (x / 4)) as [H1 H2].
  assert (x = 4 * (x / 4)) as Hx by (field).
  lra.
Qed.

Lemma wrap_range (x : R) : -1 <= float_mod (x + 1) 4 - 1 < 3.
Proof. pose proof (float_mod_4_range (x + 1)). lra. Qed.

Lemma wrap_fixed (x : R) : -1 <= x < 3 -> float_mod (x + 1) 4 - 1 = x.
Proof.
  intros Hx. unfold float_mod.
  rewrite (Zfloor_eq 0); [simpl; lra |]. simpl. lra.
Qed.

Lemma wrap_fixed_iff (x : R) : float_mod (x + 1) 4 - 1 = x <-> -1 <= x < 3.
Proof.
  split; [| apply wrap_fixed]. intros <-. apply wrap_range.
Qed.

Lemma c_inv_ok (z : complex) : z <> c_zero -> exists w, c_inv z = Ok w.
Proof. intros Hz. unfold c_inv. case_decide; [done | eauto]. Qed.

Lemma c_norm_pos (z : complex) : z <> c_zero -> 0 < real z * real z + imag z * imag z.
Proof.
  destruct z as [a b]. simpl. intros Hz.
  destruct (decide (a = 0)) as [-> | Ha]; [destruct (decide (b = 0)) as [-> | Hb]|].
  - done.
  - nra.
  - nra.
Qed.

Lemma c_inv_nonzero (z w : complex) : c_inv z = Ok w -> w <> c_zero.
Proof.
  unfold c_inv. case_decide as Hz; [done |]. intros [= <-] [= Hr Hi].
  pose proof (c_norm_pos z Hz) as Hn.
  apply Hz. destruct z as [a b]. simpl in *. unfold c_zero. 
  assert (a = 0).
  { apply (Rmult_eq_compat_r (a * a + b * b)) in Hr. unfold Rdiv in Hr.
    rewrite Rmult_assoc, Rinv_l, Rmult_0_l, Rmult_1_r in Hr by lra. done. }
  assert (b = 0).
  { apply (Rmult_eq_compat_r (a * a + b * b)) in Hi. unfold Rdiv in Hi.
    rewrite Rmult_assoc, Rinv_l, Rmult_0_l, Rmult_1_r in Hi by lra. lra. }
  congruence.
Qed.

Lemma c_inv_imag (z w : complex) : c_inv z = Ok w -> imag z <> 0 -> imag w <> 0.
Proof.
  unfold c_inv. case_decide as Hz; [done |]. intros [= <-] Hi. simpl.
  pose proof (c_norm_pos z Hz) as Hn. unfold Rdiv.
  apply Rmult_integral_contrapositive_currified; [lra |].
  apply Rinv_neq_0_compat. lra.
Qed.

Lemma c_inv_real_imag (r : R) (w : complex) : c_inv (c_of_R r) = Ok w -> imag w = 0.
Proof.
  unfold c_inv. case_decide; [done |]. intros [= <-]. simpl. unfold Rdiv. lra.
Qed.

Lemma imag_nonzero (z : complex) : imag z <> 0 -> z <> c_zero.
Proof. intros H ->. by apply H. Qed.

Lemma c_of_R_nonzero (r : R) : r <> 0 -> c_of_R r <> c_zero.
Proof. intros H [= Hr]. done. Qed.

Lemma sin_quarter_turns (p : R) : 0 < p < 2 -> sin (p * (PI / 2)) <> 0.
Proof.
  intros Hp. pose proof PI_RGT_0. apply Rgt_not_eq, sin_gt_0; nra.
Qed.

Lemma cpe_denominator_nonzero (q p w : R) :
  q <> 0 -> w <> 0 -> c_mul (c_mul (c_of_R q) (c_j_pow p)) (c_of_R w) <> c_zero.
Proof.
  intros Hq Hw [= Hr Hi].
  pose proof (sin2_cos2 (p * (PI / 2))) as H. unfold Rsqr in H.
  set (c := cos (p * (PI / 2))) in *. set (s := sin (p * (PI / 2))) in *.
  assert (Hc : q * c * w = 0) by lra.
  assert (Hs : q * s * w = 0) by lra.
  assert (c = 0).
  { destruct (Rmult_integral _ _ Hc) as [H1 | H1]; [|done].
    destruct (Rmult_integral _ _ H1); done. }
  assert (s = 0).
  { destruct (Rmult_integral _ _ Hs) as [H1 | H1]; [|done].
    destruct (Rmult_integral _ _ H1); done. }
  subst c s. nra.
Qed.

(** ** The primitives of the circuit model *)

Create HintDb flag_blind.

Section ModelCircuitsProperties.
Import ModelCircuits Examples.

Lemma _cpe_ok (freq q pf pi : R) :
  q <> 0 -> 0 <= freq -> (freq = 0 -> pf = 0) -> exists z, _cpe freq q pf pi = Ok z /\ z <> c_zero.
Proof.
  intros Hq Hf H0. unfold _cpe.
  case_decide; [done |]. case_decide; [lra |].
  assert (Hw : float_pow (2 * PI * freq) pf <> 0).
  { destruct (decide (freq = 0)) as [-> | Hne].
    - rewrite (H0 eq_refl), Rmult_0_r, float_pow_0_0. lra.
    - pose proof PI_RGT_0. apply Rgt_not_eq, float_pow_pos. nra. }
  assert (Hb1 : bool_decide (freq = 0) && bool_decide (pf > 0) = false).
  { apply andb_false_iff. destruct (decide (freq = 0)) as [Hz | Hz].
    - right. apply bool_decide_eq_false. specialize (H0 Hz). lra.
    - left. by apply bool_decide_eq_false. }
  assert (Hb2 : bool_decide (freq = 0) && bool_decide (pf < 0) = false).
  { apply andb_false_iff. destruct (decide (freq = 0)) as [Hz | Hz].
    - right. apply bool_decide_eq_false. specialize (H0 Hz). lra.
    - left. by apply bool_decide_eq_false. }
  rewrite Hb1, Hb2. cbv zeta.
  destruct (c_inv_ok _ (cpe_denominator_nonzero q pi _ Hq Hw)) as [w Hwz].
  exists w. split; [done |]. by eapply c_inv_nonzero.
Qed.

Lemma _q_from_f0_ok (r f0 p : R) :
  r <> 0 -> 0 < f0 -> exists v, _q_from_f0 r f0 p = Ok v /\ v <> 0.
Proof.
  intros Hr Hf. unfold _q_from_f0, float_div.
  case_decide; [done |]. case_decide; [lra |].
  pose proof PI_RGT_0 as Hpi.
  assert (Hw : 0 < float_pow (2 * PI * f0) p) by (apply float_pow_pos; nra).
  case_decide as Hz.
  - destruct (Rmult_integral _ _ Hz); [done | lra].
  - eexists; split; [done |].
    unfold Rdiv. rewrite Rmult_1_l. by apply Rinv_neq_0_compat.
Qed.

Section InductorOnDoubles.
Import Floats.

(** C4 as stated fails on doubles: outside its invalid inputs a primitive
    need not return a finite value.  At f = 2^1023 and L = 1 the product
    2 pi f overflows, and the inductor returns nan + inf j. *)
Lemma inductor_is_not_finite :
  exists z,
    Binary64._inductor 0x1p+1023%float 1%float = Ok z
    /\ is_finite (Binary64.real z) = false
    /\ is_finite (Binary64.imag z) = false.
Proof. eexists. split; [vm_compute; reflexivity |]. split; vm_compute; reflexivity. Qed.

End InductorOnDoubles.

(** C4, amended.  The inductor raises a ValueError exactly when [L = 0] or
    [f < 0]; the CPE exactly when [Q = 0], or [f < 0], or [f = 0] with
    [Pf > 0], or [f = 0] with [Pf < 0], so that [f = 0] with [Pf = 0]
    evaluates; the Q-from-resonant-frequency primitive exactly when
    [R = 0] or [F0 <= 0].  In every other case each primitive, in exact
    real arithmetic, returns a value. *)
Theorem primitive_domain_checks :
  (forall freq linf : R,
     (_inductor freq linf = Raise ValueError <-> linf = 0 \/ freq < 0)
     /\ (_inductor freq linf = Raise ValueError \/ exists z, _inductor freq linf = Ok z))
  /\ (forall freq Q pf pi : R,
     (_cpe freq Q pf pi = Raise ValueError
      <-> Q = 0 \/ freq < 0 \/ (freq = 0 /\ pf > 0) \/ (freq = 0 /\ pf < 0))
     /\ (_cpe freq Q pf pi = Raise ValueError \/ exists z, _cpe freq Q pf pi = Ok z))
  /\ (forall Q pi : R, Q = 0 \/ exists z, _cpe 0 Q 0 pi = Ok z)
  /\ (forall r f0 p : R,
     (_q_from_f0 r f0 p = Raise ValueError <-> r = 0 \/ f0 <= 0)
     /\ (_q_from_f0 r f0 p = Raise ValueError \/ exists v, _q_from_f0 r f0 p = Ok v)).
Proof.
  split; [| split; [| split]].
  - intros freq linf. unfold _inductor.
    repeat case_decide; (split; [split |]); intros; try tauto; try done; eauto.
  - intros freq Q pf pi.
    assert (Hbad : Q = 0 \/ freq < 0 \/ (freq = 0 /\ pf > 0) \/ (freq = 0 /\ pf < 0)
                   -> _cpe freq Q pf pi = Raise ValueError).
    { intros Hc. unfold _cpe.
      case_decide; [done |]. case_decide; [done |].
      destruct Hc as [|[|[[-> Hp]|[-> Hp]]]]; try done.
      - rewrite !bool_decide_eq_true_2 by done. done.
      - rewrite (bool_decide_eq_true_2 (0 = 0)) by done.
        rewrite (bool_decide_eq_true_2 (pf < 0)) by done.
        simpl. by case_bool_decide. }
    destruct (decide (Q = 0 \/ freq < 0 \/ (freq = 0 /\ pf > 0) \/ (freq = 0 /\ pf < 0)))
      as [Hc | Hc].
    + split; [split; [done | auto] | left; auto].
    + destruct (_cpe_ok freq Q pf pi) as (z & Hz & _).
      * tauto.
      * destruct (Rle_dec 0 freq); [done | exfalso; apply Hc; right; left; lra].
      * intros ->. destruct (Rtotal_order pf 0) as [|[|]]; [tauto | done | tauto].
      * split; [split; [congruence | tauto] | right; eauto].
  - intros Q pi. destruct (decide (Q = 0)); [by left | right].
    destruct (_cpe_ok 0 Q 0 pi) as (z & Hz & _); [done | lra | done | eauto].
  - intros r f0 p.
    destruct (decide (r = 0 \/ f0 <= 0)) as [Hc | Hc].
    + assert (_q_from_f0 r f0 p = Raise ValueError).
      { unfold _q_from_f0. repeat case_decide; try done. tauto. }
      split; [split; [done | auto] | left; auto].
    + destruct (_q_from_f0_ok r f0 p) as (v & Hv & _); [tauto | lra |].
      split; [split; [congruence | tauto] | right; eauto].
Qed.

(** *** The negative-Rinf flag *)
Lemma flag_blind_bind {A B} (m : M model_circuit A) (f : A -> M model_circuit B) :
  flag_blind m -> (forall a, flag_blind (f a)) -> flag_blind (m ≫= f).
Proof.
  intros Hm Hf b self. unfold mbind, M_bind. rewrite Hm. unfold with_flag.
  destruct (m self) as [[a | e] s1]; simpl.
  - apply Hf.
  - done.
Qed.

Lemma flag_blind_lift {A} (r : result A) : flag_blind (lift r).
Proof. done. Qed.

Lemma flag_blind_ret {A} (a : A) : flag_blind (mret a).
Proof. done. Qed.

Lemma flag_blind_set_q k v : flag_blind (set_q k v).
Proof. done. Qed.

Lemma flag_blind_set_par_second k v : flag_blind (set_par_second k v).
Proof. done. Qed.

Lemma flag_blind_set_par_other_sec k v : flag_blind (set_par_other_sec k v).
Proof. done. Qed.

Lemma flag_blind_reading {A} (f : model_circuit -> result A) :
  (forall b self, f (set_negative_rinf b self) = f self) -> flag_blind (reading f).
Proof. intros Hf b self. unfold reading, with_flag. simpl. by rewrite Hf. Qed.

#[local] Hint Resolve flag_blind_lift flag_blind_ret flag_blind_set_q
  flag_blind_set_par_second flag_blind_set_par_other_sec : flag_blind.

Ltac flag_blind_steps :=
  repeat first
    [ apply flag_blind_bind; [solve [auto with flag_blind] | intros ?]
    | solve [auto with flag_blind] ].

Lemma flag_blind_secondary par : flag_blind (_calculate_secondary_parameters par).
Proof. unfold _calculate_secondary_parameters. flag_blind_steps. Qed.

Lemma flag_blind_secondary_if (old_par_second : bool) par :
  flag_blind (if old_par_second then mret tt else _calculate_secondary_parameters par).
Proof. destruct old_par_second; [apply flag_blind_ret | apply flag_blind_secondary]. Qed.

Lemma copy_with_rinf_sign_clear parameters self :
  negative_rinf self = false -> copy_with_rinf_sign parameters self = (Ok parameters, self).
Proof.
  intros H. unfold copy_with_rinf_sign.
  erewrite M_bind_step by reflexivity. by rewrite H.
Qed.

Lemma copy_with_rinf_sign_spec parameters self x :
  parameters !! "Rinf" = Some x ->
  copy_with_rinf_sign parameters self
  = (Ok (if negative_rinf self then <["Rinf" := - x]> parameters else parameters), self).
Proof.
  intros Hx%getitem_Ok. unfold copy_with_rinf_sign.
  erewrite M_bind_step by reflexivity.
  destruct (negative_rinf self); [| done].
  erewrite M_bind_step by (unfold lift; rewrite Hx; reflexivity). done.
Qed.

Lemma copy_with_rinf_sign_bind {B} parameters x (k : gmap string R -> M model_circuit B) self :
  parameters !! "Rinf" = Some x ->
  (copy_with_rinf_sign parameters ≫= k) self
  = k (if negative_rinf self then <["Rinf" := - x]> parameters else parameters) self.
Proof. intros Hx. by erewrite M_bind_step by (by apply copy_with_rinf_sign_spec). Qed.

Ltac ignore_Rinf :=
  apply mapM_ext; intros; rewrite ?getitem_insert_ne by done; reflexivity.

Lemma series_run_rock_cached_flag_blind par freq_array :
  is_Some (par !! "Rinf") -> flag_blind (ModelCircuitSeries.run_rock par freq_array true).
Proof.
  intros [x Hx] b self. unfold ModelCircuitSeries.run_rock, with_flag.
  rewrite !(copy_with_rinf_sign_bind _ _ _ _ Hx), !ret_bind.
  unfold reading. cbn [fst snd negative_rinf set_negative_rinf q]. f_equal.
  destruct b, (negative_rinf self); try reflexivity; ignore_Rinf.
Qed.

Lemma parallel_run_rock_cached_flag_blind par freq_array :
  is_Some (par !! "Rinf") -> flag_blind (ModelCircuitParallel.run_rock par freq_array true).
Proof.
  intros [x Hx] b self. unfold ModelCircuitParallel.run_rock, with_flag.
  rewrite !(copy_with_rinf_sign_bind _ _ _ _ Hx), !ret_bind.
  unfold reading. cbn [fst snd negative_rinf set_negative_rinf par_second]. f_equal.
  destruct b, (negative_rinf self); try reflexivity; ignore_Rinf.
Qed.

Lemma flag_flip_bind {B} parameters x (k : gmap string R -> M model_circuit B) self :
  parameters !! "Rinf" = Some x ->
  flag_blind (k (<["Rinf" := - x]> parameters)) ->
  (copy_with_rinf_sign parameters ≫= k) (set_negative_rinf true self)
  = with_flag true
      ((copy_with_rinf_sign (<["Rinf" := - x]> parameters) ≫= k) (set_negative_rinf false self)).
Proof.
  intros Hx Hb.
  assert (Hn : (<["Rinf" := - x]> parameters) !! "Rinf" = Some (- x)) by apply lookup_insert_eq.
  rewrite (copy_with_rinf_sign_bind _ _ _ _ Hx), (copy_with_rinf_sign_bind _ _ _ _ Hn).
  exact (Hb true (set_negative_rinf false self)).
Qed.

Lemma run_model_flag_flip self parameters freq_array old_par_second Rinf :
  parameters !! "Rinf" = Some Rinf ->
  run_model parameters freq_array old_par_second (set_negative_rinf true self)
  = with_flag true
      (run_model (<["Rinf" := - Rinf]> parameters) freq_array old_par_second
         (set_negative_rinf false self)).
Proof.
  intros Hx.
  assert (Hn : is_Some ((<["Rinf" := - Rinf]> parameters) !! "Rinf"))
    by (rewrite lookup_insert_eq; eauto).
  unfold run_model. cbn [cls set_negative_rinf].
  destruct (cls self);
    [unfold ModelCircuitSeries.run_model | unfold ModelCircuitParallel.run_model];
    (apply flag_flip_bind; [exact Hx |]);
    (apply flag_blind_bind; [apply flag_blind_secondary_if | intros _]).
  - apply flag_blind_bind; [by apply series_run_rock_cached_flag_blind | intros z_rock].
    by apply flag_blind_reading.
  - apply flag_blind_bind; [by apply parallel_run_rock_cached_flag_blind | intros z_rock].
    by apply flag_blind_reading.
Qed.

Lemma run_rock_flag_flip self parameters freq_array old_par_second Rinf :
  parameters !! "Rinf" = Some Rinf ->
  run_rock parameters freq_array old_par_second (set_negative_rinf true self)
  = with_flag true
      (run_rock (<["Rinf" := - Rinf]> parameters) freq_array old_par_second
         (set_negative_rinf false self)).
Proof.
  intros Hx. unfold run_rock. cbn [cls set_negative_rinf].
  destruct (cls self);
    [unfold ModelCircuitSeries.run_rock | unfold ModelCircuitParallel.run_rock];
    (apply flag_flip_bind; [exact Hx |]);
    (apply flag_blind_bind; [apply flag_blind_secondary_if | intros _]);
    by apply flag_blind_reading.
Qed.

(** C8.  With the negative-Rinf flag set, [run_model] and [run_rock] return
    what they return with the flag clear on the parameter set in which Rinf
    is replaced by its negation, for both topologies and whether or not the
    secondary parameters are recomputed; the caches they leave behind are
    the same too.  The sign is thus inverted before everything else the
    call computes. *)
Theorem negative_rinf_is_sign_flip self parameters freq_array old_par_second Rinf :
  parameters !! "Rinf" = Some Rinf ->
  let negated := <["Rinf" := - Rinf]> parameters in
  let set := set_negative_rinf true self in
  let clear := set_negative_rinf false self in
  (run_model parameters freq_array old_par_second set).1
  = (run_model negated freq_array old_par_second clear).1
  /\ (run_rock parameters freq_array old_par_second set).1
     = (run_rock negated freq_array old_par_second clear).1
  /\ (run_model parameters freq_array old_par_second set).2
     = set_negative_rinf true (run_model negated freq_array old_par_second clear).2
  /\ (run_rock parameters freq_array old_par_second set).2
     = set_negative_rinf true (run_rock negated freq_array old_par_second clear).2.
Proof.
  intros Hx negated set clear. subst negated set clear.
  rewrite (run_model_flag_flip _ _ _ _ _ Hx), (run_rock_flag_flip _ _ _ _ _ Hx). done.
Qed.

Lemma negative_rinf_is_sign_flip_witness :
  (run_model parameters [1; 10] false (ModelCircuitSeries true ∅ ∅ ∅)).1
  = (run_model (<["Rinf" := - 10]> parameters) [1; 10] false (ModelCircuitSeries false ∅ ∅ ∅)).1.
Proof.
  exact (proj1 (negative_rinf_is_sign_flip (ModelCircuitSeries true ∅ ∅ ∅) parameters
                  [1; 10] false 10 eq_refl)).
Defined.

(** *** Independence of the caches *)
Lemma relates_bind {A B} P Q R (m : M model_circuit A) (f : A -> M model_circuit B) :
  relates P Q m -> (forall a, relates Q R (f a)) -> relates P R (m ≫= f).
Proof.
  intros Hm Hf c1 c2 HP. destruct (Hm c1 c2 HP) as [Hres Hpost].
  unfold mbind, M_bind.
  destruct (m c1) as [r1 s1], (m c2) as [r2 s2]. simpl in Hres, Hpost. subst r2.
  destruct r1 as [a | e]; [by apply Hf | done].
Qed.

Lemma relates_weaken {A} (P P' Q Q' : model_circuit -> model_circuit -> Prop)
    (m : M model_circuit A) :
  relates P Q m -> (forall c1 c2, P' c1 c2 -> P c1 c2) -> (forall c1 c2, Q c1 c2 -> Q' c1 c2) ->
  relates P' Q' m.
Proof.
  intros Hm HP HQ c1 c2 H. destruct (Hm c1 c2 (HP _ _ H)) as [Hres Hpost].
  split; [done |]. destruct (m c1).1; [by apply HQ | done].
Qed.

Lemma relates_lift {A} P (r : result A) : relates P P (lift r).
Proof. intros c1 c2 HP. split; [done |]. by destruct r. Qed.

Lemma relates_ret {A} P (a : A) : relates P P (mret a).
Proof. intros c1 c2 HP. done. Qed.

Lemma relates_set_q Kq Ks k v :
  relates (agree_on Kq Ks) (agree_on ({[k]} ∪ Kq) Ks) (set_q k v).
Proof.
  intros c1 c2 (Hc & Hn & Hq & Hs). split; [done |]. simpl.
  split; [done |]. split; [done |]. split; [| done].
  intros k' Hk'. simpl. destruct (decide (k = k')) as [<- | Hne].
  - by rewrite !lookup_insert_eq.
  - rewrite !lookup_insert_ne by done. apply Hq.
    apply elem_of_union in Hk' as [Hk' % elem_of_singleton | Hk']; [by subst | done].
Qed.

Lemma relates_set_par_second Kq Ks k v :
  relates (agree_on Kq Ks) (agree_on Kq ({[k]} ∪ Ks)) (set_par_second k v).
Proof.
  intros c1 c2 (Hc & Hn & Hq & Hs). split; [done |]. simpl.
  split; [done |]. split; [done |]. split; [done |].
  intros k' Hk'. simpl. destruct (decide (k = k')) as [<- | Hne].
  - by rewrite !lookup_insert_eq.
  - rewrite !lookup_insert_ne by done. apply Hs.
    apply elem_of_union in Hk' as [Hk' % elem_of_singleton | Hk']; [by subst | done].
Qed.

Lemma relates_set_par_other_sec Kq Ks k v :
  relates (agree_on Kq Ks) (agree_on Kq Ks) (set_par_other_sec k v).
Proof. intros c1 c2 (Hc & Hn & Hq & Hs). done. Qed.

Lemma relates_reading {A} (P : model_circuit -> model_circuit -> Prop)
    (f : model_circuit -> result A) :
  (forall c1 c2, P c1 c2 -> f c1 = f c2) -> relates P P (reading f).
Proof.
  intros Hf c1 c2 HP. unfold reading. simpl. split; [by apply Hf |]. by destruct (f c1).
Qed.

Lemma relates_copy_with_rinf_sign Kq Ks parameters :
  relates (agree_on Kq Ks) (agree_on Kq Ks) (copy_with_rinf_sign parameters).
Proof.
  intros c1 c2 H. pose proof H as (_ & Hn & _).
  unfold copy_with_rinf_sign, get_negative_rinf, mbind, M_bind. rewrite Hn.
  destruct (negative_rinf c2); [| done].
  unfold lift. destruct (getitem parameters "Rinf"); done.
Qed.

Lemma getitem_agree {V} (d1 d2 : gmap string V) k : d1 !! k = d2 !! k -> getitem d1 k = getitem d2 k.
Proof. unfold getitem. by intros ->. Qed.

(** What the secondary parameters leave in the caches depends on the
    parameters alone. *)
Lemma relates_secondary Kq Ks par :
  relates (agree_on Kq Ks)
    (agree_on cached_q cached_par_second)
    (_calculate_secondary_parameters par).
Proof.
  unfold _calculate_secondary_parameters.
  eapply relates_weaken; [| intros ? ? H; exact H |].
  { repeat first
      [ eapply relates_bind; [apply relates_lift | intros ?]
      | eapply relates_bind; [apply relates_set_q | intros ?]
      | eapply relates_bind; [apply relates_set_par_second | intros ?]
      | eapply relates_bind; [apply relates_set_par_other_sec | intros ?]
      | apply relates_set_par_other_sec ]. }
  intros c1 c2 (Hc & Hn & Hq & Hs). split; [done |]. split; [done |].
  unfold cached_q, cached_par_second in *.
  split; intros k Hk; [apply Hq | apply Hs]; set_unfold; tauto.
Qed.


Lemma agree_on_mono Kq Ks Kq' Ks' c1 c2 :
  Kq' ⊆ Kq -> Ks' ⊆ Ks -> agree_on Kq Ks c1 c2 -> agree_on Kq' Ks' c1 c2.
Proof.
  intros HKq HKs (Hc & Hn & Hq & Hs). split; [done |]. split; [done |].
  split; intros k Hk; [apply Hq, HKq, Hk | apply Hs, HKs, Hk].
Qed.

(** Either the secondary parameters are recomputed, or the caches that are
    reused agree to begin with. *)
Lemma relates_secondary_if Kq Ks (old_par_second : bool) par :
  (old_par_second = true -> cached_q ⊆ Kq /\ cached_par_second ⊆ Ks) ->
  relates (agree_on Kq Ks) (agree_on cached_q cached_par_second)
    (if old_par_second then mret tt else _calculate_secondary_parameters par).
Proof.
  intros Hcov. destruct old_par_second; [| apply relates_secondary].
  destruct (Hcov eq_refl) as [HKq HKs].
  eapply relates_weaken; [apply (relates_ret (agree_on Kq Ks)) | done |].
  intros c1 c2. by apply agree_on_mono.
Qed.

Lemma relates_series_run_rock Kq Ks par freq_array old_par_second :
  (old_par_second = true -> cached_q ⊆ Kq /\ cached_par_second ⊆ Ks) ->
  relates (agree_on Kq Ks) (agree_on cached_q cached_par_second)
    (ModelCircuitSeries.run_rock par freq_array old_par_second).
Proof.
  intros Hcov. unfold ModelCircuitSeries.run_rock.
  eapply relates_bind; [apply relates_copy_with_rinf_sign | intros par'].
  eapply relates_bind; [by apply relates_secondary_if | intros _].
  apply relates_reading. intros c1 c2 (_ & _ & Hq & _).
  rewrite (getitem_agree (q c1) (q c2) "Qm") by (apply Hq; set_unfold; tauto).
  rewrite (getitem_agree (q c1) (q c2) "Ql") by (apply Hq; set_unfold; tauto).
  reflexivity.
Qed.

Lemma relates_parallel_run_rock Kq Ks par freq_array old_par_second :
  (old_par_second = true -> cached_q ⊆ Kq /\ cached_par_second ⊆ Ks) ->
  relates (agree_on Kq Ks) (agree_on cached_q cached_par_second)
    (ModelCircuitParallel.run_rock par freq_array old_par_second).
Proof.
  intros Hcov. unfold ModelCircuitParallel.run_rock.
  eapply relates_bind; [apply relates_copy_with_rinf_sign | intros par'].
  eapply relates_bind; [by apply relates_secondary_if | intros _].
  apply relates_reading. intros c1 c2 (_ & _ & _ & Hs). cbv zeta.
  rewrite (getitem_agree (par_second c1) (par_second c2) "pRm") by (apply Hs; set_unfold; tauto).
  rewrite (getitem_agree (par_second c1) (par_second c2) "pQm") by (apply Hs; set_unfold; tauto).
  rewrite (getitem_agree (par_second c1) (par_second c2) "pRl") by (apply Hs; set_unfold; tauto).
  rewrite (getitem_agree (par_second c1) (par_second c2) "pQl") by (apply Hs; set_unfold; tauto).
  rewrite (getitem_agree (par_second c1) (par_second c2) "R0") by (apply Hs; set_unfold; tauto).
  reflexivity.
Qed.

Lemma relates_series_run_model Kq Ks par freq_array old_par_second :
  (old_par_second = true -> cached_q ⊆ Kq /\ cached_par_second ⊆ Ks) ->
  relates (agree_on Kq Ks) (agree_on cached_q cached_par_second)
    (ModelCircuitSeries.run_model par freq_array old_par_second).
Proof.
  intros Hcov. unfold ModelCircuitSeries.run_model.
  eapply relates_bind; [apply relates_copy_with_rinf_sign | intros par'].
  eapply relates_bind; [by apply relates_secondary_if | intros _].
  eapply relates_bind; [by apply relates_series_run_rock | intros z_rock].
  apply relates_reading. intros c1 c2 (_ & _ & Hq & _).
  rewrite (getitem_agree (q c1) (q c2) "Qh") by (apply Hq; set_unfold; tauto).
  reflexivity.
Qed.

Lemma relates_parallel_run_model Kq Ks par freq_array old_par_second :
  (old_par_second = true -> cached_q ⊆ Kq /\ cached_par_second ⊆ Ks) ->
  relates (agree_on Kq Ks) (agree_on cached_q cached_par_second)
    (ModelCircuitParallel.run_model par freq_array old_par_second).
Proof.
  intros Hcov. unfold ModelCircuitParallel.run_model.
  eapply relates_bind; [apply relates_copy_with_rinf_sign | intros par'].
  eapply relates_bind; [by apply relates_secondary_if | intros _].
  eapply relates_bind; [by apply relates_parallel_run_rock | intros z_rock].
  apply relates_reading. intros c1 c2 (_ & _ & _ & Hs). cbv zeta.
  rewrite (getitem_agree (par_second c1) (par_second c2) "pRh") by (apply Hs; set_unfold; tauto).
  rewrite (getitem_agree (par_second c1) (par_second c2) "pQh") by (apply Hs; set_unfold; tauto).
  reflexivity.
Qed.


(** With [old_par_second] false the outcome of [run_model] and of
    [run_rock] does not depend on what the caches of the object hold: two
    objects of the same class and flag give the same result or raise the
    same error.  With [old_par_second] true it depends on the cached
    values under the keys above only. *)
Lemma run_model_relates Kq Ks parameters freq_array old_par_second :
  (old_par_second = true -> cached_q ⊆ Kq /\ cached_par_second ⊆ Ks) ->
  relates (agree_on Kq Ks) (agree_on cached_q cached_par_second)
    (run_model parameters freq_array old_par_second).
Proof.
  intros Hcov c1 c2 H. pose proof H as (Hc & _). unfold run_model. rewrite <- Hc.
  destruct (cls c1);
    [by apply (relates_series_run_model Kq Ks) | by apply (relates_parallel_run_model Kq Ks)].
Qed.

Lemma run_rock_relates Kq Ks parameters freq_array old_par_second :
  (old_par_second = true -> cached_q ⊆ Kq /\ cached_par_second ⊆ Ks) ->
  relates (agree_on Kq Ks) (agree_on cached_q cached_par_second)
    (run_rock parameters freq_array old_par_second).
Proof.
  intros Hcov c1 c2 H. pose proof H as (Hc & _). unfold run_rock. rewrite <- Hc.
  destruct (cls c1);
    [by apply (relates_series_run_rock Kq Ks) | by apply (relates_parallel_run_rock Kq Ks)].
Qed.

Lemma run_model_fresh parameters freq_array c1 c2 :
  cls c1 = cls c2 -> negative_rinf c1 = negative_rinf c2 ->
  (run_model parameters freq_array false c1).1 = (run_model parameters freq_array false c2).1.
Proof.
  intros Hc Hn.
  apply (run_model_relates ∅ ∅ parameters freq_array false); [done |].
  split; [done |]. split; [done |]. split; intros k Hk; set_unfold; done.
Qed.

Lemma run_rock_fresh parameters freq_array c1 c2 :
  cls c1 = cls c2 -> negative_rinf c1 = negative_rinf c2 ->
  (run_rock parameters freq_array false c1).1 = (run_rock parameters freq_array false c2).1.
Proof.
  intros Hc Hn.
  apply (run_rock_relates ∅ ∅ parameters freq_array false); [done |].
  split; [done |]. split; [done |]. split; intros k Hk; set_unfold; done.
Qed.

(** *** Arcs that evaluate *)
Lemma _cpe_imag (freq Q pf pi : R) (z : complex) :
  _cpe freq Q pf pi = Ok z -> 0 < freq -> 0 < pi < 2 -> imag z <> 0.
Proof.
  unfold _cpe. case_decide as HQ; [done |]. case_decide; [done |].
  destruct (_ && _); [done |]. destruct (_ && _); [done |]. cbv zeta.
  intros Hz Hf Hp. eapply c_inv_imag; [exact Hz |]. simpl.
  pose proof PI_RGT_0.
  assert (0 < float_pow (2 * PI * freq) pf) by (apply float_pow_pos; nra).
  pose proof (sin_quarter_turns pi Hp).
  replace ((Q * cos (pi * (PI / 2)) - 0 * sin (pi * (PI / 2))) * 0 +
           (Q * sin (pi * (PI / 2)) + 0 * cos (pi * (PI / 2))) * float_pow (2 * PI * freq) pf)
    with (Q * sin (pi * (PI / 2)) * float_pow (2 * PI * freq) pf) by ring.
  repeat apply Rmult_integral_contrapositive_currified; lra.
Qed.

Lemma _parallel_cpe_Ok (freq Q pf pi r : R) :
  0 < freq -> Q <> 0 -> 0 < pi < 2 -> r <> 0 ->
  exists z_cpe zarc,
    _cpe freq Q pf pi = Ok z_cpe /\ _parallel z_cpe (c_of_R r) = Ok zarc.
Proof.
  intros Hf HQ Hp Hr.
  destruct (_cpe_ok freq Q pf pi) as (z & Hz & Hnz); [done | lra | lra |].
  exists z. pose proof (_cpe_imag _ _ _ _ _ Hz Hf Hp) as Hi.
  unfold _parallel.
  rewrite !bool_decide_eq_false_2 by (done || by apply c_of_R_nonzero). cbn [orb].
  destruct (c_inv_ok z Hnz) as [a Ha]. rewrite Ha. cbn [mbind result_bind].
  destruct (c_inv_ok (c_of_R r)) as [b Hb]; [by apply c_of_R_nonzero |].
  rewrite Hb. cbn [mbind result_bind].
  destruct (c_inv_ok (c_add a b)) as [zarc Hzarc]; [| by exists zarc].
  apply imag_nonzero. simpl.
  rewrite (c_inv_real_imag _ _ Hb), Rplus_0_r. by eapply c_inv_imag.
Qed.

Lemma set_q_bind {B} key v (k : unit -> M model_circuit B) self :
  (set_q key v ≫= k) self = k tt (set_q key v self).2.
Proof. reflexivity. Qed.

Lemma set_par_second_bind {B} key v (k : unit -> M model_circuit B) self :
  (set_par_second key v ≫= k) self = k tt (set_par_second key v self).2.
Proof. reflexivity. Qed.

Lemma set_par_other_sec_bind {B} key v (k : unit -> M model_circuit B) self :
  (set_par_other_sec key v ≫= k) self = k tt (set_par_other_sec key v self).2.
Proof. reflexivity. Qed.

(** The series model evaluates on every list of positive frequencies when
    the resistances are not zero, the characteristic frequencies are
    positive and the CPE exponents lie strictly between 0 and 2. *)

Section SeriesEvaluates.

Variable par : gmap string R.
Variables Rinf Rh Rm Rl Fh Fm Fl Ph Pm Pl : R.

Hypothesis par_Rinf : par !! "Rinf" = Some Rinf.
Hypothesis par_Rh : par !! "Rh" = Some Rh.
Hypothesis par_Rm : par !! "Rm" = Some Rm.
Hypothesis par_Rl : par !! "Rl" = Some Rl.
Hypothesis par_Fh : par !! "Fh" = Some Fh.
Hypothesis par_Fm : par !! "Fm" = Some Fm.
Hypothesis par_Fl : par !! "Fl" = Some Fl.
Hypothesis par_Ph : par !! "Ph" = Some Ph.
Hypothesis par_Pm : par !! "Pm" = Some Pm.
Hypothesis par_Pl : par !! "Pl" = Some Pl.

Hypothesis Rh_nonzero : Rh <> 0.
Hypothesis Rm_nonzero : Rm <> 0.
Hypothesis Rl_nonzero : Rl <> 0.
Hypothesis Fh_pos : 0 < Fh.
Hypothesis Fm_pos : 0 < Fm.
Hypothesis Fl_pos : 0 < Fl.
Hypothesis sum_h : Rinf + Rh <> 0.
Hypothesis sum_m : Rinf + Rh + Rm <> 0.
Hypothesis sum_l : Rinf + Rh + Rm + Rl <> 0.

Lemma secondary_parameters_Ok self :
  exists self' Qh Qm Ql,
    _calculate_secondary_parameters par self = (Ok tt, self')
    /\ cls self' = cls self
    /\ negative_rinf self' = negative_rinf self
    /\ q self' !! "Qh" = Some Qh /\ Qh <> 0
    /\ q self' !! "Qm" = Some Qm /\ Qm <> 0
    /\ q self' !! "Ql" = Some Ql /\ Ql <> 0.
Proof using All.
  destruct (_q_from_f0_ok Rh Fh Ph) as (Qh & HQh & HQh0); [done | done |].
  destruct (_q_from_f0_ok Rm Fm Pm) as (Qm & HQm & HQm0); [done | done |].
  destruct (_q_from_f0_ok Rl Fl Pl) as (Ql & HQl & HQl0); [done | done |].
  pose proof PI_RGT_0 as Hpi.
  apply getitem_Ok in par_Rinf, par_Rh, par_Rm, par_Rl, par_Fh, par_Fm, par_Fl,
    par_Ph, par_Pm, par_Pl.
  assert (2 * PI * Fh * Rh <> 0) by (by apply two_pi_product_nonzero).
  assert (2 * PI * Fm * Rm <> 0) by (by apply two_pi_product_nonzero).
  assert (2 * PI * Fl * Rl <> 0) by (by apply two_pi_product_nonzero).
  eexists _, Qh, Qm, Ql. split.
  - unfold _calculate_secondary_parameters.
    repeat first
      [ rewrite par_Rinf | rewrite par_Rh | rewrite par_Rm | rewrite par_Rl
      | rewrite par_Fh | rewrite par_Fm | rewrite par_Fl
      | rewrite par_Ph | rewrite par_Pm | rewrite par_Pl
      | rewrite HQh | rewrite HQm | rewrite HQl
      | rewrite float_div_Ok by assumption
      | rewrite lift_Ok_bind
      | rewrite set_q_bind | rewrite set_par_second_bind | rewrite set_par_other_sec_bind ].
    reflexivity.
  - cbn [set_q set_par_second set_par_other_sec snd cls negative_rinf q].
    repeat split; try done.
    + by rewrite !lookup_insert_ne, lookup_insert_eq by done.
    + by rewrite lookup_insert_ne, lookup_insert_eq by done.
    + by rewrite lookup_insert_eq.
Qed.

Hypothesis Pm_range : 0 < Pm < 2.
Hypothesis Pl_range : 0 < Pl < 2.

Lemma series_rock_loop_Ok self freq_array Qm Ql :
  q self !! "Qm" = Some Qm -> Qm <> 0 ->
  q self !! "Ql" = Some Ql -> Ql <> 0 ->
  Forall (fun f => 0 < f) freq_array ->
  exists z,
    ModelCircuitSeries.run_rock par freq_array true self = (Ok z, self)
    /\ length z = length freq_array.
Proof using All.
  intros HQm HQm0 HQl HQl0 Hfreq.
  apply getitem_Ok in HQm, HQl, par_Pm, par_Pl, par_Rm, par_Rl.
  destruct (mapM_Ok (fun freq =>
              Qm ← getitem (q self) "Qm"; Pm ← getitem par "Pm";
              z_cpem ← _cpe freq Qm Pm Pm; Rm ← getitem par "Rm";
              zarcm ← _parallel z_cpem (c_of_R Rm);
              Ql ← getitem (q self) "Ql"; Pl ← getitem par "Pl";
              z_cpel ← _cpe freq Ql Pl Pl; Rl ← getitem par "Rl";
              zarcl ← _parallel z_cpel (c_of_R Rl);
              Ok (c_add zarcm zarcl)) freq_array) as [z Hz].
  { intros f Hf. rewrite Forall_forall in Hfreq. specialize (Hfreq f Hf).
    destruct (_parallel_cpe_Ok f Qm Pm Pm Rm) as (zm & am & Hzm & Ham); try done.
    destruct (_parallel_cpe_Ok f Ql Pl Pl Rl) as (zl & al & Hzl & Hal); try done.
    rewrite HQm, par_Pm. cbn [mbind result_bind]. rewrite Hzm, par_Rm.
    cbn [mbind result_bind]. rewrite Ham, HQl, par_Pl. cbn [mbind result_bind].
    rewrite Hzl, par_Rl. cbn [mbind result_bind]. rewrite Hal. eauto. }
  exists z. split; [| by eapply mapM_length].
  unfold ModelCircuitSeries.run_rock.
  rewrite (copy_with_rinf_sign_bind _ _ _ _ par_Rinf), ret_bind. unfold reading.
  f_equal. rewrite <- Hz. destruct (negative_rinf self); [ignore_Rinf | reflexivity].
Qed.

Lemma series_run_rock_Ok self freq_array :
  negative_rinf self = false ->
  Forall (fun f => 0 < f) freq_array ->
  exists z self',
    ModelCircuitSeries.run_rock par freq_array false self = (Ok z, self')
    /\ length z = length freq_array.
Proof using All.
  intros Hneg Hfreq.
  destruct (secondary_parameters_Ok self)
    as (self' & Qh & Qm & Ql & Hsec & _ & Hneg' & _ & _ & HQm & HQm0 & HQl & HQl0).
  rewrite Hneg in Hneg'.
  destruct (series_rock_loop_Ok self' freq_array Qm Ql) as (z & Hz & Hlen); try done.
  exists z, self'. split; [| done].
  unfold ModelCircuitSeries.run_rock in Hz.
  rewrite (copy_with_rinf_sign_bind _ _ _ _ par_Rinf), Hneg', ret_bind in Hz.
  unfold ModelCircuitSeries.run_rock.
  rewrite (copy_with_rinf_sign_bind _ _ _ _ par_Rinf), Hneg.
  erewrite M_bind_step by exact Hsec. exact Hz.
Qed.

Variables Linf Qe Pef Pei Re : R.

Hypothesis par_Linf : par !! "Linf" = Some Linf.
Hypothesis par_Qe : par !! "Qe" = Some Qe.
Hypothesis par_Pef : par !! "Pef" = Some Pef.
Hypothesis par_Pei : par !! "Pei" = Some Pei.
Hypothesis par_Re : par !! "Re" = Some Re.
Hypothesis Linf_nonzero : Linf <> 0.
Hypothesis Qe_nonzero : Qe <> 0.
Hypothesis Re_nonzero : Re <> 0.
Hypothesis Ph_range : 0 < Ph < 2.
Hypothesis Pei_range : 0 < Pei < 2.

Lemma series_run_model_cached_Ok self freq_array Qh Qm Ql :
  q self !! "Qh" = Some Qh -> Qh <> 0 ->
  q self !! "Qm" = Some Qm -> Qm <> 0 ->
  q self !! "Ql" = Some Ql -> Ql <> 0 ->
  negative_rinf self = false ->
  Forall (fun f => 0 < f) freq_array ->
  exists z z_rock,
    ModelCircuitSeries.run_model par freq_array true self = (Ok (z, z_rock), self).
Proof using All.
  intros HQh HQh0 HQm HQm0 HQl HQl0 Hneg Hfreq.
  destruct (series_rock_loop_Ok self freq_array Qm Ql) as (z_rock & Hrock & Hlen_rock);
    try done.
  rewrite Forall_forall in Hfreq.
  apply getitem_Ok in HQh, par_Linf, par_Rinf, par_Ph, par_Rh, par_Qe, par_Pef, par_Pei, par_Re.
  unfold ModelCircuitSeries.run_model.
  rewrite (copy_with_rinf_sign_bind _ Rinf) by (by apply getitem_Ok).
  rewrite Hneg, ret_bind. erewrite M_bind_step by exact Hrock.
  unfold reading.
  (* zinf *)
  destruct (mapM_Ok (fun freq => Linf ← getitem par "Linf"; zl ← _inductor freq Linf;
                       Rinf ← getitem par "Rinf"; Ok (c_add zl (c_of_R Rinf))) freq_array)
    as [zinf Hzinf].
  { intros f Hf. specialize (Hfreq f Hf). rewrite par_Linf. cbn [mbind result_bind].
    unfold _inductor. rewrite !decide_False by lra. cbn [mbind result_bind].
    rewrite par_Rinf. eauto. }
  rewrite Hzinf. cbn [mbind result_bind].
  (* z_cpeh *)
  destruct (mapM_Ok (fun freq => Qh ← getitem (q self) "Qh"; Ph ← getitem par "Ph";
                       _cpe freq Qh Ph Ph) freq_array) as [z_cpeh Hz_cpeh].
  { intros f Hf. specialize (Hfreq f Hf). rewrite HQh, par_Ph. cbn [mbind result_bind].
    destruct (_parallel_cpe_Ok f Qh Ph Ph Rh) as (zc & _ & Hzc & _); eauto. }
  rewrite Hz_cpeh. cbn [mbind result_bind].
  (* zarch *)
  destruct (mapM_Ok (fun i => z ← index z_cpeh i; Rh ← getitem par "Rh";
                       _parallel z (c_of_R Rh)) (seq 0 (length freq_array)))
    as [zarch Hzarch].
  { intros i [_ Hi]%elem_of_seq. simpl in Hi.
    destruct (lookup_lt_is_Some_2 freq_array i Hi) as [f Hf].
    destruct (mapM_lookup _ _ _ _ _ Hz_cpeh Hf) as (zc & Hzc & Hcpe).
    apply index_Ok in Hzc. rewrite Hzc, par_Rh. cbn [mbind result_bind].
    rewrite HQh, par_Ph in Hcpe. cbn [mbind result_bind] in Hcpe.
    destruct (_parallel_cpe_Ok f Qh Ph Ph Rh) as (zc' & zarc & Hzc' & Hzarc); try done.
    { apply Hfreq. by eapply list_elem_of_lookup_2. }
    rewrite Hcpe in Hzc'. injection Hzc' as <-. eauto. }
  rewrite Hzarch. cbn [mbind result_bind].
  (* z_cpee *)
  destruct (mapM_Ok (fun freq => Qe ← getitem par "Qe"; Pef ← getitem par "Pef";
                       Pei ← getitem par "Pei"; _cpe freq Qe Pef Pei) freq_array)
    as [z_cpee Hz_cpee].
  { intros f Hf. specialize (Hfreq f Hf). rewrite par_Qe, par_Pef, par_Pei.
    cbn [mbind result_bind].
    destruct (_parallel_cpe_Ok f Qe Pef Pei Re) as (zc & _ & Hzc & _); eauto. }
  rewrite Hz_cpee. cbn [mbind result_bind].
  (* zarce *)
  destruct (mapM_Ok (fun i => z ← index z_cpee i; Re ← getitem par "Re";
                       _parallel z (c_of_R Re)) (seq 0 (length freq_array)))
    as [zarce Hzarce].
  { intros i [_ Hi]%elem_of_seq. simpl in Hi.
    destruct (lookup_lt_is_Some_2 freq_array i Hi) as [f Hf].
    destruct (mapM_lookup _ _ _ _ _ Hz_cpee Hf) as (zc & Hzc & Hcpe).
    apply index_Ok in Hzc. rewrite Hzc, par_Re. cbn [mbind result_bind].
    rewrite par_Qe, par_Pef, par_Pei in Hcpe. cbn [mbind result_bind] in Hcpe.
    destruct (_parallel_cpe_Ok f Qe Pef Pei Re) as (zc' & zarc & Hzc' & Hzarc); try done.
    { apply Hfreq. by eapply list_elem_of_lookup_2. }
    rewrite Hcpe in Hzc'. injection Hzc' as <-. eauto. }
  rewrite Hzarce. cbn [mbind result_bind].
  (* the sum *)
  destruct (mapM_Ok (fun i => a ← index zinf i; b ← index zarch i; c ← index z_rock i;
                       d ← index zarce i; Ok (c_add (c_add (c_add a b) c) d))
              (seq 0 (length freq_array))) as [z Hz].
  { intros i [_ Hi]%elem_of_seq. simpl in Hi.
    apply mapM_length in Hzinf, Hzarch, Hzarce. rewrite length_seq in Hzarch, Hzarce.
    destruct (lookup_lt_is_Some_2 zinf i) as [a Ha]; [lia |].
    destruct (lookup_lt_is_Some_2 zarch i) as [b Hb]; [lia |].
    destruct (lookup_lt_is_Some_2 z_rock i) as [c Hc]; [lia |].
    destruct (lookup_lt_is_Some_2 zarce i) as [d Hd]; [lia |].
    apply index_Ok in Ha, Hb, Hc, Hd. rewrite Ha, Hb, Hc, Hd. eauto. }
  rewrite Hz. cbn [mbind result_bind]. eauto.
Qed.

End SeriesEvaluates.

Lemma secondary_parameters_zero_Rh par self Fh Ph :
  par !! "Rh" = Some 0 -> par !! "Fh" = Some Fh -> par !! "Ph" = Some Ph ->
  _calculate_secondary_parameters par self = (Raise ValueError, self).
Proof.
  intros HRh HFh HPh. unfold _calculate_secondary_parameters.
  apply getitem_Ok in HRh, HFh, HPh.
  erewrite M_bind_step by (unfold lift; rewrite HRh; reflexivity).
  erewrite M_bind_step by (unfold lift; rewrite HFh; reflexivity).
  erewrite M_bind_step by (unfold lift; rewrite HPh; reflexivity).
  apply M_bind_Raise. unfold lift, _q_from_f0. by rewrite decide_True.
Qed.

Lemma run_model_secondary_raise par freq_array self e self' :
  negative_rinf self = false ->
  _calculate_secondary_parameters par self = (Raise e, self') ->
  run_model par freq_array false self = (Raise e, self').
Proof.
  intros Hneg Hsec. unfold run_model.
  destruct (cls self); [unfold ModelCircuitSeries.run_model | unfold ModelCircuitParallel.run_model];
    (erewrite M_bind_step by (by apply copy_with_rinf_sign_clear));
    apply M_bind_Raise; exact Hsec.
Qed.

Lemma run_model_length parameters freq_array old_par_second self z z_rock self' :
  run_model parameters freq_array old_par_second self = (Ok (z, z_rock), self') ->
  length z = length freq_array.
Proof.
  unfold run_model.
  destruct (cls self);
    [unfold ModelCircuitSeries.run_model | unfold ModelCircuitParallel.run_model];
    intros H;
    apply M_bind_Ok in H as (par & s1 & _ & H);
    apply M_bind_Ok in H as (? & s2 & _ & H);
    apply M_bind_Ok in H as (rock & s3 & _ & H);
    apply reading_Ok in H as [H _].
  - apply bind_Ok in H as (zinf & _ & H).
    apply bind_Ok in H as (z_cpeh & _ & H).
    apply bind_Ok in H as (zarch & _ & H).
    apply bind_Ok in H as (z_cpee & _ & H).
    apply bind_Ok in H as (zarce & _ & H).
    apply bind_Ok in H as (zs & Hzs & [= <- _]).
    apply mapM_length in Hzs. by rewrite Hzs, length_seq.
  - apply bind_Ok in H as (z_line_h & _ & H).
    apply bind_Ok in H as (z_rock_line_h & _ & H).
    apply bind_Ok in H as (zinf & _ & H).
    apply bind_Ok in H as (z_cpee & _ & H).
    apply bind_Ok in H as (zarce & _ & H).
    apply bind_Ok in H as (zs & Hzs & [= <- _]).
    apply mapM_length in Hzs. by rewrite Hzs, length_seq.
Qed.

Lemma run_rock_length parameters freq_array old_par_second self z self' :
  run_rock parameters freq_array old_par_second self = (Ok z, self') ->
  length z = length freq_array.
Proof.
  unfold run_rock.
  destruct (cls self);
    [unfold ModelCircuitSeries.run_rock | unfold ModelCircuitParallel.run_rock];
    intros H;
    apply M_bind_Ok in H as (par & s1 & _ & H);
    apply M_bind_Ok in H as ([] & s2 & _ & H);
    apply reading_Ok in H as [H _];
    by apply mapM_length in H.
Qed.

Lemma cached_series_run_model (par : gmap string R) (Qe Re : R) (freq_array : list R) :
  par = parameters \/ par = <["Qe" := Qe]> (<["Re" := Re]> parameters) ->
  Qe <> 0 -> Re <> 0 ->
  Forall (fun f => 0 < f) freq_array ->
  exists z z_rock, run_model par freq_array true cached_series = (Ok (z, z_rock), cached_series).
Proof.
  intros Hpar HQe HRe Hfreq.
  unfold run_model. cbn [cls cached_series ModelCircuitSeries].
  destruct Hpar as [-> | ->].
  - pose proof (series_run_model_cached_Ok parameters 10 20 30 40 100 10 1 0.8 0.6 0.4) as H1.
    do 10 (specialize (H1 eq_refl)).
    repeat (let P := match type of H1 with ?P -> _ => P end in
            assert P as HP by lra; specialize (H1 HP); clear HP).
    specialize (H1 0.001 0.9 0.7 0.5 50).
    do 5 (specialize (H1 eq_refl)).
    repeat (let P := match type of H1 with ?P -> _ => P end in
            assert P as HP by lra; specialize (H1 HP); clear HP).
    apply (H1 cached_series freq_array 1e-4 1e-3 1e-2); try reflexivity; try lra; exact Hfreq.
  - pose proof (series_run_model_cached_Ok (<["Qe" := Qe]> (<["Re" := Re]> parameters))
                  10 20 30 40 100 10 1 0.8 0.6 0.4) as H1.
    do 10 (specialize (H1 eq_refl)).
    repeat (let P := match type of H1 with ?P -> _ => P end in
            assert P as HP by lra; specialize (H1 HP); clear HP).
    specialize (H1 0.001 Qe 0.7 0.5 Re).
    do 5 (specialize (H1 eq_refl)).
    specialize (H1 ltac:(lra) HQe HRe ltac:(lra) ltac:(lra)).
    apply (H1 cached_series freq_array 1e-4 1e-3 1e-2); try reflexivity; try lra; exact Hfreq.
Qed.

End ModelCircuitsProperties.

(** ** The fit engine *)

Section FitBuilderProperties.
Import ModelCircuits FitBuilder Examples.

(** *** Scaling *)
Lemma _descale_loop_spec (params : gmap string R) (keys : list string) :
  forall (pre scaled : list R) (acc : gmap string R),
    _scale_params keys params = Ok scaled ->
    exists d,
      _descale_loop (length pre) keys (pre ++ scaled) acc = Ok d
      /\ forall k, d !! k = if decide (k ∈ keys) then params !! k else acc !! k.
Proof.
  unfold _scale_params.
  induction keys as [| key keys IH]; intros pre scaled acc;
    [cbn [mapM _descale_loop] | rewrite mapM_cons; cbn [_descale_loop]].
  - intros [= <-]. exists acc. split; [done |]. intros k.
    rewrite decide_False; [done | apply not_elem_of_nil].
  - intros (y & Hy & (ys & Hys & [= <-])%bind_Ok)%bind_Ok.
    apply bind_Ok in Hy as (value & Hvalue%getitem_Ok & Hy).
    assert (Hidx : index (pre ++ y :: ys) (length pre) = Ok y).
    { apply index_Ok. by rewrite lookup_app_r, Nat.sub_diag by lia. }
    rewrite Hidx. simpl.
    destruct (IH (pre ++ [y])%list ys
                (<[key := if String.prefix "P" key then y / 10 else float_pow 10 y]> acc) Hys)
      as (d & Hd & Hlook).
    rewrite length_app, Nat.add_1_r, <- app_assoc in Hd. simpl in Hd.
    exists d. split; [done |]. intros k. rewrite Hlook.
    assert (Hkey : (if String.prefix "P" key then y / 10 else float_pow 10 y) = value).
    { destruct (String.prefix "P" key).
      - injection Hy as <-. simpl. lra.
      - simpl in Hy. case_bool_decide as Hpos; [done |]. injection Hy as <-.
        apply pow10_log10. lra. }
    rewrite Hkey.
    destruct (decide (k ∈ keys)) as [Hin | Hnin].
    + rewrite decide_True by (by constructor). done.
    + destruct (decide (k = key)) as [-> | Hne].
      * rewrite decide_True by constructor. by rewrite lookup_insert_eq.
      * rewrite decide_False by (intros [-> |]%elem_of_cons; done).
        by rewrite lookup_insert_ne.
Qed.

Lemma _scale_params_Ok {A} `{PyFloat A} (keys : list string) (params : gmap string A) :
  (forall k, k ∈ keys ->
     exists v, params !! k = Some v /\ (String.prefix "P" k = false -> nonpos v = false)) ->
  exists x, _scale_params keys params = Ok x.
Proof.
  intros Hk. apply mapM_Ok. intros k Hin.
  destruct (Hk k Hin) as (v & Hv & Hpos).
  apply getitem_Ok in Hv. rewrite Hv. simpl.
  destruct (String.prefix "P" k); [eauto |].
  rewrite Hpos by done. eauto.
Qed.

(** C9.  For a list of keys and a parameter dictionary that holds a value
    for each of them, strictly positive when the key does not start with
    "P", [_scale_params] succeeds, [_descale_params] succeeds on its output,
    and the dictionary it returns holds exactly the listed keys, each with
    its original value. *)
Theorem scale_descale_roundtrip (keys : list string) (params : gmap string R) :
  (forall k, k ∈ keys ->
     exists v, params !! k = Some v /\ (String.prefix "P" k = false -> 0 < v)) ->
  exists x d,
    _scale_params keys params = Ok x
    /\ _descale_params keys x = Ok d
    /\ (forall k, k ∈ keys -> d !! k = params !! k)
    /\ (forall k, k ∉ keys -> d !! k = None).
Proof.
  intros H. destruct (_scale_params_Ok keys params) as [x Hx].
  { intros k Hk. destruct (H k Hk) as (v & Hv & Hpos). exists v. split; [done |].
    intros Hp. apply bool_decide_eq_false_2. specialize (Hpos Hp). lra. }
  destruct (_descale_loop_spec params keys [] x ∅ Hx) as (d & Hd & Hlook).
  exists x, d. repeat split; [done | done | |].
  - intros k Hk. rewrite Hlook. by rewrite decide_True.
  - intros k Hk. rewrite Hlook. by rewrite decide_False.
Qed.

Lemma scale_descale_roundtrip_witness :
  exists x d,
    _scale_params ["Ph"; "Rh"] (<["Ph" := 0.8]> (<["Rh" := 20]> ∅)) = Ok x
    /\ _descale_params ["Ph"; "Rh"] x = Ok d
    /\ (forall k, k ∈ ["Ph"; "Rh"] -> d !! k = (<["Ph" := 0.8]> (<["Rh" := 20]> (∅ : gmap string R))) !! k)
    /\ (forall k, k ∉ ["Ph"; "Rh"] -> d !! k = None).
Proof.
  apply (scale_descale_roundtrip ["Ph"; "Rh"] (<["Ph" := 0.8]> (<["Rh" := 20]> ∅))).
  intros k Hk.
  apply elem_of_cons in Hk as [-> | Hk]; [| apply elem_of_cons in Hk as [-> | Hk]].
  - exists 0.8. split; [reflexivity | simpl; discriminate].
  - exists 20. split; [reflexivity | intros _; lra].
  - by apply elem_of_nil in Hk.
Defined.

(** *** What [fit_model] returns *)
Lemma fit_model_inv ls res initial w self best self' :
  fit_model ls res initial w self = (Ok best, self') ->
  let self1 := (set_previous_fit_params initial self).2 in
  let fk := free_keys self initial in
  let locked := locked_params self initial in
  exists x0 lb ub result_x best_fit_free,
    _scale_params fk initial = Ok x0
    /\ _build_bounds self1 fk = Ok (lb, ub)
    /\ ls (_residual_wrapper self1 (res self1) fk locked x0 lb ub w) x0 (lb, ub) = Ok result_x
    /\ _descale_params fk result_x = Ok best_fit_free
    /\ best = wrap_Pei (best_fit_free ∪ locked)
    /\ self' = (emit best self1).2.
Proof.
  intros H self1 fk locked. unfold fit_model in H.
  apply M_bind_Ok in H as (? & s1 & [= _ <-] & H).
  fold self1 in H.
  apply M_bind_Ok in H as (? & s2 & [= <- <-] & H).
  apply M_bind_Ok in H as (x0 & s3 & [Hx0 ->]%lift_Ok & H).
  apply M_bind_Ok in H as ([lb ub] & s4 & [Hb ->]%lift_Ok & H).
  apply M_bind_Ok in H as (result_x & s5 & [Hls ->]%lift_Ok & H).
  apply M_bind_Ok in H as (bff & s6 & [Hd ->]%lift_Ok & H).
  apply M_bind_Ok in H as (? & s7 & [= _ <-] & [= <- <-]).
  exists x0, lb, ub, result_x, bff. done.
Qed.

Lemma fit_model_Ok ls res initial w self x0 lb ub result_x best_fit_free :
  let self1 := (set_previous_fit_params initial self).2 in
  let fk := free_keys self initial in
  let locked := locked_params self initial in
  _scale_params fk initial = Ok x0 ->
  _build_bounds self1 fk = Ok (lb, ub) ->
  ls (_residual_wrapper self1 (res self1) fk locked x0 lb ub w) x0 (lb, ub) = Ok result_x ->
  _descale_params fk result_x = Ok best_fit_free ->
  fit_model ls res initial w self
  = (Ok (wrap_Pei (best_fit_free ∪ locked)),
     (emit (wrap_Pei (best_fit_free ∪ locked)) self1).2).
Proof.
  intros self1 fk locked Hx0 Hb Hls Hd. unfold fit_model.
  apply M_bind_Ok. exists tt, self1. split; [reflexivity |].
  apply M_bind_Ok. exists self1, self1. split; [reflexivity |].
  apply M_bind_Ok. exists x0, self1. split; [by apply lift_Ok |].
  apply M_bind_Ok. exists (lb, ub), self1. split; [by apply lift_Ok |].
  apply M_bind_Ok. exists result_x, self1. split; [by apply lift_Ok |].
  apply M_bind_Ok. exists best_fit_free, self1. split; [by apply lift_Ok |].
  apply M_bind_Ok. eexists tt, _. split; reflexivity.
Qed.

Lemma _descale_loop_dom (keys : list string) :
  forall (i : nat) (x : list R) (acc d : gmap string R),
    _descale_loop i keys x acc = Ok d ->
    forall k, k ∉ keys -> d !! k = acc !! k.
Proof.
  induction keys as [| key keys IH]; intros i x acc d; cbn [_descale_loop].
  - intros [= <-]. done.
  - intros (xi & _ & Hd)%bind_Ok k Hk.
    apply not_elem_of_cons in Hk as [Hne Hk].
    rewrite (IH _ _ _ _ Hd k Hk). by rewrite lookup_insert_ne.
Qed.

Lemma _descale_params_dom (keys : list string) (x : list R) (d : gmap string R) (k : string) :
  _descale_params keys x = Ok d -> k ∉ keys -> d !! k = None.
Proof.
  intros Hd Hk. by rewrite (_descale_loop_dom _ _ _ _ _ Hd k Hk).
Qed.

Lemma _descale_loop_Ok (keys : list string) :
  forall (i : nat) (x : list R) (acc : gmap string R),
    (i + length keys <= length x)%nat -> exists d, _descale_loop i keys x acc = Ok d.
Proof.
  induction keys as [| key keys IH]; intros i x acc Hlen; cbn [_descale_loop].
  - eauto.
  - simpl in Hlen. destruct (lookup_lt_is_Some_2 x i) as [xi Hxi]; [lia |].
    apply index_Ok in Hxi. rewrite Hxi. simpl. apply IH. lia.
Qed.

Lemma elem_of_free_keys self initial k :
  k ∈ free_keys self initial <-> is_Some (initial !! k) /\ k ∉ disabled_variables self.
Proof.
  unfold free_keys. rewrite list_elem_of_filter, list_elem_of_fmap. split.
  - intros [Hn ([k' v] & -> & Hin%elem_of_map_to_list)]. eauto.
  - intros [[v Hv] Hn]. split; [done |]. exists (k, v). split; [done |].
    by apply elem_of_map_to_list.
Qed.

Lemma free_keys_not_disabled self initial k :
  k ∈ disabled_variables self -> k ∉ free_keys self initial.
Proof.
  intros Hk Hin. unfold free_keys in Hin.
  apply list_elem_of_filter in Hin as [Hn _]. done.
Qed.

Lemma locked_params_lookup self initial k v :
  k ∈ disabled_variables self -> initial !! k = Some v ->
  locked_params self initial !! k = Some v.
Proof.
  intros Hk Hv. unfold locked_params. by apply map_lookup_filter_Some_2.
Qed.

Lemma merged_locked_lookup self initial x d k v :
  _descale_params (free_keys self initial) x = Ok d ->
  k ∈ disabled_variables self -> initial !! k = Some v ->
  (d ∪ locked_params self initial) !! k = Some v.
Proof.
  intros Hd Hk Hv.
  rewrite lookup_union_r.
  - by apply locked_params_lookup.
  - eapply _descale_params_dom; [done |]. by apply free_keys_not_disabled.
Qed.

Lemma wrap_Pei_lookup_ne (d : gmap string R) (k : string) :
  k <> "Pei" -> wrap_Pei d !! k = d !! k.
Proof.
  intros Hk. unfold wrap_Pei. destruct (d !! "Pei"); [| done].
  by rewrite lookup_insert_ne.
Qed.

Lemma wrap_Pei_lookup_Pei (d : gmap string R) :
  wrap_Pei d !! "Pei" = (fun x => float_mod (x + 1) 4 - 1) <$> d !! "Pei".
Proof.
  unfold wrap_Pei. destruct (d !! "Pei") as [x |] eqn:E; simpl.
  - by rewrite lookup_insert_eq.
  - done.
Qed.

(** The fit returns whenever the free parameters and their bounds can be
    scaled and the optimizer returns a vector as long as its start point. *)
Lemma fit_model_returns ls res initial w self :
  (forall k v, initial !! k = Some v -> k ∉ disabled_variables self ->
     String.prefix "P" k = false -> 0 < v) ->
  (forall k, is_Some (initial !! k) -> k ∉ disabled_variables self ->
     exists lo hi, lower_bounds self !! k = Some lo /\ upper_bounds self !! k = Some hi
       /\ (String.prefix "P" k = false -> nonpos lo = false /\ nonpos hi = false)) ->
  (forall f x0 b, exists x, ls f x0 b = Ok x /\ length x = length x0) ->
  exists best_fit_free self',
    fit_model ls res initial w self
    = (Ok (wrap_Pei (best_fit_free ∪ locked_params self initial)), self').
Proof.
  intros Hpos Hbounds Hls.
  destruct (_scale_params_Ok (free_keys self initial) initial) as [x0 Hx0].
  { intros k [[v Hv] Hn]%elem_of_free_keys. exists v. split; [done |].
    intros Hp. apply bool_decide_eq_false_2. specialize (Hpos k v Hv Hn Hp). lra. }
  destruct (_scale_params_Ok (free_keys self initial) (lower_bounds self)) as [lb Hlb].
  { intros k [Hv Hn]%elem_of_free_keys.
    destruct (Hbounds k Hv Hn) as (lo & hi & Hlo & Hhi & Hp). exists lo. split; [done |].
    intros Hpre. by apply Hp. }
  destruct (_scale_params_Ok (free_keys self initial) (upper_bounds self)) as [ub Hub].
  { intros k [Hv Hn]%elem_of_free_keys.
    destruct (Hbounds k Hv Hn) as (lo & hi & Hlo & Hhi & Hp). exists hi. split; [done |].
    intros Hpre. by apply Hp. }
  set (self1 := (set_previous_fit_params initial self).2).
  destruct (Hls (_residual_wrapper self1 (res self1) (free_keys self initial)
                   (locked_params self initial) x0 lb ub w) x0 (lb, ub))
    as (result_x & Hres & Hlen).
  destruct (_descale_loop_Ok (free_keys self initial) 0 result_x ∅) as [d Hd].
  { rewrite Hlen. apply mapM_length in Hx0. simpl. lia. }
  exists d. eexists. eapply fit_model_Ok; [done | | done | done].
  unfold _build_bounds. cbn [lower_bounds upper_bounds self1 set_previous_fit_params snd].
  rewrite Hlb. simpl. rewrite Hub. done.
Qed.

Lemma parameters_positive (k : string) (v : R) :
  parameters !! k = Some v -> String.prefix "P" k = false -> 0 < v.
Proof.
  unfold parameters. intros H.
  repeat (apply lookup_insert_Some in H as [[<- <-] | [_ H]];
          [intros Hp; first [lra | discriminate Hp] |]).
  by rewrite lookup_empty in H.
Qed.

Lemma fit_locked_Pei_returns (v : R) :
  exists best_fit_free self',
    fit_model_cole start_point (<["Pei" := v]> parameters) 1e6 (builder {["Pei"]} false)
    = (Ok (wrap_Pei (best_fit_free
                     ∪ locked_params (builder {["Pei"]} false) (<["Pei" := v]> parameters))),
       self').
Proof.
  apply fit_model_returns.
  - intros k x Hk Hn. cbn [builder disabled_variables] in Hn.
    rewrite lookup_insert_ne in Hk by set_solver. by apply parameters_positive.
  - intros k [x Hk] Hn. cbn [builder disabled_variables lower_bounds upper_bounds] in *.
    assert (Hne : "Pei" <> k) by set_solver.
    rewrite lookup_insert_ne in Hk by done.
    exists (Fin (x / 10)), (Fin (x * 10)).
    rewrite !lookup_insert_ne, !lookup_fmap, Hk by done.
    repeat split; try done.
    + apply bool_decide_eq_false_2. pose proof (parameters_positive k x Hk H). lra.
    + apply bool_decide_eq_false_2. pose proof (parameters_positive k x Hk H). lra.
  - intros f x0 b. exists x0. done.
Qed.

Lemma wrap_5 : float_mod (5 + 1) 4 - 1 = 1.
Proof. unfold float_mod. rewrite (Zfloor_eq 1); [simpl; lra |]. simpl. lra. Qed.

Lemma fit_locked_Pei_5 :
  exists best self',
    fit_model_cole start_point (<["Pei" := 5]> parameters) 1e6 (builder {["Pei"]} false)
    = (Ok best, self')
    /\ best !! "Pei" = Some 1.
Proof.
  destruct (fit_locked_Pei_returns 5) as (bff & self' & Hfit).
  pose proof (fit_model_inv _ _ _ _ _ _ _ Hfit)
    as (x0 & lb & ub & rx & bff' & _ & _ & _ & Hd & Hbest & _).
  eexists _, _. split; [exact Hfit |].
  assert (Hin : "Pei" ∈ disabled_variables (builder {["Pei"]} false)) by set_solver.
  assert (Hlook : (<["Pei" := 5]> parameters) !! "Pei" = Some 5) by (by rewrite lookup_insert_eq).
  rewrite Hbest, wrap_Pei_lookup_Pei.
  rewrite (merged_locked_lookup _ _ _ _ _ _ Hd Hin Hlook). simpl. by rewrite wrap_5.
Qed.

(** C1 as stated fails: Pei is disabled and supplied as 5, and the fit
    returns it as 1. *)
Lemma locked_Pei_is_wrapped :
  exists best self',
    fit_model_cole start_point (<["Pei" := 5]> parameters) 1e6 (builder {["Pei"]} false)
    = (Ok best, self')
    /\ "Pei" ∈ disabled_variables (builder {["Pei"]} false)
    /\ (<["Pei" := 5]> parameters) !! "Pei" = Some 5
    /\ best !! "Pei" = Some 1
    /\ best !! "Pei" <> Some 5.
Proof.
  destruct fit_locked_Pei_5 as (best & self' & Hfit & H1).
  exists best, self'. split; [exact Hfit |].
  split; [cbn [builder disabled_variables]; set_solver |].
  split; [apply lookup_insert_eq |]. split; [exact H1 |].
  rewrite H1. intros [= H]. lra.
Qed.

(** C1, amended.  Every key of the disabled set that the initial parameter
    set holds, other than Pei, is returned by the fit with exactly its
    initial value.  A disabled Pei is returned as ((v + 1) mod 4) - 1 of its
    initial value v, which in exact real arithmetic is v itself exactly
    when -1 <= v < 3.  This holds for [fit_model] at every residual
    function, hence for [fit_model_cole] and [fit_model_bode]. *)
Theorem locked_parameters_echoed ls res initial w self best self' k v :
  fit_model ls res initial w self = (Ok best, self') ->
  k ∈ disabled_variables self ->
  initial !! k = Some v ->
  (k <> "Pei" -> best !! k = Some v)
  /\ (k = "Pei" -> best !! k = Some (float_mod (v + 1) 4 - 1)
                   /\ (best !! k = Some v <-> -1 <= v < 3)).
Proof.
  intros Hfit Hk Hv.
  apply fit_model_inv in Hfit as (x0 & lb & ub & rx & bff & _ & _ & _ & Hd & -> & _).
  pose proof (merged_locked_lookup _ _ _ _ _ _ Hd Hk Hv) as Hm.
  split.
  - intros Hne. by rewrite wrap_Pei_lookup_ne.
  - intros ->. rewrite wrap_Pei_lookup_Pei, Hm. simpl. split; [done |].
    rewrite <- wrap_fixed_iff. split; [by intros [= ->] | by intros ->].
Qed.

Lemma locked_parameters_echoed_witness :
  exists best self',
    fit_model_cole start_point (<["Pei" := 5]> parameters) 1e6 (builder {["Pei"]} false)
    = (Ok best, self')
    /\ (("Pei" <> "Pei" -> best !! "Pei" = Some 5)
        /\ ("Pei" = "Pei" -> best !! "Pei" = Some (float_mod (5 + 1) 4 - 1)
                             /\ (best !! "Pei" = Some 5 <-> -1 <= 5 < 3))).
Proof.
  destruct (fit_locked_Pei_returns 5) as (bff & self' & Hfit).
  eexists _, _. split; [exact Hfit |].
  apply (locked_parameters_echoed start_point _residual_cole (<["Pei" := 5]> parameters)
           1e6 (builder {["Pei"]} false) _ self' "Pei" 5 Hfit).
  - cbn [builder disabled_variables]. set_solver.
  - apply lookup_insert_eq.
Defined.

Section WrapOnDoubles.
Import Floats.

(** C3 as stated fails on doubles: the half-open interval loses its upper
    end to rounding.  For x = -1.0000000000000002 = -(1 + 2^-52) the sum
    x + 1 is -2^-52, its remainder modulo 4 is 4 - 2^-52 rounded to 4.0,
    and the wrapped Pei is 3.0, which is not below 3.  A free Pei takes
    this value when the optimizer returns -10.000000000000002, which
    [_descale_params] divides by 10. *)
Lemma returned_Pei_reaches_three :
  exists best,
    Binary64.wrap_Pei {["Pei" := (-0x1.0000000000001p+0)%float]} = Ok best
    /\ best !! "Pei" = Some 3%float
    /\ (3 <? 3)%float = false
    /\ (-0x1.4000000000001p+3 / 10)%float = (-0x1.0000000000001p+0)%float.
Proof.
  eexists. split; [| split; [| split; [| vm_compute; reflexivity]]].
  - unfold Binary64.wrap_Pei. rewrite lookup_singleton_eq.
    replace (Binary64.float_rem (-0x1.0000000000001p+0 + 1) 4) with (Ok 4%float)
      by (vm_compute; reflexivity).
    reflexivity.
  - rewrite lookup_insert_eq. vm_compute. reflexivity.
  - vm_compute. reflexivity.
Qed.

End WrapOnDoubles.

(** C3, amended.  When the dictionary returned by a fit holds Pei, its value
    is ((x + 1) mod 4) - 1, where x is the value of Pei after the
    optimizer's result has been descaled and merged with the locked
    parameters; in exact real arithmetic the returned value lies in
    [-1, 3), as does the wrap of every real. *)
Theorem returned_Pei_is_wrapped ls res initial w self best self' v :
  fit_model ls res initial w self = (Ok best, self') ->
  best !! "Pei" = Some v ->
  (exists x0 lb ub result_x best_fit_free x,
     let self1 := (set_previous_fit_params initial self).2 in
     let fk := free_keys self initial in
     let locked := locked_params self initial in
     ls (_residual_wrapper self1 (res self1) fk locked x0 lb ub w) x0 (lb, ub) = Ok result_x
     /\ _descale_params fk result_x = Ok best_fit_free
     /\ (best_fit_free ∪ locked) !! "Pei" = Some x
     /\ v = float_mod (x + 1) 4 - 1)
  /\ -1 <= v < 3
  /\ (forall x : R, -1 <= float_mod (x + 1) 4 - 1 < 3).
Proof.
  intros Hfit Hv.
  apply fit_model_inv in Hfit as (x0 & lb & ub & rx & bff & _ & _ & Hls & Hd & -> & _).
  rewrite wrap_Pei_lookup_Pei in Hv.
  destruct ((bff ∪ locked_params self initial) !! "Pei") as [x |] eqn:Hx; [| done].
  injection Hv as <-.
  split; [| split; [apply wrap_range | apply wrap_range]].
  exists x0, lb, ub, rx, bff, x. done.
Qed.

Lemma returned_Pei_is_wrapped_witness :
  exists best self' v,
    fit_model_cole start_point (<["Pei" := 5]> parameters) 1e6 (builder {["Pei"]} false)
    = (Ok best, self')
    /\ best !! "Pei" = Some v
    /\ -1 <= v < 3.
Proof.
  destruct fit_locked_Pei_5 as (best & self' & Hfit & Hv).
  exists best, self', 1. split; [exact Hfit |]. split; [exact Hv |].
  exact (proj1 (proj2 (returned_Pei_is_wrapped start_point _residual_cole
                         (<["Pei" := 5]> parameters) 1e6 (builder {["Pei"]} false)
                         best self' 1 Hfit Hv))).
Defined.

(** *** The objective handed to the optimizer *)

(** C2.  When the residual function raises a ValueError at the parameters
    of a trial point, the objective returns the vector of 10000 entries
    1e6 instead of raising. *)
Theorem residual_wrapper_absorbs_ValueError self residual_func free_keys locked_params
    x0 lb ub prior_weight x_free free_params :
  _descale_params free_keys x_free = Ok free_params ->
  residual_func (free_params ∪ locked_params) = Raise ValueError ->
  _residual_wrapper self residual_func free_keys locked_params x0 lb ub prior_weight x_free
  = Ok (map (fun o => o * 1e6) (repeat 1 (Z.to_nat 10000)))
  /\ length (map (fun o => o * 1e6) (repeat 1 (Z.to_nat 10000))) = Z.to_nat 10000
  /\ Forall (fun v => v = 1e6) (map (fun o => o * 1e6) (repeat 1 (Z.to_nat 10000))).
Proof.
  intros Hd Hres. split; [| split].
  - unfold _residual_wrapper. rewrite Hd. cbn [mbind result_bind]. rewrite Hres. reflexivity.
  - by rewrite length_map, repeat_length.
  - apply Forall_map, Forall_forall. intros o Ho%list_elem_of_In%repeat_spec. subst o. lra.
Qed.

(** The residual functions run the model with [old_par_second] false:
    what they return does not depend on the caches of the circuit
    object, so it does not matter which earlier evaluation the object
    comes from. *)
Lemma _residual_fresh self1 self2 params :
  _experiment_data self1 = _experiment_data self2 ->
  base_weight self1 = base_weight self2 ->
  exp_weight self1 = exp_weight self2 ->
  cls (_model_circuit self1) = cls (_model_circuit self2) ->
  negative_rinf (_model_circuit self1) = negative_rinf (_model_circuit self2) ->
  _residual_cole self1 params = _residual_cole self2 params
  /\ _residual_bode self1 params = _residual_bode self2 params.
Proof.
  intros He Hb Hw Hc Hn.
  unfold _residual_cole, _residual_bode, _weight_function. rewrite He, Hb, Hw.
  destruct (getitem (_experiment_data self2) "freq") as [freq_array | e]; [| done].
  cbn [mbind result_bind].
  by rewrite (run_model_fresh params freq_array _ _ Hc Hn).
Qed.

(** A ValueError of a primitive reaches the residual functions as one. *)
Lemma _residual_cole_raise self params freq_array e :
  _experiment_data self !! "freq" = Some freq_array ->
  (run_model params freq_array false (_model_circuit self)).1 = Raise e ->
  _residual_cole self params = Raise e.
Proof.
  intros Hf%getitem_Ok Hrun. unfold _residual_cole. rewrite Hf. simpl.
  unfold fst in *. by rewrite Hrun.
Qed.

Lemma _residual_bode_raise self params freq_array e :
  _experiment_data self !! "freq" = Some freq_array ->
  (run_model params freq_array false (_model_circuit self)).1 = Raise e ->
  _residual_bode self params = Raise e.
Proof.
  intros Hf%getitem_Ok Hrun. unfold _residual_bode. rewrite Hf. simpl.
  unfold fst in *. by rewrite Hrun.
Qed.

Lemma residual_wrapper_absorbs_ValueError_witness :
  let self := builder {["Rh"]} false in
  let locked := <["Rh" := 0]> (<["Ph" := 0.8]> ∅) in
  _residual_wrapper self (_residual_cole self) ["Fh"] locked [2] [Fin 1] [Fin 3] 1e6 [2]
  = Ok (map (fun o => o * 1e6) (repeat 1 (Z.to_nat 10000))).
Proof.
  intros self locked.
  refine (proj1 (residual_wrapper_absorbs_ValueError self (_residual_cole self) ["Fh"]
                   locked [2] [Fin 1] [Fin 3] 1e6 [2]
                   (<["Fh" := float_pow 10 2]> ∅) _ _)).
  - reflexivity.
  - apply (_residual_cole_raise self _ [1; 10; 100]); [reflexivity |].
    erewrite run_model_secondary_raise; [reflexivity | reflexivity |].
    apply (secondary_parameters_zero_Rh _ _ (float_pow 10 2) 0.8); reflexivity.
Defined.

Lemma _compute_invalid_guess_penalty_Ok params prior_weight Fh Fm Fl :
  params !! "Fh" = Some Fh -> params !! "Fm" = Some Fm -> params !! "Fl" = Some Fl ->
  _compute_invalid_guess_penalty params prior_weight
  = Ok [Rmax 0 (Fm - Fh) * 1e4 * prior_weight; Rmax 0 (Fl - Fm) * 1e4 * prior_weight].
Proof.
  intros HFh%getitem_Ok HFm%getitem_Ok HFl%getitem_Ok.
  unfold _compute_invalid_guess_penalty, _invalid_guess.
  rewrite HFm. simpl. rewrite HFh. simpl. rewrite HFl. reflexivity.
Qed.

Lemma penalty_zero_iff (Fh Fm Fl w : R) :
  w <> 0 ->
  [Rmax 0 (Fm - Fh) * 1e4 * w; Rmax 0 (Fl - Fm) * 1e4 * w] = [0; 0]
  <-> Fh >= Fm /\ Fm >= Fl.
Proof.
  intros Hw. split.
  - intros [= H1 H2].
    assert (Rmax 0 (Fm - Fh) = 0) as H1' by nra.
    assert (Rmax 0 (Fl - Fm) = 0) as H2' by nra.
    pose proof (Rmax_r 0 (Fm - Fh)). pose proof (Rmax_r 0 (Fl - Fm)). lra.
  - intros [H1 H2]. rewrite !Rmax_left by lra. f_equal; [lra | f_equal; lra].
Qed.

(** C7 as stated fails: with prior weight 0, the default of [fit_model], the
    penalty is the zero vector although Fm exceeds Fh. *)
Lemma zero_weight_penalty_vanishes :
  _compute_invalid_guess_penalty (<["Fh" := 1]> (<["Fm" := 2]> (<["Fl" := 1]> ∅))) 0
  = Ok [0; 0]
  /\ ~ (1 >= 2 /\ 2 >= 1).
Proof.
  split; [| lra].
  rewrite (_compute_invalid_guess_penalty_Ok _ 0 1 2 1) by reflexivity.
  do 2 f_equal; [lra | f_equal; lra].
Qed.

(** C7, amended.  The penalty is [max(0, Fm - Fh); max(0, Fl - Fm)] times
    1e4 times the prior weight.  For a weight other than zero it is the
    zero vector exactly when Fh >= Fm >= Fl; for weight zero it is the
    zero vector always.  At a trial point where the residual function
    returns, the objective returns, with the Gaussian prior enabled, the
    model residual, then the prior, then this penalty, and with the prior
    disabled the model residual alone.  At a trial point where the
    residual function raises a ValueError the objective returns the
    vector of 10000 entries 1e6, with nothing appended, prior or not. *)
Theorem invalid_region_penalty self residual_func free_keys locked_params
    x0 lb ub prior_weight x_free free_params Fh Fm Fl :
  _descale_params free_keys x_free = Ok free_params ->
  (free_params ∪ locked_params) !! "Fh" = Some Fh ->
  (free_params ∪ locked_params) !! "Fm" = Some Fm ->
  (free_params ∪ locked_params) !! "Fl" = Some Fl ->
  let invalid_penalty :=
    [Rmax 0 (Fm - Fh) * 1e4 * prior_weight; Rmax 0 (Fl - Fm) * 1e4 * prior_weight] in
  _compute_invalid_guess_penalty (free_params ∪ locked_params) prior_weight
  = Ok invalid_penalty
  /\ (prior_weight <> 0 -> (invalid_penalty = [0; 0] <-> Fh >= Fm /\ Fm >= Fl))
  /\ (prior_weight = 0 -> invalid_penalty = [0; 0])
  /\ (forall model_residual,
        residual_func (free_params ∪ locked_params) = Ok model_residual ->
        (gaussian_prior self = true ->
         forall prior_res,
           _compute_gaussian_prior x_free x0 lb ub prior_weight 5 = Ok prior_res ->
           _residual_wrapper self residual_func free_keys locked_params x0 lb ub
             prior_weight x_free
           = Ok (model_residual ++ prior_res ++ invalid_penalty)%list)
        /\ (gaussian_prior self = false ->
            _residual_wrapper self residual_func free_keys locked_params x0 lb ub
              prior_weight x_free
            = Ok model_residual))
  /\ (residual_func (free_params ∪ locked_params) = Raise ValueError ->
      _residual_wrapper self residual_func free_keys locked_params x0 lb ub
        prior_weight x_free
      = Ok (map (fun o => o * 1e6) (repeat 1 (Z.to_nat 10000)))).
Proof.
  intros Hd HFh HFm HFl pen.
  pose proof (_compute_invalid_guess_penalty_Ok _ prior_weight _ _ _ HFh HFm HFl) as Hpen.
  split; [exact Hpen |]. split; [apply penalty_zero_iff |]. split.
  { intros ->. subst pen. f_equal; [lra | f_equal; lra]. }
  split.
  - intros model_residual Hres. split.
    + intros Hg prior_res Hprior. unfold _residual_wrapper.
      rewrite Hd. cbn [mbind result_bind]. rewrite Hres, Hg, Hprior.
      cbn [mbind result_bind]. rewrite Hpen. reflexivity.
    + intros Hg. unfold _residual_wrapper. rewrite Hd. cbn [mbind result_bind].
      rewrite Hres, Hg. reflexivity.
  - intros Hres. unfold _residual_wrapper. rewrite Hd. cbn [mbind result_bind].
    rewrite Hres. reflexivity.
Qed.

Lemma invalid_region_penalty_witness :
  let self := builder ∅ true in
  let locked := <["Fh" := 100]> (<["Fl" := 1]> ∅) in
  let full := <["Fm" := float_pow 10 1]> ∅ ∪ locked in
  let invalid_penalty :=
    [Rmax 0 (float_pow 10 1 - 100) * 1e4 * 400; Rmax 0 (1 - float_pow 10 1) * 1e4 * 400] in
  _compute_invalid_guess_penalty full 400 = Ok invalid_penalty
  /\ _residual_wrapper self (fun _ => Ok [0.5; -0.5]) ["Fm"] locked [1] [Fin 0] [Fin 2]
       400 [1]
     = Ok ([0.5; -0.5] ++ [400 * ((1 - 1) / ((2 - 0) * 5))] ++ invalid_penalty)%list.
Proof.
  intros self locked full invalid_penalty.
  pose proof (invalid_region_penalty self (fun _ => Ok [0.5; -0.5]) ["Fm"] locked
                [1] [Fin 0] [Fin 2] 400 [1] (<["Fm" := float_pow 10 1]> ∅)
                100 (float_pow 10 1) 1 eq_refl eq_refl eq_refl eq_refl)
    as (Hpen & _ & _ & Hret & _).
  split; [exact Hpen |].
  refine (proj1 (Hret [0.5; -0.5] eq_refl) eq_refl _ _).
  unfold _compute_gaussian_prior, np_sub.
  do 3 (rewrite ?broadcast2_same_length by reflexivity;
        cbn [mbind result_bind zip zip_with mapM xsub map xscale xdiv]).
  rewrite float_div_Ok by lra. reflexivity.
Defined.

End FitBuilderProperties.

(** ** The time-domain transform *)

Section TimeDomainBuilderProperties.
Import ModelCircuits TimeDomainBuilder Examples.

(** *** The pulse responses *)
Lemma cumsum_from_length (a : list R) : forall acc, length (cumsum_from acc a) = length a.
Proof. induction a as [| x a IH]; intros acc; simpl; [done | by rewrite IH]. Qed.

Lemma cumsum_from_lookup (a : list R) :
  forall (acc : R) (k : nat),
    (k < length a)%nat ->
    exists s, cumsum_from acc a !! k = Some s /\ s = acc + Rsum (take (S k) a).
Proof.
  induction a as [| x a IH]; intros acc k Hk; simpl in Hk; [lia |].
  destruct k as [| k].
  - exists (acc + x). split; [done |]. simpl. destruct a; simpl; lra.
  - destruct (IH (acc + x) k) as (s & Hs & ->); [lia |].
    exists (acc + x + Rsum (take (S k) a)). split; [exact Hs |].
    change (take (S (S k)) (x :: a)) with (x :: take (S k) a).
    unfold Rsum at 2. cbn [foldr]. fold (Rsum (take (S k) a)). lra.
Qed.

Lemma removelast_lookup {A} (l : list A) (k : nat) :
  (S k < length l)%nat -> removelast l !! k = l !! k.
Proof.
  intros Hk. rewrite removelast_firstn_len. apply lookup_take_lt. lia.
Qed.

Lemma removelast_length {A} (l : list A) : length (removelast l) = pred (length l).
Proof. rewrite removelast_firstn_len, length_take. lia. Qed.

(** The rising response: [volt_up[k]] sums the first [k] impulse samples. *)
Lemma volt_up_lookup (impulse : list R) (k : nat) :
  (k < length impulse)%nat ->
  exists s, (0 :: removelast (np_cumsum impulse)) !! k = Some s /\ s = Rsum (take k impulse).
Proof.
  intros Hk. destruct k as [| k].
  - exists 0. split; [done |]. by destruct impulse.
  - destruct (cumsum_from_lookup impulse 0 k) as (s & Hs & ->); [lia |].
    exists (0 + Rsum (take (S k) impulse)). split; [| lra].
    change ((0 :: removelast (np_cumsum impulse)) !! S k)
      with (removelast (np_cumsum impulse) !! k).
    rewrite removelast_lookup; [exact Hs |].
    unfold np_cumsum. rewrite cumsum_from_length. lia.
Qed.

Lemma volt_up_length (impulse : list R) :
  length (0 :: removelast (np_cumsum impulse)) = Nat.max 1 (length impulse).
Proof.
  simpl. rewrite removelast_length. unfold np_cumsum. rewrite cumsum_from_length. lia.
Qed.

Lemma searchsorted_right_le (a : list R) (v : R) : (searchsorted_right a v <= length a)%nat.
Proof. induction a as [| x a IH]; simpl; [lia |]. case_decide; lia. Qed.

Lemma searchsorted_right_before (a : list R) (v : R) (i : nat) :
  (i < searchsorted_right a v)%nat -> exists x, a !! i = Some x /\ x <= v.
Proof.
  revert i. induction a as [| y a IH]; intros i; simpl; [lia |].
  case_decide as Hy; [| lia]. intros Hi. destruct i as [| i].
  - eauto.
  - apply IH. lia.
Qed.

Lemma searchsorted_right_at (a : list R) (v x : R) :
  a !! searchsorted_right a v = Some x -> v < x.
Proof.
  induction a as [| y a IH]; simpl; [done |].
  case_decide as Hy.
  - exact IH.
  - intros [= <-]. lra.
Qed.

Lemma _fourier_transform_pulse_inv irfft butter filtfilt z_complex dt t volt_down volt_up :
  _fourier_transform_pulse irfft butter filtfilt z_complex dt = Ok (t, volt_down, volt_up) ->
  exists raw impulse reference,
    irfft z_complex = Ok raw
    /\ filtfilt (butter 2%nat 0.45).1 (butter 2%nat 0.45).2 raw = Ok impulse
    /\ t = map (fun i => INR i * dt) (seq 0 (length impulse))
    /\ volt_up = 0 :: removelast (np_cumsum impulse)
    /\ volt_up !! searchsorted_right t 2 = Some reference
    /\ volt_down = map (fun v => reference - v) volt_up.
Proof.
  unfold _fourier_transform_pulse. destruct (butter 2%nat 0.45) as [b a]. 
  intros (raw & Hraw & H)%bind_Ok.
  apply bind_Ok in H as (impulse & Himp & H).
  apply bind_Ok in H as (reference & Href%index_Ok & H).
  injection H as <- <- <-.
  exists raw, impulse, reference. done.
Qed.

Lemma fourier_pulse_spec irfft butter filtfilt z_complex dt t volt_down volt_up :
  _fourier_transform_pulse irfft butter filtfilt z_complex dt = Ok (t, volt_down, volt_up) ->
  exists raw impulse reference,
    irfft z_complex = Ok raw
    /\ filtfilt (butter 2%nat 0.45).1 (butter 2%nat 0.45).2 raw = Ok impulse
    /\ t = map (fun i => INR i * dt) (seq 0 (length impulse))
    /\ volt_up !! 0%nat = Some 0
    /\ (forall k, (k < length impulse)%nat ->
          exists s, volt_up !! k = Some s /\ s = Rsum (take k impulse))
    /\ volt_up !! searchsorted_right t 2 = Some reference
    /\ reference = Rsum (take (searchsorted_right t 2) impulse)
    /\ (forall i, (i < searchsorted_right t 2)%nat -> exists ti, t !! i = Some ti /\ ti <= 2)
    /\ (forall tj, t !! searchsorted_right t 2 = Some tj -> 2 < tj)
    /\ length volt_down = length volt_up
    /\ (forall i v, volt_up !! i = Some v -> volt_down !! i = Some (reference - v)).
Proof.
  intros H. apply _fourier_transform_pulse_inv in H
    as (raw & impulse & reference & Hraw & Himp & Ht & Hup & Href & Hdown).
  exists raw, impulse, reference.
  split; [done |]. split; [done |]. split; [done |].
  split; [by rewrite Hup |].
  split; [intros k Hk; rewrite Hup; by apply volt_up_lookup |].
  split; [done |].
  split.
  { set (j := searchsorted_right t 2) in *.
    assert (Hj : (j <= length impulse)%nat).
    { pose proof (searchsorted_right_le t 2) as Hle. fold j in Hle.
      rewrite Ht, length_map, length_seq in Hle. exact Hle. }
    destruct (decide (j < length impulse)%nat) as [Hlt | Hge].
    - destruct (volt_up_lookup impulse j Hlt) as (s & Hs & ->).
      rewrite Hup in Href. congruence.
    - assert (j = length impulse) as Hjl by lia.
      pose proof (lookup_lt_Some _ _ _ Href) as Hlt.
      rewrite Hup, volt_up_length in Hlt.
      assert (length impulse = 0%nat) as Hnil by lia.
      rewrite Hjl, Hnil, Hup in Href. apply nil_length_inv in Hnil.
      rewrite Hjl, Hnil in *. simpl in Href. injection Href as <-. reflexivity. }
  split; [apply searchsorted_right_before |].
  split; [apply searchsorted_right_at |].
  split; [by rewrite Hdown, length_map |].
  intros i v Hv. by rewrite Hdown, list_lookup_fmap, Hv.
Qed.

Lemma ones_reference_index :
  searchsorted_right (map (fun i => INR i * 1) (seq 0 12)) 2 = 3%nat.
Proof.
  cbn [seq map searchsorted_right].
  rewrite (decide_True (P := INR 0 * 1 <= 2)) by (simpl; lra).
  rewrite (decide_True (P := INR 1 * 1 <= 2)) by (simpl; lra).
  rewrite (decide_True (P := INR 2 * 1 <= 2)) by (simpl; lra).
  rewrite (decide_False (P := INR 3 * 1 <= 2)) by (simpl; lra).
  reflexivity.
Qed.

Lemma ones_pulse :
  exists t volt_down volt_up,
    _fourier_transform_pulse ones_irfft unit_butter unit_filtfilt dc_spectrum 1
    = Ok (t, volt_down, volt_up).
Proof.
  unfold _fourier_transform_pulse, ones_irfft, unit_butter, unit_filtfilt.
  cbn [mbind result_bind repeat length].
  rewrite ones_reference_index. cbn [np_cumsum cumsum_from removelast index].
  simpl lookup. cbn [mbind result_bind]. eauto.
Qed.

(** C5 as stated fails: on a grid of step 1 the sample at index 2 has time
    2, yet the falling response is not the rising response at that sample
    minus the rising response; in particular it is not zero at time 2. *)
Lemma falling_reference_is_past_two :
  exists t volt_down volt_up t2 up0 up2 down0 down2,
    _fourier_transform_pulse ones_irfft unit_butter unit_filtfilt dc_spectrum 1
    = Ok (t, volt_down, volt_up)
    /\ t !! 2%nat = Some t2 /\ t2 = 2
    /\ volt_up !! 0%nat = Some up0
    /\ volt_up !! 2%nat = Some up2
    /\ volt_down !! 0%nat = Some down0
    /\ volt_down !! 2%nat = Some down2
    /\ down0 <> up2 - up0
    /\ down2 <> up2 - up2.
Proof.
  destruct ones_pulse as (t & vd & vu & Hp).
  destruct (fourier_pulse_spec _ _ _ _ _ _ _ _ Hp)
    as (raw & impulse & reference & Hraw & Himp & Ht & H0 & Hk & Href & Hsum & _ & _ & _ & Hd).
  injection Hraw as <-. injection Himp as <-.
  cbn [repeat length] in Ht.
  destruct (Hk 2%nat) as (up2 & Hup2 & Hs2); [simpl; lia |].
  rewrite Ht, ones_reference_index in Hsum.
  exists t, vd, vu, (INR 2 * 1), 0, up2, (reference - 0), (reference - up2).
  split; [exact Hp |]. split; [by rewrite Ht |]. split; [simpl; lra |].
  split; [exact H0 |]. split; [exact Hup2 |]. split; [by apply Hd |].
  split; [by apply Hd |].
  rewrite Hs2, Hsum. simpl. unfold Rsum. simpl. split; lra.
Qed.

(** C5, amended.  The rising response has first sample 0 and its k-th
    sample is the sum of the first k filtered impulse samples.  The falling
    response at every index is [reference - volt_up[i]], where the reference
    is the rising response at the first sample whose time is strictly
    greater than 2 (numpy's searchsorted with side "right"); it is the sum
    of the filtered impulse samples at times up to and including 2. *)
Theorem pulse_responses irfft butter filtfilt z_complex dt t volt_down volt_up :
  _fourier_transform_pulse irfft butter filtfilt z_complex dt = Ok (t, volt_down, volt_up) ->
  exists raw impulse reference,
    irfft z_complex = Ok raw
    /\ filtfilt (butter 2%nat 0.45).1 (butter 2%nat 0.45).2 raw = Ok impulse
    /\ t = map (fun i => INR i * dt) (seq 0 (length impulse))
    /\ volt_up !! 0%nat = Some 0
    /\ (forall k, (k < length impulse)%nat ->
          exists s, volt_up !! k = Some s /\ s = Rsum (take k impulse))
    /\ volt_up !! searchsorted_right t 2 = Some reference
    /\ reference = Rsum (take (searchsorted_right t 2) impulse)
    /\ (forall i, (i < searchsorted_right t 2)%nat -> exists ti, t !! i = Some ti /\ ti <= 2)
    /\ (forall tj, t !! searchsorted_right t 2 = Some tj -> 2 < tj)
    /\ length volt_down = length volt_up
    /\ (forall i v, volt_up !! i = Some v -> volt_down !! i = Some (reference - v)).
Proof. exact (fourier_pulse_spec irfft butter filtfilt z_complex dt t volt_down volt_up). Qed.

Lemma pulse_responses_witness :
  exists t volt_down volt_up reference,
    _fourier_transform_pulse ones_irfft unit_butter unit_filtfilt dc_spectrum 1
    = Ok (t, volt_down, volt_up)
    /\ volt_up !! 0%nat = Some 0
    /\ volt_up !! searchsorted_right t 2 = Some reference
    /\ (forall i v, volt_up !! i = Some v -> volt_down !! i = Some (reference - v)).
Proof.
  destruct ones_pulse as (t & vd & vu & Hp).
  destruct (pulse_responses ones_irfft unit_butter unit_filtfilt dc_spectrum 1 t vd vu Hp)
    as (raw & impulse & reference & _ & _ & _ & H0 & _ & Href & _ & _ & _ & _ & Hd).
  exists t, vd, vu, reference.
  split; [exact Hp |]. split; [exact H0 |]. split; [exact Href | exact Hd].
Defined.

(** *** The frequency grid and the DC bin *)
Lemma np_linspace_length (start stop : R) (num : nat) :
  length (np_linspace start stop num) = num.
Proof.
  destruct num as [| [| num]]; [done | done |].
  unfold np_linspace. by rewrite length_map, length_seq.
Qed.

Lemma np_linspace_lookup (start stop : R) (num i : nat) :
  (1 < num)%nat -> (i < num)%nat ->
  np_linspace start stop num !! i = Some (start + INR i * ((stop - start) / INR (num - 1))).
Proof.
  intros Hnum Hi. destruct num as [| [| num]]; [lia | lia |].
  unfold np_linspace. rewrite list_lookup_fmap, lookup_seq_lt by done. done.
Qed.

Lemma setitem0_inv {A} (a b : list A) (v : A) :
  setitem0 a v = Ok b ->
  length b = length a /\ b !! 0%nat = Some v /\ forall i, b !! S i = a !! S i.
Proof. destruct a as [| x a]; [done |]. intros [= <-]. done. Qed.

Lemma setitem0_Ok {A} (a : list A) (v : A) :
  (0 < length a)%nat -> exists b, setitem0 a v = Ok b.
Proof. destruct a; simpl; [lia | eauto]. Qed.

Lemma frequency_grid_spec self :
  T self <> 0%nat -> (2 <= N self)%nat ->
  exists freq_even,
    frequency_grid self = Ok freq_even
    /\ length freq_even = (N self / 2 + 1)%nat
    /\ freq_even !! 0%nat = Some 0.001
    /\ Forall (fun f => 0 < f) freq_even.
Proof.
  intros HT HN. unfold frequency_grid.
  assert (HTR : INR (T self) <> 0) by (by apply not_0_INR).
  rewrite (float_div_Ok _ _ HTR). cbn [mbind result_bind].
  set (n_freq := (N self / 2)%nat).
  assert (Hn : (1 <= n_freq)%nat).
  { subst n_freq. apply Nat.div_le_lower_bound; lia. }
  destruct (setitem0_Ok (np_linspace 0 (INR n_freq * (1 / INR (T self))) (n_freq + 1)) 0.001)
    as [grid Hgrid].
  { rewrite np_linspace_length. lia. }
  exists grid. split; [exact Hgrid |].
  apply setitem0_inv in Hgrid as (Hlen & H0 & Htail).
  rewrite np_linspace_length in Hlen.
  split; [exact Hlen |]. split; [exact H0 |].
  apply Forall_lookup. intros i f Hf. destruct i as [| i].
  - rewrite H0 in Hf. injection Hf as <-. lra.
  - pose proof (lookup_lt_Some _ _ _ Hf) as Hi. rewrite Hlen in Hi.
    rewrite Htail, np_linspace_lookup in Hf by lia. injection Hf as <-.
    replace (n_freq + 1 - 1)%nat with n_freq by lia.
    assert (0 < INR (T self)) by (apply lt_0_INR; lia).
    assert (0 < INR n_freq) by (apply lt_0_INR; lia).
    assert (0 < INR (S i)) by (apply lt_0_INR; lia).
    assert (0 < 1 / INR (T self)) by (apply Rdiv_lt_0_compat; lra).
    assert (0 < (INR n_freq * (1 / INR (T self)) - 0) / INR n_freq).
    { apply Rdiv_lt_0_compat; [| done]. rewrite Rminus_0_r. by apply Rmult_lt_0_compat. }
    rewrite Rplus_0_l. by apply Rmult_lt_0_compat.
Qed.

Lemma rock_spectrum_inv params freq_even circuit z circuit' :
  rock_spectrum params freq_even circuit = (Ok z, circuit') ->
  exists z_raw z0,
    run_rock params freq_even false circuit = (Ok z_raw, circuit')
    /\ z_raw !! 0%nat = Some z0
    /\ z = c_of_R (real z0) :: tail z_raw.
Proof.
  unfold rock_spectrum. intros H.
  apply M_bind_Ok in H as (z_raw & s1 & Hrun & H).
  apply M_bind_Ok in H as (z0 & s2 & [Hz0%index_Ok ->]%lift_Ok & [Hset ->]%lift_Ok).
  exists z_raw, z0. split; [done |]. split; [done |].
  destruct z_raw as [| y z_raw]; [done |]. by injection Hset as <-.
Qed.

Lemma rock_spectrum_Ok params freq_even circuit z_raw circuit' :
  run_rock params freq_even false circuit = (Ok z_raw, circuit') ->
  (0 < length z_raw)%nat ->
  exists z, rock_spectrum params freq_even circuit = (Ok z, circuit').
Proof.
  intros Hrun Hlen. destruct z_raw as [| z0 z_raw]; [simpl in Hlen; lia |].
  exists (c_of_R (real z0) :: z_raw). unfold rock_spectrum.
  erewrite M_bind_step by exact Hrun. reflexivity.
Qed.

(** C6.  With N = 2^14 and T = 4, for every parameter set, transform and
    circuit object: [run_time_domain] builds the frequency grid of
    N/2 + 1 = 8193 points, np.linspace from 0 to N/(2T) with its first bin
    overwritten by 0.001, and evaluates the rock impedance on that grid.
    When that raises, so does [run_time_domain].  When it returns, what
    [run_time_domain] hands to the pulse transform, whose first step is
    the inverse real FFT, is the impedance with its first entry replaced
    by its real part, so the imaginary part of the first entry is exactly
    zero; every later entry is as the model returned it, and the outcome
    of [run_time_domain] is what the rest of its body makes of that
    transform. *)
Theorem time_domain_dc_bin_is_real irfft butter filtfilt params self circuit :
  N self = (2 ^ 14)%nat -> T self = 4%nat ->
  exists freq_even,
    length freq_even = (2 ^ 14 / 2 + 1)%nat
    /\ length freq_even = Z.to_nat 8193
    /\ freq_even !! 0%nat = Some 0.001
    /\ (forall i,
          freq_even !! S i
          = np_linspace 0 (INR (N self / 2) * (1 / INR (T self))) (N self / 2 + 1) !! S i)
    /\ match run_rock params freq_even false circuit with
       | (Raise e, circuit') =>
           run_time_domain irfft butter filtfilt params self circuit
           = (Raise e, self, circuit')
       | (Ok z_raw, circuit') =>
           exists z0 z_complex,
             z_raw !! 0%nat = Some z0
             /\ z_complex = c_of_R (real z0) :: tail z_raw
             /\ (exists z0', z_complex !! 0%nat = Some z0' /\ imag z0' = 0)
             /\ run_time_domain irfft butter filtfilt params self circuit
                = match _fourier_transform_pulse irfft butter filtfilt z_complex
                          (INR (T self) / INR (N self)) with
                  | Raise e => (Raise e, self, circuit')
                  | Ok (t, volt_down, volt_up) =>
                      match _integration_variables t volt_down self with
                      | (Raise e, self') => (Raise e, self', circuit')
                      | (Ok _, self') =>
                          let index_ := searchsorted_left t (INR (T self / 2)) in
                          (Ok (firstn (index_ + 1) freq_even, firstn (index_ + 1) t,
                               firstn (index_ + 1) volt_down, firstn (index_ + 1) volt_up),
                           self', circuit')
                      end
                  end
       end.
Proof.
  intros HN HT.
  destruct (frequency_grid_spec self) as (grid & Hgrid & Hlen & H0 & _).
  { rewrite HT. lia. }
  { rewrite HN. apply (Nat.pow_le_mono_r 2 1 14); lia. }
  assert (HNR : INR (N self) <> 0).
  { apply not_0_INR. rewrite HN. apply Nat.pow_nonzero. lia. }
  exists grid. rewrite HN in Hlen.
  split; [exact Hlen |]. split; [rewrite Hlen; reflexivity |]. split; [exact H0 |].
  split.
  { intros i. revert Hgrid. unfold frequency_grid.
    rewrite float_div_Ok by (apply not_0_INR; rewrite HT; lia).
    cbn [mbind result_bind]. intros Hset.
    by apply setitem0_inv in Hset as (_ & _ & Htail). }
  destruct (run_rock params grid false circuit) as [[z_raw | e] circuit'] eqn:Hrun.
  - pose proof (run_rock_length _ _ _ _ _ _ Hrun) as Hz.
    pose proof (lookup_lt_Some _ _ _ H0) as Hpos.
    destruct z_raw as [| z0 z_raw]; [cbn [length] in Hz; lia |].
    exists z0, (c_of_R (real z0) :: z_raw).
    split; [reflexivity |]. split; [reflexivity |].
    split; [exists (c_of_R (real z0)); split; reflexivity |].
    unfold run_time_domain. rewrite (float_div_Ok _ _ HNR), Hgrid.
    unfold rock_spectrum. rewrite (M_bind_step _ _ _ _ _ Hrun). reflexivity.
  - unfold run_time_domain. rewrite (float_div_Ok _ _ HNR), Hgrid.
    unfold rock_spectrum. rewrite (M_bind_Raise _ _ _ _ _ Hrun). reflexivity.
Qed.

Lemma parameters_rock_spectrum :
  exists freq_even z circuit',
    frequency_grid __init__ = Ok freq_even
    /\ rock_spectrum parameters freq_even (ModelCircuitSeries false ∅ ∅ ∅) = (Ok z, circuit').
Proof.
  destruct (frequency_grid_spec __init__) as (grid & Hgrid & Hlen & _ & Hpos).
  { simpl. lia. }
  { cbn [N __init__]. apply (Nat.pow_le_mono_r 2 1 14); lia. }
  pose proof (series_run_rock_Ok parameters 10 20 30 40 100 10 1 0.8 0.6 0.4) as H.
  do 10 (specialize (H eq_refl)).
  repeat (let P := match type of H with ?P -> _ => P end in
          assert P as HP by lra; specialize (H HP); clear HP).
  destruct (H (ModelCircuitSeries false ∅ ∅ ∅) grid eq_refl Hpos)
    as (z_raw & circuit' & Hrun & Hz).
  assert (0 < length z_raw)%nat as Hlen0 by (rewrite Hz, Hlen; lia).
  destruct (rock_spectrum_Ok parameters grid (ModelCircuitSeries false ∅ ∅ ∅) z_raw circuit'
              Hrun Hlen0) as [z Hz'].
  exists grid, z, circuit'. split; [exact Hgrid | exact Hz'].
Qed.

End TimeDomainBuilderProperties.

(** ** The special frequencies of a manual evaluation *)

Section CalculatorProperties.
Import ModelCircuits Calculator Examples.

Lemma on_model_circuit_Ok {A} (m : M model_circuit A) self self' (a : A) :
  on_model_circuit m self = (Ok a, self') <->
  exists mc, m (_model_circuit self) = (Ok a, mc)
             /\ self' = {| _model_circuit := mc;
                           _calculator_variables := _calculator_variables self |}.
Proof.
  unfold on_model_circuit. destruct (m (_model_circuit self)) as [r mc]. split.
  - intros [= -> <-]. eauto.
  - intros (mc' & [= -> <-] & ->). done.
Qed.

(** C10.  The impedance reported at the fixed reference point 0.1 Hz comes
    from [run_model] on a copy of the parameters in which Re is 1e8 and Qe
    is 1e2; its reported imaginary part is 0 whatever the imaginary part of
    that impedance, its reported real part is the real part of that
    impedance, and so is the value stored under 'R01'. *)
Theorem special_frequency_reference params self special_freq spec_zr spec_zi self' :
  _calculate_special_frequencies params self = (Ok (special_freq, spec_zr, spec_zi), self') ->
  let params_no_electrode := <["Qe" := 1e2]> (<["Re" := 1e8]> params) in
  exists Fh Fm Fl z01 z_rock circuit',
    params_no_electrode !! "Re" = Some 1e8
    /\ params_no_electrode !! "Qe" = Some 1e2
    /\ run_model params_no_electrode [0.1] true (_model_circuit self)
       = (Ok ([z01], z_rock), circuit')
    /\ special_freq = [Fh; Fm; Fl; 0.1]
    /\ length spec_zr = 4%nat /\ length spec_zi = 4%nat
    /\ spec_zr !! 3%nat = Some (real z01)
    /\ spec_zi !! 3%nat = Some 0
    /\ _calculator_variables self' !! "R01" = Some (real z01).
Proof.
  intros H params_no_electrode. unfold _calculate_special_frequencies in H.
  fold params_no_electrode in H.
  apply M_bind_Ok in H as (dyn & s1 & [Hdyn ->]%lift_Ok & H).
  apply M_bind_Ok in H as ([fsf_z z_rock] & s2 & Hfsf & H).
  apply on_model_circuit_Ok in Hfsf as (mc1 & Hfsf & ->).
  apply M_bind_Ok in H as ([dsf_z z_rock'] & s3 & Hdsf & H).
  apply on_model_circuit_Ok in Hdsf as (mc2 & Hdsf & ->).
  apply M_bind_Ok in H as (R01 & s4 & [HR01%index_Ok ->]%lift_Ok & H).
  apply M_bind_Ok in H as (? & s5 & [= _ <-] & [= <- <- <- <-]).
  unfold _get_special_freqs in Hdyn.
  apply bind_Ok in Hdyn as (Fh & _ & Hdyn).
  apply bind_Ok in Hdyn as (Fm & _ & Hdyn).
  apply bind_Ok in Hdyn as (Fl & _ & [= <-]).
  pose proof (run_model_length _ _ _ _ _ _ _ Hfsf) as Hlen1.
  pose proof (run_model_length _ _ _ _ _ _ _ Hdsf) as Hlen3.
  cbn [_model_circuit] in Hdsf.
  destruct fsf_z as [| z01 [| ? ?]]; [done | | done].
  destruct dsf_z as [| d1 [| d2 [| d3 [| ? ?]]]]; try done.
  injection HR01 as <-.
  exists Fh, Fm, Fl, z01, z_rock, mc1.
  split; [unfold params_no_electrode; by rewrite lookup_insert_ne, lookup_insert_eq |].
  split; [unfold params_no_electrode; by rewrite lookup_insert_eq |].
  split; [exact Hfsf |].
  repeat split; try reflexivity.
  cbn [set_calculator_variable _calculator_variables snd]. by rewrite lookup_insert_eq.
Qed.

Lemma calculator0_special_frequencies :
  exists out self', _calculate_special_frequencies parameters calculator0 = (Ok out, self').
Proof.
  destruct (cached_series_run_model (<["Qe" := 1e2]> (<["Re" := 1e8]> parameters)) 1e2 1e8 [0.1])
    as (fsf_z & rock1 & Hfsf); [by right | lra | lra | |].
  { repeat constructor. lra. }
  destruct (cached_series_run_model parameters 1 1 [100; 10; 1])
    as (dsf_z & rock2 & Hdsf); [by left | lra | lra | |].
  { repeat constructor; lra. }
  pose proof (run_model_length _ _ _ _ _ _ _ Hfsf) as Hlen.
  destruct fsf_z as [| z01 fsf_z]; [done |].
  unfold _calculate_special_frequencies. eexists _, _.
  apply M_bind_Ok. exists [100; 10; 1], calculator0. split; [reflexivity |].
  apply M_bind_Ok. eexists (_, _), _. split.
  { apply on_model_circuit_Ok. eexists. split; [exact Hfsf | reflexivity]. }
  apply M_bind_Ok. eexists (_, _), _. split.
  { apply on_model_circuit_Ok. eexists. split; [exact Hdsf | reflexivity]. }
  apply M_bind_Ok. eexists _, _. split; [reflexivity |].
  apply M_bind_Ok. eexists _, _. split; reflexivity.
Qed.

Lemma special_frequency_reference_witness :
  exists special_freq spec_zr spec_zi self' z01,
    _calculate_special_frequencies parameters calculator0
    = (Ok (special_freq, spec_zr, spec_zi), self')
    /\ spec_zr !! 3%nat = Some (real z01)
    /\ spec_zi !! 3%nat = Some 0
    /\ _calculator_variables self' !! "R01" = Some (real z01).
Proof.
  destruct calculator0_special_frequencies as ([[special_freq spec_zr] spec_zi] & self' & Hrun).
  destruct (special_frequency_reference parameters calculator0 special_freq spec_zr spec_zi
              self' Hrun)
    as (Fh & Fm & Fl & z01 & z_rock & circuit' & _ & _ & _ & _ & _ & _ & Hzr & Hzi & HR01).
  exists special_freq, spec_zr, spec_zi, self', z01.
  split; [exact Hrun |]. split; [exact Hzr |]. split; [exact Hzi | exact HR01].
Defined.

End CalculatorProperties.

(** * Further properties *)

(** ** The circuit models, further *)

Section ModelCircuitsFurther.
Import ModelCircuits Examples.

(** *** Complex arithmetic *)
Lemma c_mul_comm (a b : complex) : c_mul a b = c_mul b a.
Proof. destruct a, b. unfold c_mul. simpl. f_equal; ring. Qed.

Lemma c_add_comm (a b : complex) : c_add a b = c_add b a.
Proof. destruct a, b. unfold c_add. simpl. f_equal; ring. Qed.

Lemma c_mul_assoc (a b c : complex) : c_mul a (c_mul b c) = c_mul (c_mul a b) c.
Proof. destruct a, b, c. unfold c_mul. simpl. f_equal; ring. Qed.

Lemma c_mul_add_distr_l (a b c : complex) :
  c_mul a (c_add b c) = c_add (c_mul a b) (c_mul a c).
Proof. destruct a, b, c. unfold c_mul, c_add. simpl. f_equal; ring. Qed.

Lemma c_mul_1_r (a : complex) : c_mul a (c_of_R 1) = a.
Proof. destruct a. unfold c_mul, c_of_R. simpl. f_equal; ring. Qed.

Lemma c_inv_mul (z w : complex) : c_inv z = Ok w -> c_mul z w = c_of_R 1.
Proof.
  unfold c_inv. case_decide as Hz; [done |]. intros [= <-].
  pose proof (c_norm_pos z Hz) as Hn. destruct z as [a b]. simpl in *.
  unfold c_mul, c_of_R. simpl. f_equal; field; lra.
Qed.

Lemma c_inv_raise (z : complex) (e : exn) :
  c_inv z = Raise e -> z = c_zero /\ e = ZeroDivisionError.
Proof. unfold c_inv. case_decide; [by intros [= <-] | done]. Qed.

Lemma _parallel_inv (z_1 z_2 z : complex) :
  _parallel z_1 z_2 = Ok z ->
  exists a b,
    z_1 <> c_zero /\ z_2 <> c_zero
    /\ c_inv z_1 = Ok a /\ c_inv z_2 = Ok b /\ c_inv (c_add a b) = Ok z.
Proof.
  unfold _parallel.
  destruct (bool_decide (z_1 = c_zero)) eqn:H1; [done |].
  destruct (bool_decide (z_2 = c_zero)) eqn:H2; [done |]. cbn [orb].
  apply bool_decide_eq_false in H1, H2.
  intros (a & Ha & (b & Hb & Hz)%bind_Ok)%bind_Ok. by exists a, b.
Qed.


Lemma existsb_zero (zs : list complex) :
  existsb (fun z => bool_decide (z = c_zero)) zs = true <-> c_zero ∈ zs.
Proof.
  rewrite existsb_exists. split.
  - intros (z & Hin%list_elem_of_In & Hz%bool_decide_eq_true). by subst.
  - intros Hin. exists c_zero. split; [by apply list_elem_of_In | by apply bool_decide_eq_true].
Qed.

Lemma mapM_raise {A B} (f : A -> result B) (xs : list A) (e : exn) :
  mapM f xs = Raise e -> exists x, x ∈ xs /\ f x = Raise e.
Proof.
  induction xs as [| x xs IH]; [done |]. rewrite mapM_cons.
  destruct (f x) as [y | e'] eqn:Hx; cbn [mbind result_bind].
  - destruct (mapM f xs) as [ys | e'']; cbn [mbind result_bind]; [done |].
    intros [= ->]. destruct IH as (x' & Hin & Hx'); [done |].
    exists x'. split; [by apply list_elem_of_further | done].
  - intros [= ->]. exists x. split; [apply list_elem_of_here | done].
Qed.

(** X2.  [_parallel_arrays] on two arrays of the same length: a ValueError
    exactly when one of them holds a zero; a returned array has that
    length and holds, at every index, what [_parallel] returns for the two
    entries at that index. *)
Theorem parallel_arrays_elementwise (z_1 z_2 : list complex) :
  length z_1 = length z_2 ->
  (_parallel_arrays z_1 z_2 = Raise ValueError <-> c_zero ∈ z_1 \/ c_zero ∈ z_2)
  /\ (forall zs, _parallel_arrays z_1 z_2 = Ok zs ->
        length zs = length z_1
        /\ forall i a b, z_1 !! i = Some a -> z_2 !! i = Some b ->
             exists z, zs !! i = Some z /\ _parallel a b = Ok z).
Proof.
  intros Hlen. unfold _parallel_arrays. rewrite (broadcast2_same_length _ _ Hlen).
  cbn [mbind result_bind].
  destruct (existsb _ z_1) eqn:H1.
  { cbn [orb]. apply existsb_zero in H1. split; [tauto | done]. }
  destruct (existsb _ z_2) eqn:H2.
  { cbn [orb]. apply existsb_zero in H2. split; [tauto | done]. }
  cbn [orb].
  assert (Hn1 : c_zero ∉ z_1) by (rewrite <- existsb_zero, H1; done).
  assert (Hn2 : c_zero ∉ z_2) by (rewrite <- existsb_zero, H2; done).
  split.
  - split; [| tauto]. intros Hraise. apply mapM_raise in Hraise as ([a b] & Hin & Hraise).
    exfalso.
    apply list_elem_of_lookup in Hin as [i Hi].
    apply lookup_zip_with_Some in Hi as (a' & b' & [= <- <-] & Ha & Hb).
    assert (a <> c_zero) as Ha0 by (intros ->; apply Hn1; by eapply list_elem_of_lookup_2).
    assert (b <> c_zero) as Hb0 by (intros ->; apply Hn2; by eapply list_elem_of_lookup_2).
    destruct (c_inv_ok a Ha0) as [ia Hia]. destruct (c_inv_ok b Hb0) as [ib Hib].
    rewrite Hia, Hib in Hraise. cbn [mbind result_bind] in Hraise.
    by apply c_inv_raise in Hraise as [_ [=]].
  - intros zs Hzs. split.
    { apply mapM_length in Hzs. rewrite Hzs, length_zip_with. lia. }
    intros i a b Ha Hb.
    assert (Hi : zip z_1 z_2 !! i = Some (a, b)).
    { apply lookup_zip_with_Some. eauto. }
    destruct (mapM_lookup _ _ _ _ _ Hzs Hi) as (z & Hz & Hf).
    exists z. split; [done |]. unfold _parallel.
    rewrite !bool_decide_eq_false_2; [done | |].
    + intros ->. apply Hn2. by eapply list_elem_of_lookup_2.
    + intros ->. apply Hn1. by eapply list_elem_of_lookup_2.
Qed.

Lemma parallel_arrays_elementwise_witness :
  _parallel_arrays [c_of_R 2; c_j] [c_of_R 2; c_zero] = Raise ValueError
  <-> c_zero ∈ [c_of_R 2; c_j] \/ c_zero ∈ [c_of_R 2; c_zero].
Proof.
  exact (proj1 (parallel_arrays_elementwise [c_of_R 2; c_j] [c_of_R 2; c_zero] eq_refl)).
Defined.

Lemma lift_bind_Ok {S A B} (r : result A) (k : A -> M S B) (s s' : S) (b : B) :
  (lift r ≫= k) s = (Ok b, s') -> exists a, r = Ok a /\ k a s = (Ok b, s').
Proof. unfold mbind, M_bind, lift. destruct r as [a | e]; [by exists a | done]. Qed.

Lemma lift_bind_Raise {S A B} (r : result A) (k : A -> M S B) (s s' : S) (e : exn) :
  (lift r ≫= k) s = (Raise e, s') ->
  (r = Raise e /\ s' = s) \/ exists a, r = Ok a /\ k a s = (Raise e, s').
Proof.
  unfold mbind, M_bind, lift. destruct r as [a | e']; [right; by exists a |].
  intros [= -> ->]. by left.
Qed.

Lemma _q_from_f0_inv (r f0 p Q : R) :
  _q_from_f0 r f0 p = Ok Q ->
  r <> 0 /\ 0 < f0 /\ Q = 1 / (r * float_pow (2 * PI * f0) p)
  /\ Q * r * float_pow (2 * PI * f0) p = 1.
Proof.
  unfold _q_from_f0, float_div. case_decide as Hr; [done |]. case_decide as Hf; [done |].
  case_decide as Hz; [done |]. intros [= <-].
  split; [done |]. split; [lra |]. split; [done |]. field. 
  split; [| done]. intros Hw. apply Hz. rewrite Hw. ring.
Qed.

Lemma float_div_inv (x y v : R) : float_div x y = Ok v -> y <> 0 /\ v = x / y.
Proof. unfold float_div. case_decide; [done |]. by intros [= <-]. Qed.

Lemma float_div_raise (x y : R) (e : exn) : float_div x y = Raise e -> e = ZeroDivisionError.
Proof. unfold float_div. case_decide; [by intros [= <-] | done]. Qed.

(** What a successful [_calculate_secondary_parameters] has read and
    written. *)
Lemma secondary_parameters_inv par self self' :
  _calculate_secondary_parameters par self = (Ok tt, self') ->
  exists Rinf Rh Rm Rl Fh Fm Fl Ph Pm Pl Qh Qm Ql,
    (par !! "Rinf" = Some Rinf /\ par !! "Rh" = Some Rh /\ par !! "Rm" = Some Rm
     /\ par !! "Rl" = Some Rl /\ par !! "Fh" = Some Fh /\ par !! "Fm" = Some Fm
     /\ par !! "Fl" = Some Fl /\ par !! "Ph" = Some Ph /\ par !! "Pm" = Some Pm
     /\ par !! "Pl" = Some Pl)
    /\ (_q_from_f0 Rh Fh Ph = Ok Qh /\ _q_from_f0 Rm Fm Pm = Ok Qm
        /\ _q_from_f0 Rl Fl Pl = Ok Ql)
    /\ (Rinf + Rh <> 0 /\ Rinf + Rh + Rm <> 0 /\ Rinf + Rh + Rm + Rl <> 0)
    /\ self' =
       Build_model_circuit (cls self) (negative_rinf self)
         (<["Ql" := Ql]> (<["Qm" := Qm]> (<["Qh" := Qh]> (q self))))
         (<["pQl" := Ql * (Rl / (Rinf + Rh + Rm + Rl)) ^ 2]>
          (<["pRl" := (Rinf + Rh + Rm) * (Rinf + Rh + Rm + Rl) / Rl]>
           (<["pQm" := Qm * (Rm / (Rinf + Rh + Rm)) ^ 2]>
            (<["pRm" := (Rinf + Rh) * (Rinf + Rh + Rm) / Rm]>
             (<["pQh" := Qh * (Rh / (Rinf + Rh)) ^ 2]>
              (<["pRh" := Rinf * (Rinf + Rh) / Rh]>
               (<["R0" := Rinf + Rh + Rm + Rl]> (par_second self))))))))
         (<["pCl" := 1 / (2 * PI * Fl * Rl) * (Rl / (Rinf + Rh + Rm + Rl)) ^ 2]>
          (<["Cl" := 1 / (2 * PI * Fl * Rl)]>
           (<["pCm" := 1 / (2 * PI * Fm * Rm) * (Rm / (Rinf + Rh + Rm)) ^ 2]>
            (<["Cm" := 1 / (2 * PI * Fm * Rm)]>
             (<["pCh" := 1 / (2 * PI * Fh * Rh) * (Rh / (Rinf + Rh)) ^ 2]>
              (<["Ch" := 1 / (2 * PI * Fh * Rh)]> (par_other_sec self))))))).
Proof.
  unfold _calculate_secondary_parameters. intros H.
  apply lift_bind_Ok in H as (Rh & HRh%getitem_Ok & H).
  apply lift_bind_Ok in H as (Fh & HFh%getitem_Ok & H).
  apply lift_bind_Ok in H as (Ph & HPh%getitem_Ok & H).
  apply lift_bind_Ok in H as (Qh & HQh & H).
  apply lift_bind_Ok in H as (Rm & HRm%getitem_Ok & H).
  apply lift_bind_Ok in H as (Fm & HFm%getitem_Ok & H).
  apply lift_bind_Ok in H as (Pm & HPm%getitem_Ok & H).
  apply lift_bind_Ok in H as (Qm & HQm & H).
  apply lift_bind_Ok in H as (Rl & HRl%getitem_Ok & H).
  apply lift_bind_Ok in H as (Fl & HFl%getitem_Ok & H).
  apply lift_bind_Ok in H as (Pl & HPl%getitem_Ok & H).
  apply lift_bind_Ok in H as (Ql & HQl & H).
  rewrite !set_q_bind in H.
  apply lift_bind_Ok in H as (Rinf & HRinf%getitem_Ok & H).
  rewrite set_par_second_bind in H.
  apply lift_bind_Ok in H as (pRh & [_ ->]%float_div_inv & H).
  rewrite set_par_second_bind in H.
  apply lift_bind_Ok in H as (rh & [Hh ->]%float_div_inv & H).
  rewrite set_par_second_bind in H.
  apply lift_bind_Ok in H as (pRm & [_ ->]%float_div_inv & H).
  rewrite set_par_second_bind in H.
  apply lift_bind_Ok in H as (rm & [Hm ->]%float_div_inv & H).
  rewrite set_par_second_bind in H.
  apply lift_bind_Ok in H as (pRl & [_ ->]%float_div_inv & H).
  rewrite set_par_second_bind in H.
  apply lift_bind_Ok in H as (rl & [Hl ->]%float_div_inv & H).
  rewrite set_par_second_bind in H.
  apply lift_bind_Ok in H as (Ch & [_ ->]%float_div_inv & H).
  rewrite !set_par_other_sec_bind in H.
  apply lift_bind_Ok in H as (Cm & [_ ->]%float_div_inv & H).
  rewrite !set_par_other_sec_bind in H.
  apply lift_bind_Ok in H as (Cl & [_ ->]%float_div_inv & H).
  rewrite !set_par_other_sec_bind in H.
  injection H as <-.
  exists Rinf, Rh, Rm, Rl, Fh, Fm, Fl, Ph, Pm, Pl, Qh, Qm, Ql.
  split; [by repeat split |]. split; [done |]. split; [done |]. reflexivity.
Qed.

Lemma getitem_raise {V} (d : gmap string V) (k : string) (e : exn) :
  getitem d k = Raise e -> e = KeyError /\ d !! k = None.
Proof. unfold getitem. destruct (d !! k); [done | by intros [= <-]]. Qed.

Lemma parameters_secondary self :
  exists self', _calculate_secondary_parameters parameters self = (Ok tt, self').
Proof.
  pose proof (secondary_parameters_Ok parameters 10 20 30 40 100 10 1 0.8 0.6 0.4) as H.
  do 10 (specialize (H eq_refl)).
  repeat (let P := match type of H with ?P -> _ => P end in
          assert P as HP by lra; specialize (H HP); clear HP).
  destruct (H self) as (self' & _ & _ & _ & Hsec & _). by exists self'.
Qed.



Lemma q_from_f0_ValueError (r f0 p : R) :
  _q_from_f0 r f0 p = Raise ValueError -> r = 0 \/ f0 <= 0.
Proof.
  unfold _q_from_f0, float_div. case_decide; [tauto |]. case_decide; [tauto |].
  by case_decide.
Qed.

Ltac past_lookup H :=
  let Hr := fresh "Hr" in
  apply lift_bind_Raise in H as [[Hr ->] | (? & ?%getitem_Ok & H)];
  [by apply getitem_raise in Hr as [? _] |].

Ltac past_division H :=
  let Hr := fresh "Hr" in
  apply lift_bind_Raise in H as [[Hr ->] | (? & _ & H)];
  [by apply float_div_raise in Hr |];
  rewrite ?set_par_second_bind, ?set_par_other_sec_bind in H.

Ltac past_arc H :=
  let Hr := fresh "Hr" in
  do 3 past_lookup H;
  apply lift_bind_Raise in H as [[Hr ->] | (? & _ & H)];
  [split; [done |]; apply q_from_f0_ValueError in Hr; eexists _, _; eauto 7 |].

Ltac read_or_raise :=
  match goal with
  | |- context [lift (getitem ?d ?k)] =>
      destruct (getitem d k) eqn:?; [rewrite lift_Ok_bind | by eexists]
  | |- context [lift (_q_from_f0 ?r ?f ?p)] =>
      destruct (_q_from_f0 r f p); [rewrite lift_Ok_bind | by eexists]
  end.

(** X4.  A [_calculate_secondary_parameters] that raises a ValueError has
    written nothing: the object is as before, and one of the three arcs
    has a zero resistance or a characteristic frequency that is not
    positive.  When one of the nine parameters of the arcs (Rh, Fh, Ph,
    Rm, Fm, Pm, Rl, Fl, Pl) is missing, the call raises and has written
    nothing either. *)
Theorem secondary_parameters_failure par self :
  (forall self',
     _calculate_secondary_parameters par self = (Raise ValueError, self') ->
     self' = self
     /\ exists R F,
          ((par !! "Rh" = Some R /\ par !! "Fh" = Some F)
           \/ (par !! "Rm" = Some R /\ par !! "Fm" = Some F)
           \/ (par !! "Rl" = Some R /\ par !! "Fl" = Some F))
          /\ (R = 0 \/ F <= 0))
  /\ (forall k,
        k ∈ ["Rh"; "Fh"; "Ph"; "Rm"; "Fm"; "Pm"; "Rl"; "Fl"; "Pl"] ->
        par !! k = None ->
        exists e, _calculate_secondary_parameters par self = (Raise e, self)).
Proof.
  split.
  - unfold _calculate_secondary_parameters. intros self' H.
    do 3 past_arc H.
    rewrite !set_q_bind in H.
    past_lookup H. rewrite set_par_second_bind in H.
    do 9 past_division H. done.
  - intros k Hk Hnone. unfold _calculate_secondary_parameters.
    do 12 read_or_raise.
    exfalso.
    repeat match goal with H : getitem _ _ = Ok _ |- _ => apply getitem_Ok in H end.
    repeat (apply elem_of_cons in Hk as [-> | Hk]; [congruence |]).
    by apply elem_of_nil in Hk.
Qed.

Lemma secondary_parameters_failure_witness :
  exists self',
    _calculate_secondary_parameters (<["Rh" := 0]> parameters) cached_series
    = (Raise ValueError, self')
    /\ self' = cached_series.
Proof.
  pose proof (secondary_parameters_zero_Rh (<["Rh" := 0]> parameters) cached_series 100 0.8
                eq_refl eq_refl eq_refl) as H.
  exists cached_series. split; [exact H |].
  exact (proj1 (proj1 (secondary_parameters_failure _ _) _ H)).
Defined.

(** *** What a run leaves of the object *)
Lemma same_outside_caches_refl c : same_outside_caches c c.
Proof. done. Qed.

Lemma same_outside_caches_trans c1 c2 c3 :
  same_outside_caches c1 c2 -> same_outside_caches c2 c3 -> same_outside_caches c1 c3.
Proof.
  intros (Hc & Hn & Hq & Hs) (Hc' & Hn' & Hq' & Hs').
  split; [congruence |]. split; [congruence |].
  split; intros k Hk; [rewrite Hq', Hq | rewrite Hs', Hs]; done.
Qed.

Lemma frame_bind {A B} (m : M model_circuit A) (f : A -> M model_circuit B) :
  (forall c, same_outside_caches c (m c).2) ->
  (forall a c, same_outside_caches c (f a c).2) ->
  forall c, same_outside_caches c ((m ≫= f) c).2.
Proof.
  intros Hm Hf c. unfold mbind, M_bind. specialize (Hm c).
  destruct (m c) as [[a | e] s]; simpl in *; [| done].
  eapply same_outside_caches_trans; [exact Hm | apply Hf].
Qed.

Lemma frame_set_q k v c : k ∈ cached_q -> same_outside_caches c (set_q k v c).2.
Proof.
  intros Hk. split; [done |]. split; [done |]. split; [| done].
  intros k' Hk'. simpl. rewrite lookup_insert_ne; [done | by intros ->].
Qed.

Lemma frame_set_par_second k v c :
  k ∈ cached_par_second -> same_outside_caches c (set_par_second k v c).2.
Proof.
  intros Hk. split; [done |]. split; [done |]. split; [done |].
  intros k' Hk'. simpl. rewrite lookup_insert_ne; [done | by intros ->].
Qed.

Lemma frame_secondary par c :
  same_outside_caches c (_calculate_secondary_parameters par c).2.
Proof.
  revert c. unfold _calculate_secondary_parameters.
  repeat first
    [ apply frame_bind; [intros c; exact (same_outside_caches_refl c) | intros ?]
    | apply frame_bind;
      [intros c; apply frame_set_q; unfold cached_q; set_unfold; tauto | intros ?]
    | apply frame_bind;
      [intros c; apply frame_set_par_second; unfold cached_par_second; set_unfold; tauto
      | intros ?]
    | apply frame_bind; [intros c; done | intros ?] ].
  intros c. done.
Qed.

Lemma copy_with_rinf_sign_state parameters c : (copy_with_rinf_sign parameters c).2 = c.
Proof.
  unfold copy_with_rinf_sign, get_negative_rinf, mbind, M_bind.
  destruct (negative_rinf c); [| done].
  unfold lift. by destruct (getitem parameters "Rinf").
Qed.

Lemma state_bind {A B} (m : M model_circuit A) (f : A -> M model_circuit B) :
  (forall c, (m c).2 = c) -> (forall a c, (f a c).2 = c) -> forall c, ((m ≫= f) c).2 = c.
Proof.
  intros Hm Hf c. unfold mbind, M_bind. specialize (Hm c).
  destruct (m c) as [[a | e] s]; simpl in *; subst; [apply Hf | done].
Qed.

Lemma run_rock_cached_state parameters freq_array c :
  (run_rock parameters freq_array true c).2 = c.
Proof.
  unfold run_rock.
  destruct (cls c); [unfold ModelCircuitSeries.run_rock | unfold ModelCircuitParallel.run_rock];
    revert c;
    (apply state_bind; [apply copy_with_rinf_sign_state | intros par]);
    (apply state_bind; [done | intros _]); done.
Qed.

Lemma series_run_rock_cached_state parameters freq_array c :
  (ModelCircuitSeries.run_rock parameters freq_array true c).2 = c.
Proof.
  revert c. unfold ModelCircuitSeries.run_rock.
  apply state_bind; [apply copy_with_rinf_sign_state | intros par].
  apply state_bind; [done | intros _]. done.
Qed.

Lemma parallel_run_rock_cached_state parameters freq_array c :
  (ModelCircuitParallel.run_rock parameters freq_array true c).2 = c.
Proof.
  revert c. unfold ModelCircuitParallel.run_rock.
  apply state_bind; [apply copy_with_rinf_sign_state | intros par].
  apply state_bind; [done | intros _]. done.
Qed.

Lemma run_model_cached_state parameters freq_array c :
  (run_model parameters freq_array true c).2 = c.
Proof.
  unfold run_model.
  destruct (cls c); [unfold ModelCircuitSeries.run_model | unfold ModelCircuitParallel.run_model];
    revert c;
    (apply state_bind; [apply copy_with_rinf_sign_state | intros par]);
    (apply state_bind; [done | intros _]).
  - apply state_bind; [apply series_run_rock_cached_state | done].
  - apply state_bind; [apply parallel_run_rock_cached_state | done].
Qed.

(** X5.  [run_model] and [run_rock] never change the class or the flag of the
    object, nor a cache entry under a key other than the ones
    [_calculate_secondary_parameters] writes, whether they return or
    raise; with [old_par_second] true they leave the object exactly as it
    was.  [estimate_rock] never changes the object. *)
Theorem run_model_frame parameters freq_array old_par_second impedance self :
  same_outside_caches self (run_model parameters freq_array old_par_second self).2
  /\ same_outside_caches self (run_rock parameters freq_array old_par_second self).2
  /\ (run_model parameters freq_array true self).2 = self
  /\ (run_rock parameters freq_array true self).2 = self
  /\ (estimate_rock parameters freq_array impedance self).2 = self.
Proof.
  split; [| split; [| split; [apply run_model_cached_state
                             | split; [apply run_rock_cached_state | done]]]].
  - destruct old_par_second.
    { rewrite run_model_cached_state. apply same_outside_caches_refl. }
    unfold run_model.
    destruct (cls self);
      [unfold ModelCircuitSeries.run_model | unfold ModelCircuitParallel.run_model];
      revert self;
      (apply frame_bind;
       [intros c; rewrite copy_with_rinf_sign_state; apply same_outside_caches_refl
       | intros par]);
      (apply frame_bind; [apply frame_secondary | intros _]).
    + apply frame_bind; [| done].
      intros c. rewrite series_run_rock_cached_state. apply same_outside_caches_refl.
    + apply frame_bind; [| done].
      intros c. rewrite parallel_run_rock_cached_state. apply same_outside_caches_refl.
  - destruct old_par_second.
    { rewrite run_rock_cached_state. apply same_outside_caches_refl. }
    unfold run_rock.
    destruct (cls self);
      [unfold ModelCircuitSeries.run_rock | unfold ModelCircuitParallel.run_rock];
      revert self;
      (apply frame_bind;
       [intros c; rewrite copy_with_rinf_sign_state; apply same_outside_caches_refl
       | intros par]);
      (apply frame_bind; [apply frame_secondary | intros _]); done.
Qed.

Lemma copy_with_rinf_sign_inv parameters c par c' :
  copy_with_rinf_sign parameters c = (Ok par, c') ->
  c' = c
  /\ ((negative_rinf c = false /\ par = parameters)
      \/ (negative_rinf c = true
          /\ exists x, parameters !! "Rinf" = Some x /\ par = <["Rinf" := - x]> parameters)).
Proof.
  unfold copy_with_rinf_sign, get_negative_rinf, mbind, M_bind.
  destruct (negative_rinf c); [| intros [= <- <-]; by eauto].
  unfold lift. destruct (getitem parameters "Rinf") as [x |] eqn:Hx; [| done].
  apply getitem_Ok in Hx. intros [= <- <-]. split; [done |]. right. eauto.
Qed.

Lemma secondary_if_flag (old_par_second : bool) par c c' :
  (if old_par_second then mret tt else _calculate_secondary_parameters par) c = (Ok tt, c') ->
  negative_rinf c' = negative_rinf c /\ cls c' = cls c.
Proof.
  destruct old_par_second; [by intros [= <-] |].
  intros H. pose proof (frame_secondary par c) as (Hc & Hn & _). by rewrite H in Hc, Hn.
Qed.

(** With the cached values, [run_rock] on the copy that [run_model] has
    made is the rock loop on that copy: negating Rinf once more changes
    nothing the loop reads. *)
Lemma series_run_rock_of_copy parameters par freq_array c :
  copy_with_rinf_sign parameters c = (Ok par, c) ->
  ModelCircuitSeries.run_rock par freq_array true c
  = ((copy_with_rinf_sign parameters ≫= fun par =>
        mret tt ≫= fun _ : unit =>
        reading (fun self =>
          mapM (fun freq =>
                  Qm ← getitem (q self) "Qm";
                  Pm ← getitem par "Pm";
                  z_cpem ← _cpe freq Qm Pm Pm;
                  Rm ← getitem par "Rm";
                  zarcm ← _parallel z_cpem (c_of_R Rm);
                  Ql ← getitem (q self) "Ql";
                  Pl ← getitem par "Pl";
                  z_cpel ← _cpe freq Ql Pl Pl;
                  Rl ← getitem par "Rl";
                  zarcl ← _parallel z_cpel (c_of_R Rl);
                  let z_total := c_add zarcm zarcl in
                  Ok z_total) freq_array)) c).
Proof.
  intros Hcopy. rewrite (M_bind_step _ _ _ _ _ Hcopy), ret_bind.
  apply copy_with_rinf_sign_inv in Hcopy as [_ [[Hn ->] | (Hn & x & Hx & ->)]].
  - unfold ModelCircuitSeries.run_rock.
    by rewrite (M_bind_step _ _ _ _ _ (copy_with_rinf_sign_clear _ _ Hn)), ret_bind.
  - unfold ModelCircuitSeries.run_rock.
    rewrite (copy_with_rinf_sign_bind _ (- x)) by apply lookup_insert_eq.
    rewrite Hn, ret_bind. unfold reading. f_equal.
    apply mapM_ext; intros; rewrite ?getitem_insert_ne by done; reflexivity.
Qed.

Lemma parallel_run_rock_of_copy parameters par freq_array c :
  copy_with_rinf_sign parameters c = (Ok par, c) ->
  ModelCircuitParallel.run_rock par freq_array true c
  = ((copy_with_rinf_sign parameters ≫= fun par =>
        mret tt ≫= fun _ : unit =>
        reading (fun self =>
          let par2 := par_second self in
          mapM (fun f =>
                  pRm ← getitem par2 "pRm";
                  pQm ← getitem par2 "pQm";
                  Pm ← getitem par "Pm";
                  zm ← _cpe f pQm Pm Pm;
                  let z_line_m := c_add (c_of_R pRm) zm in
                  pRl ← getitem par2 "pRl";
                  pQl ← getitem par2 "pQl";
                  Pl ← getitem par "Pl";
                  zl ← _cpe f pQl Pl Pl;
                  let z_line_l := c_add (c_of_R pRl) zl in
                  z_lines ← _parallel z_line_m z_line_l;
                  R0 ← getitem par2 "R0";
                  _parallel z_lines (c_of_R R0)) freq_array)) c).
Proof.
  intros Hcopy. rewrite (M_bind_step _ _ _ _ _ Hcopy), ret_bind.
  apply copy_with_rinf_sign_inv in Hcopy as [_ [[Hn ->] | (Hn & x & Hx & ->)]].
  - unfold ModelCircuitParallel.run_rock.
    by rewrite (M_bind_step _ _ _ _ _ (copy_with_rinf_sign_clear _ _ Hn)), ret_bind.
  - unfold ModelCircuitParallel.run_rock.
    rewrite (copy_with_rinf_sign_bind _ (- x)) by apply lookup_insert_eq.
    rewrite Hn, ret_bind. unfold reading. f_equal.
    apply mapM_ext; intros; rewrite ?getitem_insert_ne by done; reflexivity.
Qed.

Lemma copy_with_rinf_sign_same_flag parameters c c' :
  negative_rinf c' = negative_rinf c ->
  (copy_with_rinf_sign parameters c').1 = (copy_with_rinf_sign parameters c).1.
Proof.
  intros Hn. unfold copy_with_rinf_sign, get_negative_rinf, mbind, M_bind. rewrite Hn.
  destruct (negative_rinf c); [| done].
  unfold lift. by destruct (getitem parameters "Rinf").
Qed.

Lemma copy_with_rinf_sign_Ok parameters c par :
  (copy_with_rinf_sign parameters c).1 = Ok par -> copy_with_rinf_sign parameters c = (Ok par, c).
Proof.
  intros H. pose proof (copy_with_rinf_sign_state parameters c) as Hs.
  destruct (copy_with_rinf_sign parameters c) as [r s]. simpl in *. by subst.
Qed.

Lemma run_model_second_is_run_rock parameters freq_array old_par_second self z z_rock self' :
  run_model parameters freq_array old_par_second self = (Ok (z, z_rock), self') ->
  run_rock parameters freq_array old_par_second self = (Ok z_rock, self')
  /\ length z = length freq_array
  /\ length z_rock = length freq_array.
Proof.
  intros H. pose proof (run_model_length _ _ _ _ _ _ _ H) as Hlen.
  assert (Hrock : run_rock parameters freq_array old_par_second self = (Ok z_rock, self')).
  { revert H. unfold run_model, run_rock.
    destruct (cls self);
      [unfold ModelCircuitSeries.run_model | unfold ModelCircuitParallel.run_model];
      intros H;
      apply M_bind_Ok in H as (par & s1 & Hcopy & H);
      pose proof (copy_with_rinf_sign_inv _ _ _ _ Hcopy) as [-> _];
      apply M_bind_Ok in H as ([] & s2 & Hsec & H);
      apply M_bind_Ok in H as (rock & s3 & Hrock & H);
      apply reading_Ok in H as [H ->].
    - assert (rock = z_rock) as ->.
      { repeat (apply bind_Ok in H as (? & _ & H)). by injection H. }
      assert (Hcopy2 : copy_with_rinf_sign parameters s2 = (Ok par, s2)).
      { apply copy_with_rinf_sign_Ok.
        rewrite (copy_with_rinf_sign_same_flag _ self), Hcopy; [done |].
        by apply secondary_if_flag in Hsec as [-> _]. }
      rewrite (series_run_rock_of_copy _ _ _ _ Hcopy2) in Hrock.
      rewrite (M_bind_step _ _ _ _ _ Hcopy2), ret_bind in Hrock.
      unfold ModelCircuitSeries.run_rock.
      rewrite (M_bind_step _ _ _ _ _ Hcopy), (M_bind_step _ _ _ _ _ Hsec). exact Hrock.
    - assert (rock = z_rock) as ->.
      { repeat (apply bind_Ok in H as (? & _ & H)). by injection H. }
      assert (Hcopy2 : copy_with_rinf_sign parameters s2 = (Ok par, s2)).
      { apply copy_with_rinf_sign_Ok.
        rewrite (copy_with_rinf_sign_same_flag _ self), Hcopy; [done |].
        by apply secondary_if_flag in Hsec as [-> _]. }
      rewrite (parallel_run_rock_of_copy _ _ _ _ Hcopy2) in Hrock.
      rewrite (M_bind_step _ _ _ _ _ Hcopy2), ret_bind in Hrock.
      unfold ModelCircuitParallel.run_rock.
      rewrite (M_bind_step _ _ _ _ _ Hcopy), (M_bind_step _ _ _ _ _ Hsec). exact Hrock. }
  split; [exact Hrock |]. split; [exact Hlen |].
  revert Hrock. unfold run_rock.
  destruct (cls self);
    [unfold ModelCircuitSeries.run_rock | unfold ModelCircuitParallel.run_rock];
    intros Hrock;
    apply M_bind_Ok in Hrock as (par & s1 & _ & Hrock);
    apply M_bind_Ok in Hrock as ([] & s2 & _ & Hrock);
    apply reading_Ok in Hrock as [Hrock _];
    by apply mapM_length in Hrock.
Qed.

(** X6.  [run_model] returns two arrays of the length of the frequency array,
    and the second is what [run_rock] returns for the same arguments, with
    the same object left behind. *)
Theorem run_model_rock_component parameters freq_array old_par_second self z z_rock self' :
  run_model parameters freq_array old_par_second self = (Ok (z, z_rock), self') ->
  run_rock parameters freq_array old_par_second self = (Ok z_rock, self')
  /\ length z = length freq_array
  /\ length z_rock = length freq_array.
Proof.
  exact (run_model_second_is_run_rock parameters freq_array old_par_second self z z_rock self').
Qed.

Lemma run_model_rock_component_witness :
  exists z z_rock,
    run_model parameters [0.1; 1] true cached_series = (Ok (z, z_rock), cached_series)
    /\ run_rock parameters [0.1; 1] true cached_series = (Ok z_rock, cached_series)
    /\ length z = 2%nat.
Proof.
  destruct (cached_series_run_model parameters 1 1 [0.1; 1]) as (z & z_rock & H).
  { by left. } { lra. } { lra. } { repeat constructor; lra. }
  exists z, z_rock. split; [exact H |].
  destruct (run_model_rock_component _ _ _ _ _ _ _ H) as (Hrock & Hlen & _).
  split; [exact Hrock | exact Hlen].
Defined.

Lemma secondary_ext par par' c :
  (forall k, k ∈ secondary_inputs -> par' !! k = par !! k) ->
  _calculate_secondary_parameters par' c = _calculate_secondary_parameters par c.
Proof.
  intros H. unfold _calculate_secondary_parameters.
  rewrite (getitem_agree par' par "Rh") by (apply H; unfold secondary_inputs; set_unfold; tauto).
  rewrite (getitem_agree par' par "Fh") by (apply H; unfold secondary_inputs; set_unfold; tauto).
  rewrite (getitem_agree par' par "Ph") by (apply H; unfold secondary_inputs; set_unfold; tauto).
  rewrite (getitem_agree par' par "Rm") by (apply H; unfold secondary_inputs; set_unfold; tauto).
  rewrite (getitem_agree par' par "Fm") by (apply H; unfold secondary_inputs; set_unfold; tauto).
  rewrite (getitem_agree par' par "Pm") by (apply H; unfold secondary_inputs; set_unfold; tauto).
  rewrite (getitem_agree par' par "Rl") by (apply H; unfold secondary_inputs; set_unfold; tauto).
  rewrite (getitem_agree par' par "Fl") by (apply H; unfold secondary_inputs; set_unfold; tauto).
  rewrite (getitem_agree par' par "Pl") by (apply H; unfold secondary_inputs; set_unfold; tauto).
  rewrite (getitem_agree par' par "Rinf") by (apply H; unfold secondary_inputs; set_unfold; tauto).
  reflexivity.
Qed.

Lemma agree_on_refl Kq Ks c : agree_on Kq Ks c c.
Proof. done. Qed.

(** Recomputing the secondary parameters from the same parameters gives
    the cached values again. *)
Lemma secondary_again par c c' :
  _calculate_secondary_parameters par c = (Ok tt, c') ->
  exists c'', _calculate_secondary_parameters par c' = (Ok tt, c'')
              /\ agree_on cached_q cached_par_second c' c''.
Proof.
  intros H. pose proof (frame_secondary par c) as (Hc & Hn & _). rewrite H in Hc, Hn.
  destruct (relates_secondary ∅ ∅ par c c') as [Hres Hpost].
  { split; [done |]. split; [done |]. split; intros k Hk; set_unfold; done. }
  rewrite H in Hres, Hpost. simpl in Hres, Hpost.
  destruct (_calculate_secondary_parameters par c') as [[[] | e] c''] eqn:H'; [| done].
  exists c''. done.
Qed.

Lemma copied_inputs parameters parameters' c par par' :
  (forall k, k ∈ secondary_inputs -> parameters' !! k = parameters !! k) ->
  copy_with_rinf_sign parameters c = (Ok par, c) ->
  copy_with_rinf_sign parameters' c = (Ok par', c) ->
  forall k, k ∈ secondary_inputs -> par' !! k = par !! k.
Proof.
  intros H Hc Hc' k Hk.
  apply copy_with_rinf_sign_inv in Hc as [_ [[Hn ->] | (Hn & x & Hx & ->)]];
    apply copy_with_rinf_sign_inv in Hc' as [_ [[Hn' ->] | (Hn' & x' & Hx' & ->)]];
    try congruence; [by apply H |].
  assert (x' = x) as ->.
  { rewrite H in Hx' by (unfold secondary_inputs; set_unfold; tauto). congruence. }
  destruct (decide (k = "Rinf")) as [-> | Hne].
  - by rewrite !lookup_insert_eq.
  - rewrite !lookup_insert_ne by done. by apply H.
Qed.

Lemma copy_with_rinf_sign_inputs parameters parameters' c par :
  (forall k, k ∈ secondary_inputs -> parameters' !! k = parameters !! k) ->
  copy_with_rinf_sign parameters c = (Ok par, c) ->
  is_Some (parameters !! "Rinf") ->
  exists par', copy_with_rinf_sign parameters' c = (Ok par', c).
Proof.
  intros H Hc [x Hx].
  assert (Hx' : parameters' !! "Rinf" = Some x).
  { rewrite H; [done |]. unfold secondary_inputs; set_unfold; tauto. }
  rewrite (copy_with_rinf_sign_spec _ _ _ Hx'). eauto.
Qed.

(** X7.  After a [run_model] that has recomputed the secondary parameters and
    returned, a run with [old_par_second] true returns what a run with
    [old_par_second] false returns, for every frequency array and every
    parameter set that holds the same values under the ten keys the
    secondary parameters are computed from.  The cached values are stale
    only when one of those ten has changed. *)
Theorem cached_run_agrees_with_fresh_run
    parameters freq_array self out self' parameters' freq_array' :
  run_model parameters freq_array false self = (Ok out, self') ->
  (forall k, k ∈ secondary_inputs -> parameters' !! k = parameters !! k) ->
  (run_model parameters' freq_array' true self').1
  = (run_model parameters' freq_array' false self').1
  /\ (run_rock parameters' freq_array' true self').1
     = (run_rock parameters' freq_array' false self').1.
Proof.
  intros Hrun Hsame.
  (* what the first run has done *)
  assert (exists par,
            copy_with_rinf_sign parameters self = (Ok par, self)
            /\ _calculate_secondary_parameters par self = (Ok tt, self')) as (par & Hcopy & Hsec).
  { pose proof (run_model_cached_state parameters freq_array) as Hstate.
    revert Hrun. unfold run_model.
    destruct (cls self);
      [unfold ModelCircuitSeries.run_model | unfold ModelCircuitParallel.run_model];
      intros H;
      apply M_bind_Ok in H as (par & s1 & Hcopy & H);
      pose proof (copy_with_rinf_sign_inv _ _ _ _ Hcopy) as [-> _];
      apply M_bind_Ok in H as ([] & s2 & Hsec & H);
      apply M_bind_Ok in H as (rock & s3 & Hrock & H);
      apply reading_Ok in H as [_ ->]; exists par; (split; [exact Hcopy |]).
    - pose proof (series_run_rock_cached_state par freq_array s2) as Hs.
      rewrite Hrock in Hs. simpl in Hs. by subst.
    - pose proof (parallel_run_rock_cached_state par freq_array s2) as Hs.
      rewrite Hrock in Hs. simpl in Hs. by subst. }
  pose proof (frame_secondary par self) as (Hc & Hn & _). rewrite Hsec in Hc, Hn.
  simpl in Hc, Hn.
  assert (Hcopy1 : copy_with_rinf_sign parameters self' = (Ok par, self')).
  { apply copy_with_rinf_sign_Ok.
    by rewrite (copy_with_rinf_sign_same_flag _ self), Hcopy. }
  assert (HRinf : is_Some (parameters !! "Rinf")).
  { apply secondary_parameters_inv in Hsec as (x & ? & ? & ? & ? & ? & ? & ? & ? & ? & ? & ? & ?
                                              & (Hx & _) & _).
    apply copy_with_rinf_sign_inv in Hcopy as [_ [[_ ->] | (_ & y & Hy & ->)]]; eauto. }
  destruct (copy_with_rinf_sign_inputs _ _ _ _ Hsame Hcopy1 HRinf) as [par' Hcopy'].
  pose proof (copied_inputs _ _ _ _ _ Hsame Hcopy1 Hcopy') as Hpar.
  destruct (secondary_again _ _ _ Hsec) as (self'' & Hsec' & Hagree).
  rewrite <- (secondary_ext _ _ _ Hpar) in Hsec'.
  (* the fresh run on [self'] is the cached run on [self''] *)
  assert (Hcopy'' : copy_with_rinf_sign parameters' self'' = (Ok par', self'')).
  { apply copy_with_rinf_sign_Ok.
    rewrite (copy_with_rinf_sign_same_flag _ self'), Hcopy'; [done |].
    by destruct Hagree as (_ & <- & _). }
  assert (Hmodel : (run_model parameters' freq_array' false self').1
                   = (run_model parameters' freq_array' true self'').1).
  { unfold run_model. destruct Hagree as (<- & _).
    destruct (cls self');
      [unfold ModelCircuitSeries.run_model | unfold ModelCircuitParallel.run_model];
      by rewrite (M_bind_step _ _ _ _ _ Hcopy'), (M_bind_step _ _ _ _ _ Hsec'),
           (M_bind_step _ _ _ _ _ Hcopy''), ret_bind. }
  assert (Hrock : (run_rock parameters' freq_array' false self').1
                  = (run_rock parameters' freq_array' true self'').1).
  { unfold run_rock. destruct Hagree as (<- & _).
    destruct (cls self');
      [unfold ModelCircuitSeries.run_rock | unfold ModelCircuitParallel.run_rock];
      by rewrite (M_bind_step _ _ _ _ _ Hcopy'), (M_bind_step _ _ _ _ _ Hsec'),
           (M_bind_step _ _ _ _ _ Hcopy''), ret_bind. }
  rewrite Hmodel, Hrock. split.
  - by apply (run_model_relates cached_q cached_par_second parameters' freq_array' true).
  - by apply (run_rock_relates cached_q cached_par_second parameters' freq_array' true).
Qed.

Lemma series_run_model_Ok par Rinf Rh Rm Rl Fh Fm Fl Ph Pm Pl Linf Qe Pef Pei Re
    self freq_array :
  par !! "Rinf" = Some Rinf /\ par !! "Rh" = Some Rh /\ par !! "Rm" = Some Rm
  /\ par !! "Rl" = Some Rl /\ par !! "Fh" = Some Fh /\ par !! "Fm" = Some Fm
  /\ par !! "Fl" = Some Fl /\ par !! "Ph" = Some Ph /\ par !! "Pm" = Some Pm
  /\ par !! "Pl" = Some Pl /\ par !! "Linf" = Some Linf /\ par !! "Qe" = Some Qe
  /\ par !! "Pef" = Some Pef /\ par !! "Pei" = Some Pei /\ par !! "Re" = Some Re ->
  Rh <> 0 /\ Rm <> 0 /\ Rl <> 0 /\ Linf <> 0 /\ Qe <> 0 /\ Re <> 0 ->
  0 < Fh /\ 0 < Fm /\ 0 < Fl ->
  0 < Ph < 2 /\ 0 < Pm < 2 /\ 0 < Pl < 2 /\ 0 < Pei < 2 ->
  Rinf + Rh <> 0 /\ Rinf + Rh + Rm <> 0 /\ Rinf + Rh + Rm + Rl <> 0 ->
  cls self = Series -> negative_rinf self = false ->
  Forall (fun f => 0 < f) freq_array ->
  exists z z_rock self',
    run_model par freq_array false self = (Ok (z, z_rock), self')
    /\ run_rock par freq_array false self = (Ok z_rock, self').
Proof.
  intros (HRinf & HRh & HRm & HRl & HFh & HFm & HFl & HPh & HPm & HPl & HLinf & HQe & HPef
          & HPei & HRe)
    (Rh0 & Rm0 & Rl0 & Linf0 & Qe0 & Re0) (Fh0 & Fm0 & Fl0) (Ph2 & Pm2 & Pl2 & Pei2)
    (Sh & Sm & Sl) Hcls Hneg Hfreq.
  destruct (secondary_parameters_Ok par Rinf Rh Rm Rl Fh Fm Fl Ph Pm Pl
              HRinf HRh HRm HRl HFh HFm HFl HPh HPm HPl Rh0 Rm0 Rl0 Fh0 Fm0 Fl0 Sh Sm Sl self)
    as (self' & Qh & Qm & Ql & Hsec & Hcls' & Hneg' & HQh & HQh0 & HQm & HQm0 & HQl & HQl0).
  rewrite Hneg in Hneg'.
  destruct (series_run_model_cached_Ok par Rinf Rh Rm Rl Fh Fm Fl Ph Pm Pl
              HRinf HRh HRm HRl HFh HFm HFl HPh HPm HPl Rh0 Rm0 Rl0 Fh0 Fm0 Fl0 Sh Sm Sl
              Pm2 Pl2 Linf Qe Pef Pei Re HLinf HQe HPef HPei HRe Linf0 Qe0 Re0 Ph2 Pei2
              self' freq_array Qh Qm Ql HQh HQh0 HQm HQm0 HQl HQl0 Hneg' Hfreq)
    as (z & z_rock & Hrun).
  assert (Hmodel : run_model par freq_array false self = (Ok (z, z_rock), self')).
  { unfold run_model. rewrite Hcls. unfold ModelCircuitSeries.run_model in *.
    rewrite (M_bind_step _ _ _ _ _ (copy_with_rinf_sign_clear _ _ Hneg)).
    rewrite (M_bind_step _ _ _ _ _ (copy_with_rinf_sign_clear _ _ Hneg')), ret_bind in Hrun.
    by rewrite (M_bind_step _ _ _ _ _ Hsec). }
  exists z, z_rock, self'. split; [exact Hmodel |].
  by apply run_model_second_is_run_rock in Hmodel as [? _].
Qed.

(** X8.  In exact real arithmetic the series model, on an object whose
    negative-Rinf flag is clear, evaluates, recomputing its secondary
    parameters, at every array of positive frequencies when the three arc
    resistances, Linf, Qe and Re are not zero, the three characteristic
    frequencies are positive, the exponents Ph, Pm, Pl and Pei lie
    strictly between 0 and 2, and none of the partial sums Rinf + Rh,
    Rinf + Rh + Rm, Rinf + Rh + Rm + Rl is zero: no trial point in that
    region costs the fit its penalty. *)
Theorem series_model_evaluates par Rinf Rh Rm Rl Fh Fm Fl Ph Pm Pl Linf Qe Pef Pei Re
    self freq_array :
  par !! "Rinf" = Some Rinf /\ par !! "Rh" = Some Rh /\ par !! "Rm" = Some Rm
  /\ par !! "Rl" = Some Rl /\ par !! "Fh" = Some Fh /\ par !! "Fm" = Some Fm
  /\ par !! "Fl" = Some Fl /\ par !! "Ph" = Some Ph /\ par !! "Pm" = Some Pm
  /\ par !! "Pl" = Some Pl /\ par !! "Linf" = Some Linf /\ par !! "Qe" = Some Qe
  /\ par !! "Pef" = Some Pef /\ par !! "Pei" = Some Pei /\ par !! "Re" = Some Re ->
  Rh <> 0 /\ Rm <> 0 /\ Rl <> 0 /\ Linf <> 0 /\ Qe <> 0 /\ Re <> 0 ->
  0 < Fh /\ 0 < Fm /\ 0 < Fl ->
  0 < Ph < 2 /\ 0 < Pm < 2 /\ 0 < Pl < 2 /\ 0 < Pei < 2 ->
  Rinf + Rh <> 0 /\ Rinf + Rh + Rm <> 0 /\ Rinf + Rh + Rm + Rl <> 0 ->
  cls self = Series -> negative_rinf self = false ->
  Forall (fun f => 0 < f) freq_array ->
  exists z z_rock self',
    run_model par freq_array false self = (Ok (z, z_rock), self')
    /\ run_rock par freq_array false self = (Ok z_rock, self').
Proof.
  exact (series_run_model_Ok par Rinf Rh Rm Rl Fh Fm Fl Ph Pm Pl Linf Qe Pef Pei Re self freq_array).
Qed.

Lemma parameters_run_model freq_array q0 s0 o0 :
  Forall (fun f => 0 < f) freq_array ->
  exists z z_rock self',
    run_model parameters freq_array false (ModelCircuitSeries false q0 s0 o0)
    = (Ok (z, z_rock), self').
Proof.
  intros Hfreq.
  assert (exists z z_rock self',
            run_model parameters freq_array false (ModelCircuitSeries false q0 s0 o0)
            = (Ok (z, z_rock), self')
            /\ run_rock parameters freq_array false (ModelCircuitSeries false q0 s0 o0)
               = (Ok z_rock, self')) as (z & z_rock & self' & H & _).
  { apply (series_run_model_Ok parameters 10 20 30 40 100 10 1 0.8 0.6 0.4 0.001 0.9 0.7
             0.5 50 (ModelCircuitSeries false q0 s0 o0) freq_array).
    - repeat split; reflexivity.
    - repeat split; lra.
    - repeat split; lra.
    - repeat split; lra.
    - repeat split; lra.
    - reflexivity.
    - reflexivity.
    - exact Hfreq. }
  by exists z, z_rock, self'.
Qed.

Lemma series_model_evaluates_witness :
  exists z z_rock self',
    run_model parameters [1; 10; 100] false (ModelCircuitSeries false ∅ ∅ ∅)
    = (Ok (z, z_rock), self')
    /\ run_rock parameters [1; 10; 100] false (ModelCircuitSeries false ∅ ∅ ∅)
       = (Ok z_rock, self').
Proof.
  apply (series_model_evaluates parameters 10 20 30 40 100 10 1 0.8 0.6 0.4 0.001 0.9 0.7
           0.5 50 (ModelCircuitSeries false ∅ ∅ ∅) [1; 10; 100]).
  - repeat split; reflexivity.
  - repeat split; lra.
  - repeat split; lra.
  - repeat split; lra.
  - repeat split; lra.
  - reflexivity.
  - reflexivity.
  - repeat constructor; lra.
Defined.

Lemma cached_run_agrees_with_fresh_run_witness :
  exists out self',
    run_model parameters [1; 10] false (ModelCircuitSeries false ∅ ∅ ∅) = (Ok out, self')
    /\ (run_model (<["Qe" := 1e2]> (<["Re" := 1e8]> parameters)) [0.1] true self').1
       = (run_model (<["Qe" := 1e2]> (<["Re" := 1e8]> parameters)) [0.1] false self').1.
Proof.
  destruct (parameters_run_model [1; 10] ∅ ∅ ∅) as (z & z_rock & self' & Hrun).
  { repeat constructor; lra. }
  exists (z, z_rock), self'. split; [exact Hrun |].
  refine (proj1 (cached_run_agrees_with_fresh_run parameters [1; 10] _ _ self'
                   (<["Qe" := 1e2]> (<["Re" := 1e8]> parameters)) [0.1] Hrun _)).
  intros k Hk. unfold secondary_inputs in Hk.
  repeat (apply elem_of_cons in Hk as [-> | Hk]; [reflexivity |]).
  by apply elem_of_nil in Hk.
Defined.

(** X9.  With [old_par_second] false, what [run_model] and [run_rock] return
    or raise does not depend on the cached values the object holds when
    the call starts: two objects of the same class and flag give the same
    outcome, and after a run that returns their caches agree on every key
    the model reads. *)
Theorem fresh_run_ignores_caches parameters freq_array c1 c2 :
  cls c1 = cls c2 -> negative_rinf c1 = negative_rinf c2 ->
  (run_model parameters freq_array false c1).1 = (run_model parameters freq_array false c2).1
  /\ (run_rock parameters freq_array false c1).1 = (run_rock parameters freq_array false c2).1
  /\ (forall out, (run_model parameters freq_array false c1).1 = Ok out ->
        agree_on cached_q cached_par_second
          (run_model parameters freq_array false c1).2
          (run_model parameters freq_array false c2).2).
Proof.
  intros Hc Hn.
  assert (Hagree : agree_on ∅ ∅ c1 c2).
  { split; [done |]. split; [done |]. split; intros k Hk; set_unfold; done. }
  destruct (run_model_relates ∅ ∅ parameters freq_array false ltac:(done) c1 c2 Hagree)
    as [Hres Hpost].
  destruct (run_rock_relates ∅ ∅ parameters freq_array false ltac:(done) c1 c2 Hagree)
    as [Hres' _].
  split; [exact Hres |]. split; [exact Hres' |].
  intros out Hout. by rewrite Hout in Hpost.
Qed.

Lemma fresh_run_ignores_caches_witness :
  (run_model parameters [1; 10] false (ModelCircuitSeries false ∅ ∅ ∅)).1
  = (run_model parameters [1; 10] false cached_series).1.
Proof.
  refine (proj1 (fresh_run_ignores_caches _ _ _ _ _ _)); reflexivity.
Defined.

Lemma seq_lookup_index {A} (l : list A) (i : nat) (x : A) :
  l !! i = Some x -> seq 0 (length l) !! i = Some i.
Proof. intros H%lookup_lt_Some. by rewrite lookup_seq_lt. Qed.

(** The estimate and the shape of its input: when every frequency
    evaluates, [estimate_rock] returns an array of the length of the
    frequency array if the impedance array has that length, and raises a
    ValueError if it has another. *)
Lemma estimate_rock_shape parameters freq_array impedance self z_to_substract :
  mapM (fun f =>
          Qe ← getitem parameters "Qe";
          Pef ← getitem parameters "Pef";
          Pei ← getitem parameters "Pei";
          z_cpee ← _cpe f Qe Pef Pei;
          Re ← getitem parameters "Re";
          zarce ← _parallel z_cpee (c_of_R Re);
          Qh ← getitem (q self) "Qh";
          Ph ← getitem parameters "Ph";
          z_cpeh ← _cpe f Qh Ph Ph;
          Rh ← getitem parameters "Rh";
          zarch ← _parallel z_cpeh (c_of_R Rh);
          Rh' ← getitem parameters "Rh";
          Ok (c_sub (c_add zarch zarce) (c_of_R Rh'))) freq_array = Ok z_to_substract ->
  estimate_rock parameters freq_array impedance self
  = (if decide (length freq_array = length impedance)
     then Ok (map (fun '(a, b) => c_sub a b) (zip impedance z_to_substract))
     else Raise ValueError, self).
Proof.
  intros H. unfold estimate_rock, reading. cbv zeta. rewrite H. cbn [mbind result_bind].
  apply mapM_length in H. rewrite H. done.
Qed.



End ModelCircuitsFurther.

(** ** The fit engine, further *)

Section FitBuilderFurther.
Import ModelCircuits FitBuilder Examples.

Lemma mapM_Ok_inv {A B} (f : A -> result B) (xs : list A) (ys : list B) :
  mapM f xs = Ok ys -> forall x, x ∈ xs -> exists y, f x = Ok y.
Proof.
  intros H x [i Hi]%list_elem_of_lookup.
  destruct (mapM_lookup _ _ _ _ _ H Hi) as (y & _ & Hy). eauto.
Qed.

Lemma mapM_eq_Ok {A B} (f : A -> result B) (xs : list A) :
  forall ys : list B,
    length xs = length ys ->
    (forall i x, xs !! i = Some x -> exists y, ys !! i = Some y /\ f x = Ok y) ->
    mapM f xs = Ok ys.
Proof.
  induction xs as [| x xs IH]; intros [| y ys] Hlen Hf; try done.
  rewrite mapM_cons.
  destruct (Hf 0%nat x eq_refl) as (y' & [= <-] & Hy). rewrite Hy. cbn [mbind result_bind].
  rewrite (IH ys); [done | by injection Hlen |].
  intros i x' Hi. exact (Hf (S i) x' Hi).
Qed.

Lemma _scale_params_iff {A} `{PyFloat A} (keys : list string) (params : gmap string A) :
  (exists x, _scale_params keys params = Ok x)
  <-> forall k, k ∈ keys ->
        exists v, params !! k = Some v /\ (String.prefix "P" k = false -> nonpos v = false).
Proof.
  split; [| apply _scale_params_Ok].
  intros [x Hx] k Hk. unfold _scale_params in Hx.
  destruct (mapM_Ok_inv _ _ _ Hx k Hk) as (y & Hy).
  apply bind_Ok in Hy as (v & Hv%getitem_Ok & Hy). exists v. split; [done |].
  intros Hp. rewrite Hp in Hy. by destruct (nonpos v).
Qed.

Lemma scale_params_raises {A} `{PyFloat A} (keys : list string) (params : gmap string A) e :
  _scale_params keys params = Raise e ->
  exists k, k ∈ keys
    /\ ((e = KeyError /\ params !! k = None)
        \/ (e = ValueError /\ String.prefix "P" k = false
            /\ exists v, params !! k = Some v /\ nonpos v = true)).
Proof.
  intros (k & Hk & Hf)%mapM_raise. exists k. split; [done |].
  destruct (getitem params k) as [v |] eqn:Hv; cbn [mbind result_bind] in Hf.
  - apply getitem_Ok in Hv. right.
    destruct (String.prefix "P" k); [done |].
    destruct (nonpos v) eqn:Hn; [| done]. injection Hf as <-. eauto.
  - apply getitem_raise in Hv as [-> Hnone]. injection Hf as <-. by left.
Qed.

Lemma scale_params_spec (keys : list string) (params : gmap string R) :
  ((exists x, _scale_params keys params = Ok x)
   <-> forall k, k ∈ keys ->
         exists v, params !! k = Some v /\ (String.prefix "P" k = false -> 0 < v))
  /\ (forall x, _scale_params keys params = Ok x -> length x = length keys)
  /\ (forall e, _scale_params keys params = Raise e -> e = KeyError \/ e = ValueError)
  /\ ((forall k, k ∈ keys -> is_Some (params !! k)) ->
      (exists k v, k ∈ keys /\ String.prefix "P" k = false /\ params !! k = Some v /\ v <= 0) ->
      _scale_params keys params = Raise ValueError).
Proof.
  split; [| split; [| split]].
  - rewrite _scale_params_iff. split; intros Hk k Hin; destruct (Hk k Hin) as (v & Hv & Hp);
      exists v; (split; [done |]); intros Hpre; specialize (Hp Hpre).
    + apply bool_decide_eq_false in Hp. lra.
    + apply bool_decide_eq_false_2. lra.
  - intros x Hx. by apply mapM_length in Hx.
  - intros e (k & _ & [[-> _] | [-> _]])%scale_params_raises; tauto.
  - intros Hall (k & v & Hk & Hp & Hv & Hle).
    destruct (_scale_params keys params) as [x | e] eqn:Hs.
    + exfalso. assert (Hex : exists x, _scale_params keys params = Ok x) by eauto.
      rewrite _scale_params_iff in Hex. destruct (Hex k Hk) as (v' & Hv' & Hpos).
      rewrite Hv in Hv'. injection Hv' as <-. specialize (Hpos Hp).
      apply bool_decide_eq_false in Hpos. lra.
    + apply scale_params_raises in Hs as (k' & Hk' & [[-> Hnone] | [-> _]]); [| done].
      destruct (Hall k' Hk') as [? ?]. congruence.
Qed.

(** X11.  [_scale_params] returns exactly when the dictionary holds every key
    and the value of every key that does not start with "P" is strictly
    positive, and then with one entry per key.  It raises nothing but a
    KeyError or a ValueError; when every key is there and some magnitude
    is zero or negative, it is a ValueError. *)
Theorem scale_params_domain (keys : list string) (params : gmap string R) :
  ((exists x, _scale_params keys params = Ok x)
   <-> forall k, k ∈ keys ->
         exists v, params !! k = Some v /\ (String.prefix "P" k = false -> 0 < v))
  /\ (forall x, _scale_params keys params = Ok x -> length x = length keys)
  /\ (forall e, _scale_params keys params = Raise e -> e = KeyError \/ e = ValueError)
  /\ ((forall k, k ∈ keys -> is_Some (params !! k)) ->
      (exists k v, k ∈ keys /\ String.prefix "P" k = false /\ params !! k = Some v /\ v <= 0) ->
      _scale_params keys params = Raise ValueError).
Proof.
  exact (scale_params_spec keys params).
Qed.

(** *** Descaling *)
Lemma _descale_loop_inv (keys : list string) :
  forall (i : nat) (x : list R) (acc d : gmap string R),
    _descale_loop i keys x acc = Ok d ->
    (forall k, k ∈ keys ->
          exists j xi, keys !! j = Some k /\ x !! (i + j)%nat = Some xi
            /\ d !! k = Some (if String.prefix "P" k then xi / 10 else float_pow 10 xi))
    /\ (forall j k, NoDup keys -> keys !! j = Some k ->
          exists xi, x !! (i + j)%nat = Some xi
            /\ d !! k = Some (if String.prefix "P" k then xi / 10 else float_pow 10 xi)).
Proof.
  induction keys as [| key keys IH]; intros i x acc d; cbn [_descale_loop].
  - intros [= <-]. split.
    + intros k Hk. by apply elem_of_nil in Hk.
    + intros j k _ Hj. done.
  - intros (xi & Hxi%index_Ok & Hd)%bind_Ok.
    destruct (IH _ _ _ _ Hd) as (Hin & Hnd).
    split.
    + intros k Hk.
      destruct (decide (k ∈ keys)) as [Hk' | Hk'].
      * destruct (Hin k Hk') as (j & xj & Hj & Hxj & Hdk).
        exists (S j), xj. split; [done |]. split; [| done].
        by rewrite <- Nat.add_succ_comm.
      * apply elem_of_cons in Hk as [-> | Hk]; [| done].
        exists 0%nat, xi. split; [done |]. split; [by rewrite Nat.add_0_r |].
        rewrite (_descale_loop_dom _ _ _ _ _ Hd key Hk'). apply lookup_insert_eq.
    + intros j k Hno Hj. apply NoDup_cons in Hno as [Hnotin Hno].
      destruct j as [| j]; simpl in Hj.
      * injection Hj as <-. exists xi. split; [by rewrite Nat.add_0_r |].
        rewrite (_descale_loop_dom _ _ _ _ _ Hd key Hnotin). apply lookup_insert_eq.
      * destruct (Hnd j k Hno Hj) as (xj & Hxj & Hdk). exists xj.
        split; [| done]. by rewrite <- Nat.add_succ_comm.
Qed.

Lemma _descale_loop_short (keys : list string) :
  forall (i : nat) (x : list R) (acc : gmap string R),
    (i <= length x)%nat -> (length x < i + length keys)%nat ->
    _descale_loop i keys x acc = Raise IndexError.
Proof.
  induction keys as [| key keys IH]; intros i x acc Hi Hlen; cbn [_descale_loop].
  - simpl in Hlen. lia.
  - unfold index. destruct (x !! i) as [xi |] eqn:Hxi; cbn [mbind result_bind]; [| done].
    apply lookup_lt_Some in Hxi. apply IH; [lia |]. simpl in Hlen. lia.
Qed.

Lemma descale_params_spec (keys : list string) (x : list R) :
  ((length keys <= length x)%nat ->
   exists d, _descale_params keys x = Ok d
     /\ (forall k, is_Some (d !! k) <-> k ∈ keys)
     /\ (forall k v, d !! k = Some v -> String.prefix "P" k = false -> 0 < v))
  /\ ((length x < length keys)%nat -> _descale_params keys x = Raise IndexError).
Proof.
  split; [| intros Hshort; apply _descale_loop_short; [lia | exact Hshort]].
  intros Hlen. destruct (_descale_loop_Ok keys 0 x ∅ Hlen) as [d Hd].
  exists d. split; [exact Hd |].
  destruct (_descale_loop_inv _ _ _ _ _ Hd) as (Hin & _). split.
  - intros k. split.
    + intros [v Hv]. destruct (decide (k ∈ keys)) as [| Hk]; [done |].
      rewrite (_descale_params_dom _ _ _ _ Hd Hk) in Hv. done.
    + intros Hk. destruct (Hin k Hk) as (j & xj & _ & _ & ->). eauto.
  - intros k v Hv Hp.
    destruct (decide (k ∈ keys)) as [Hk | Hk].
    + destruct (Hin k Hk) as (j & xj & _ & _ & Hdk). rewrite Hp, Hv in Hdk.
      injection Hdk as ->. apply float_pow_pos. lra.
    + rewrite (_descale_params_dom _ _ _ _ Hd Hk) in Hv. done.
Qed.

(** X12.  [_descale_params] returns whenever the vector has an entry for every
    key, and raises an IndexError otherwise.  The dictionary it returns
    holds exactly the listed keys, and every value under a key that does
    not start with "P" is a power of ten, strictly positive over the reals
    whatever the vector holds: the optimizer cannot propose a negative
    magnitude. *)
Theorem descale_params_range (keys : list string) (x : list R) :
  ((length keys <= length x)%nat ->
   exists d, _descale_params keys x = Ok d
     /\ (forall k, is_Some (d !! k) <-> k ∈ keys)
     /\ (forall k v, d !! k = Some v -> String.prefix "P" k = false -> 0 < v))
  /\ ((length x < length keys)%nat -> _descale_params keys x = Raise IndexError).
Proof.
  exact (descale_params_spec keys x).
Qed.

Lemma log10_pow10 (x : R) : np_log10 (float_pow 10 x) = x.
Proof.
  unfold np_log10, float_pow. rewrite decide_False by lra.
  unfold Rpower. rewrite ln_exp. pose proof ln_10_pos. field. lra.
Qed.

(** X13.  In exact real arithmetic, where log10 (10 ** x) = x and
    (x / 10) * 10 = x, scaling what [_descale_params] has made of a vector
    gives the vector back, when no key is listed twice and the vector has
    one entry per key.  (A key listed twice keeps the later of its two
    values.) *)
Theorem descale_scale_roundtrip (keys : list string) (x : list R) :
  NoDup keys -> length x = length keys ->
  exists d, _descale_params keys x = Ok d /\ _scale_params keys d = Ok x.
Proof.
  intros Hno Hlen.
  destruct (_descale_loop_Ok keys 0 x ∅) as [d Hd]; [simpl; lia |].
  exists d. split; [exact Hd |].
  destruct (_descale_loop_inv _ _ _ _ _ Hd) as (_ & Hnd).
  apply mapM_eq_Ok; [done |].
  intros j k Hj. destruct (Hnd j k Hno Hj) as (xj & Hxj & Hdk). simpl in Hxj.
  exists xj. split; [done |]. apply getitem_Ok in Hdk. rewrite Hdk. cbn [mbind result_bind].
  destruct (String.prefix "P" k).
  - simpl. f_equal. lra.
  - assert (0 < float_pow 10 xj) by (apply float_pow_pos; lra).
    simpl. rewrite bool_decide_eq_false_2 by lra. f_equal. apply log10_pow10.
Qed.

Lemma descale_scale_roundtrip_witness :
  exists d, _descale_params ["Ph"; "Rh"] [8; 1.3] = Ok d
            /\ _scale_params ["Ph"; "Rh"] d = Ok [8; 1.3].
Proof.
  apply (descale_scale_roundtrip ["Ph"; "Rh"] [8; 1.3]).
  - apply NoDup_cons. split; [| apply NoDup_cons; split; [apply not_elem_of_nil | apply NoDup_nil_2]].
    intros [=]%list_elem_of_singleton.
  - reflexivity.
Defined.

Lemma wrap_Pei_is_Some (d : gmap string R) (k : string) :
  is_Some (wrap_Pei d !! k) <-> is_Some (d !! k).
Proof.
  destruct (decide (k = "Pei")) as [-> | Hne].
  - rewrite wrap_Pei_lookup_Pei. by rewrite fmap_is_Some.
  - by rewrite wrap_Pei_lookup_ne.
Qed.

Lemma locked_params_is_Some self initial k :
  is_Some (locked_params self initial !! k)
  <-> is_Some (initial !! k) /\ k ∈ disabled_variables self.
Proof.
  unfold locked_params. split.
  - intros [v [Hv Hk]%map_lookup_filter_Some]. eauto.
  - intros [[v Hv] Hk]. exists v. by apply map_lookup_filter_Some_2.
Qed.



Lemma free_keys_present self initial k :
  k ∈ free_keys self initial -> is_Some (initial !! k).
Proof. by intros [? _]%elem_of_free_keys. Qed.

(** X15.  A free parameter whose key does not start with "P" and whose initial
    value is zero or negative makes the fit raise a ValueError before the
    optimizer is called, whatever the optimizer and the residual function:
    nothing is emitted, but the initial parameters are already stored as
    the previous fit. *)
Theorem fit_model_rejects_nonpositive ls res initial w self k v :
  initial !! k = Some v -> k ∉ disabled_variables self ->
  String.prefix "P" k = false -> v <= 0 ->
  fit_model ls res initial w self
  = (Raise ValueError, (set_previous_fit_params initial self).2)
  /\ model_manual_values (set_previous_fit_params initial self).2 = model_manual_values self
  /\ _previous_fit_params (set_previous_fit_params initial self).2 = initial.
Proof.
  intros Hv Hk Hp Hle. split; [| done].
  assert (Hs : _scale_params (free_keys self initial) initial = Raise ValueError).
  { apply scale_params_spec.
    - intros k'. apply free_keys_present.
    - exists k, v. split; [| done]. apply elem_of_free_keys. eauto. }
  unfold fit_model.
  erewrite M_bind_step by reflexivity.
  erewrite M_bind_step by reflexivity.
  apply M_bind_Raise. unfold lift. apply (f_equal2 pair); [exact Hs | reflexivity].
Qed.

Lemma fit_model_rejects_nonpositive_witness :
  fit_model_cole start_point (<["Rh" := 0]> parameters) 1e6 (builder ∅ false)
  = (Raise ValueError,
     (set_previous_fit_params (<["Rh" := 0]> parameters) (builder ∅ false)).2).
Proof.
  refine (proj1 (fit_model_rejects_nonpositive start_point _residual_cole
                   (<["Rh" := 0]> parameters) 1e6 (builder ∅ false) "Rh" 0 _ _ _ _)).
  - reflexivity.
  - apply not_elem_of_empty.
  - reflexivity.
  - lra.
Defined.

(** X16.  A fit that returns had, for every free parameter, an initial value, a
    lower and an upper bound, and for every free parameter whose key does
    not start with "P" all three strictly positive: a lower bound of zero
    on a magnitude makes every fit of that parameter fail. *)
Theorem fit_model_needs_positive_bounds ls res initial w self best self' :
  fit_model ls res initial w self = (Ok best, self') ->
  forall k, is_Some (initial !! k) -> k ∉ disabled_variables self ->
    exists v lo hi,
      initial !! k = Some v
      /\ lower_bounds self !! k = Some lo
      /\ upper_bounds self !! k = Some hi
      /\ (String.prefix "P" k = false ->
          0 < v /\ nonpos lo = false /\ nonpos hi = false /\ lo <> Fin 0).
Proof.
  intros Hfit k Hk Hn.
  apply fit_model_inv in Hfit as (x0 & lb & ub & rx & bff & Hx0 & Hb & _).
  unfold _build_bounds in Hb. cbn [lower_bounds upper_bounds set_previous_fit_params snd] in Hb.
  apply bind_Ok in Hb as (lb' & Hlb & Hb). apply bind_Ok in Hb as (ub' & Hub & _).
  assert (Hin : k ∈ free_keys self initial) by (by apply elem_of_free_keys).
  destruct (proj1 (_scale_params_iff _ _) (ex_intro _ _ Hx0) k Hin) as (v & Hv & Hpv).
  destruct (proj1 (_scale_params_iff _ _) (ex_intro _ _ Hlb) k Hin) as (lo & Hlo & Hplo).
  destruct (proj1 (_scale_params_iff _ _) (ex_intro _ _ Hub) k Hin) as (hi & Hhi & Hphi).
  exists v, lo, hi. split; [done |]. split; [done |]. split; [done |].
  intros Hp. specialize (Hpv Hp). specialize (Hplo Hp). specialize (Hphi Hp).
  split; [apply bool_decide_eq_false in Hpv; lra |]. split; [done |]. split; [done |].
  intros ->. simpl in Hplo. apply bool_decide_eq_false in Hplo. lra.
Qed.

Lemma fit_model_needs_positive_bounds_witness :
  exists best self' v lo hi,
    fit_model_cole start_point (<["Pei" := 5]> parameters) 1e6 (builder {["Pei"]} false)
    = (Ok best, self')
    /\ (<["Pei" := 5]> parameters) !! "Rh" = Some v
    /\ lower_bounds (builder {["Pei"]} false) !! "Rh" = Some lo
    /\ upper_bounds (builder {["Pei"]} false) !! "Rh" = Some hi.
Proof.
  destruct fit_locked_Pei_5 as (best & self' & Hfit & _).
  destruct (fit_model_needs_positive_bounds start_point _residual_cole
              (<["Pei" := 5]> parameters) 1e6 (builder {["Pei"]} false) best self' Hfit "Rh")
    as (v & lo & hi & Hv & Hlo & Hhi & _).
  - by eexists.
  - cbn [builder disabled_variables]. by intros [=]%elem_of_singleton.
  - exists best, self', v, lo, hi. split; [exact Hfit |]. split; [exact Hv |].
    split; [exact Hlo | exact Hhi].
Defined.

(** *** Bounds *)
Lemma set_bounds_lower cfg self k :
  lower_bounds (set_bounds cfg self) !! k
  = if decide (k = "Pei") then Some NInf
    else match cfg !! k with
         | Some (power, lo, _) => Some (Fin (if power : bool then float_pow 10 lo else lo))
         | None => lower_bounds self !! k
         end.
Proof.
  cbn [set_bounds lower_bounds]. case_decide as Hk.
  - subst. apply lookup_insert_eq.
  - rewrite lookup_insert_ne by done. rewrite lookup_union, lookup_fmap.
    destruct (cfg !! k) as [[[power lo] hi] |]; simpl.
    + by destruct (lower_bounds self !! k).
    + by destruct (lower_bounds self !! k).
Qed.

Lemma set_bounds_upper cfg self k :
  upper_bounds (set_bounds cfg self) !! k
  = if decide (k = "Pei") then Some PInf
    else match cfg !! k with
         | Some (power, _, hi) => Some (Fin (if power : bool then float_pow 10 hi else hi))
         | None => upper_bounds self !! k
         end.
Proof.
  cbn [set_bounds upper_bounds]. case_decide as Hk.
  - subst. apply lookup_insert_eq.
  - rewrite lookup_insert_ne by done. rewrite lookup_union, lookup_fmap.
    destruct (cfg !! k) as [[[power lo] hi] |]; simpl.
    + by destruct (upper_bounds self !! k).
    + by destruct (upper_bounds self !! k).
Qed.

Lemma _build_bounds_singleton self k lo hi :
  lower_bounds self !! k = Some lo -> upper_bounds self !! k = Some hi ->
  _build_bounds self [k]
  = (if String.prefix "P" k then Ok ([times10 lo], [times10 hi])
     else if nonpos lo then Raise ValueError
     else if nonpos hi then Raise ValueError
     else Ok ([log10 lo], [log10 hi])).
Proof.
  intros Hlo%getitem_Ok Hhi%getitem_Ok. unfold _build_bounds, _scale_params.
  cbn [mapM]. rewrite Hlo, Hhi. cbn [mbind result_bind].
  destruct (String.prefix "P" k); [done |].
  destruct (nonpos lo); [done |]. cbn [mbind result_bind]. by destruct (nonpos hi).
Qed.



(** *** The Gaussian prior *)
Lemma _compute_gaussian_prior_inv x_guess x0 lb ub w g prior :
  length x_guess = length x0 -> length lb = length x0 -> length ub = length x0 ->
  _compute_gaussian_prior x_guess x0 lb ub w g = Ok prior ->
  length prior = length x0
  /\ forall i xg xs l u, x_guess !! i = Some xg -> x0 !! i = Some xs ->
       lb !! i = Some l -> ub !! i = Some u ->
       exists width ratio,
         xsub u l = Ok width /\ xdiv (xg - xs) (xscale width g) = Ok ratio
         /\ prior !! i = Some (w * ratio).
Proof.
  intros Hg Hl Hu. unfold _compute_gaussian_prior, np_sub.
  rewrite !broadcast2_same_length by congruence. cbn [mbind result_bind].
  intros (widths & Hw & H)%bind_Ok.
  pose proof (mapM_length _ _ _ Hw) as Hwl. rewrite length_zip_with in Hwl.
  rewrite broadcast2_same_length in H.
  2:{ rewrite !length_map, length_zip_with. lia. }
  cbn [mbind result_bind] in H. apply bind_Ok in H as (ratios & Hr & [= <-]).
  pose proof (mapM_length _ _ _ Hr) as Hrl.
  rewrite length_zip_with, !length_map, length_zip_with in Hrl.
  split; [rewrite length_map; lia |].
  intros i xg xs l u Hxg Hxs Hli Hui.
  assert (Hb : zip ub lb !! i = Some (u, l)) by (apply lookup_zip_with_Some; eauto).
  destruct (mapM_lookup _ _ _ _ _ Hw Hb) as (width & Hwi & Hsub).
  assert (Hp : zip (map (fun '(x, y) => x - y) (zip x_guess x0))
                 (map (fun s => xscale s g) widths) !! i
               = Some (xg - xs, xscale width g)).
  { apply lookup_zip_with_Some. exists (xg - xs), (xscale width g). split; [done |].
    rewrite !list_lookup_fmap. rewrite Hwi. split; [| done].
    assert (Hz : zip x_guess x0 !! i = Some (xg, xs)) by (apply lookup_zip_with_Some; eauto).
    by rewrite Hz. }
  destruct (mapM_lookup _ _ _ _ _ Hr Hp) as (ratio & Hri & Hdiv).
  exists width, ratio. split; [done |]. split; [done |].
  by rewrite list_lookup_fmap, Hri.
Qed.

(** X18.  With the bounds that [set_bounds] has set, the Gaussian prior adds no
    pull on Pei: its residual at the coordinate of Pei is 0 at every trial
    point, because the width of Pei's bounds is infinite. *)
Theorem Pei_is_free_of_the_prior cfg self keys lb ub x_guess x0 w prior i :
  _build_bounds (set_bounds cfg self) keys = Ok (lb, ub) ->
  keys !! i = Some "Pei" ->
  length x_guess = length keys -> length x0 = length keys ->
  _compute_gaussian_prior x_guess x0 lb ub w 5 = Ok prior ->
  lb !! i = Some NInf /\ ub !! i = Some PInf
  /\ length prior = length keys
  /\ exists p, prior !! i = Some p /\ p = 0.
Proof.
  intros Hb Hi Hg H0 Hprior. unfold _build_bounds in Hb.
  apply bind_Ok in Hb as (lb' & Hlb & Hb). apply bind_Ok in Hb as (ub' & Hub & [= <- <-]).
  unfold _scale_params in Hlb, Hub.
  pose proof (mapM_length _ _ _ Hlb) as Hll. pose proof (mapM_length _ _ _ Hub) as Hul.
  destruct (mapM_lookup _ _ _ _ _ Hlb Hi) as (l & Hl & Hlv).
  destruct (mapM_lookup _ _ _ _ _ Hub Hi) as (u & Hu & Huv).
  assert (Hlo : getitem (lower_bounds (set_bounds cfg self)) "Pei" = Ok NInf).
  { apply getitem_Ok. by rewrite set_bounds_lower, decide_True. }
  assert (Hhi : getitem (upper_bounds (set_bounds cfg self)) "Pei" = Ok PInf).
  { apply getitem_Ok. by rewrite set_bounds_upper, decide_True. }
  rewrite Hlo in Hlv. rewrite Hhi in Huv. cbn in Hlv, Huv.
  injection Hlv as <-. injection Huv as <-.
  split; [done |]. split; [done |].
  destruct (_compute_gaussian_prior_inv x_guess x0 lb' ub' w 5 prior) as (Hlen & Hat);
    [congruence | congruence | congruence | exact Hprior |].
  split; [congruence |].
  destruct (lookup_lt_is_Some_2 x_guess i) as [xg Hxg].
  { rewrite Hg. by eapply lookup_lt_Some. }
  destruct (lookup_lt_is_Some_2 x0 i) as [xs Hxs].
  { rewrite H0. by eapply lookup_lt_Some. }
  destruct (Hat i xg xs NInf PInf Hxg Hxs Hl Hu) as (width & ratio & Hw & Hr & Hp).
  injection Hw as <-. injection Hr as <-.
  exists (w * 0). split; [done | ring].
Qed.

Lemma Pei_is_free_of_the_prior_witness :
  _build_bounds (set_bounds (<["Pei" := (false, -2, 2)]> ∅) (builder ∅ true)) ["Pei"]
  = Ok ([NInf], [PInf])
  /\ _compute_gaussian_prior [3] [1] [NInf] [PInf] 7 5 = Ok [7 * 0]
  /\ exists p, [7 * 0] !! 0%nat = Some p /\ p = 0.
Proof.
  split; [reflexivity |]. split; [reflexivity |].
  refine (proj2 (proj2 (proj2 (Pei_is_free_of_the_prior
                                 (<["Pei" := (false, -2, 2)]> ∅) (builder ∅ true) ["Pei"]
                                 [NInf] [PInf] [3] [1] 7 [7 * 0] 0 _ _ _ _ _))));
    reflexivity.
Defined.

(** X19.  The objective absorbs nothing but a ValueError of the residual
    function.  An error of the descaling reaches the optimizer, so does
    any other exception of the residual function, and so does the
    KeyError of the invalid-region penalty when the prior is enabled and
    the trial parameters hold no Fm. *)
Theorem residual_wrapper_propagates self residual_func free_keys locked_params
    x0 lb ub prior_weight x_free :
  (forall e, _descale_params free_keys x_free = Raise e ->
     _residual_wrapper self residual_func free_keys locked_params x0 lb ub prior_weight x_free
     = Raise e)
  /\ (forall free_params e,
        _descale_params free_keys x_free = Ok free_params ->
        residual_func (free_params ∪ locked_params) = Raise e -> e <> ValueError ->
        _residual_wrapper self residual_func free_keys locked_params x0 lb ub prior_weight
          x_free
        = Raise e)
  /\ (forall free_params model_residual prior_res,
        _descale_params free_keys x_free = Ok free_params ->
        residual_func (free_params ∪ locked_params) = Ok model_residual ->
        gaussian_prior self = true ->
        _compute_gaussian_prior x_free x0 lb ub prior_weight 5 = Ok prior_res ->
        (free_params ∪ locked_params) !! "Fm" = None ->
        _residual_wrapper self residual_func free_keys locked_params x0 lb ub prior_weight
          x_free
        = Raise KeyError).
Proof.
  split; [| split].
  - intros e Hd. unfold _residual_wrapper. by rewrite Hd.
  - intros fp e Hd Hres He. unfold _residual_wrapper. rewrite Hd. cbn [mbind result_bind].
    rewrite Hres. by destruct e.
  - intros fp r p Hd Hres Hg Hp HFm. unfold _residual_wrapper. rewrite Hd.
    cbn [mbind result_bind]. rewrite Hres, Hg, Hp. cbn [mbind result_bind].
    unfold _compute_invalid_guess_penalty, _invalid_guess, getitem. by rewrite HFm.
Qed.

(** *** The Cole residual *)
Lemma _weight_function_inv self params weight :
  _weight_function self params = Ok weight ->
  exists Ph Pm Pl Pef,
    params !! "Ph" = Some Ph /\ params !! "Pm" = Some Pm /\ params !! "Pl" = Some Pl
    /\ params !! "Pef" = Some Pef
    /\ weight = 1 * (1 + base_weight self * exp (exp_weight self * Ph))
                * (1 + base_weight self * exp (exp_weight self * Pm))
                * (1 + base_weight self * exp (exp_weight self * Pl))
                * (1 + base_weight self * exp (exp_weight self * Pef)).
Proof.
  unfold _weight_function. cbn [foldl]. cbn [mbind result_bind].
  intros H.
  apply bind_Ok in H as (w3 & H3 & H). apply bind_Ok in H as (Pef & HPef%getitem_Ok & [= <-]).
  apply bind_Ok in H3 as (w2 & H2 & H). apply bind_Ok in H as (Pl & HPl%getitem_Ok & [= <-]).
  apply bind_Ok in H2 as (w1 & H1 & H). apply bind_Ok in H as (Pm & HPm%getitem_Ok & [= <-]).
  apply bind_Ok in H1 as (Ph & HPh%getitem_Ok & [= <-]).
  exists Ph, Pm, Pl, Pef. done.
Qed.

Lemma _weight_function_ge_1 self params weight :
  0 <= base_weight self -> _weight_function self params = Ok weight -> 1 <= weight.
Proof.
  intros Hb Hw. apply _weight_function_inv in Hw as (Ph & Pm & Pl & Pef & _ & _ & _ & _ & ->).
  assert (forall v, 1 <= 1 + base_weight self * exp (exp_weight self * v)) as Hf.
  { intros v. pose proof (exp_pos (exp_weight self * v)). nra. }
  pose proof (Hf Ph). pose proof (Hf Pm). pose proof (Hf Pl). pose proof (Hf Pef).
  rewrite Rmult_1_l.
  set (a := 1 + _ * exp (_ * Ph)) in *. set (b := 1 + _ * exp (_ * Pm)) in *.
  set (c := 1 + _ * exp (_ * Pl)) in *. set (d := 1 + _ * exp (_ * Pef)) in *.
  assert (1 <= a * b) by nra. assert (1 <= a * b * c) by nra. nra.
Qed.

Lemma differences_vanish (a b : list R) :
  length a = length b ->
  Forall (fun v => v = 0) (map (fun '(x, y) => x - y) (zip a b)) <-> a = b.
Proof.
  revert b. induction a as [| x a IH]; intros [| y b] Hlen; try done.
  simpl. rewrite Forall_cons, IH by (by injection Hlen). split.
  - intros [Hx ->]. f_equal. lra.
  - intros [= -> ->]. split; [lra | done].
Qed.

Lemma scaled_vanish (w : R) (l : list R) :
  w <> 0 -> Forall (fun v => v = 0) (map (fun v => v * w) l) <-> Forall (fun v => v = 0) l.
Proof.
  intros Hw. rewrite Forall_map. apply Forall_iff. intros v. simpl. split.
  - intros Hv. destruct (Rmult_integral _ _ Hv); [done | done].
  - intros ->. ring.
Qed.

(** X20.  When the two measured arrays have the length of the frequency
    array, the Cole residual has two entries per frequency, and when the
    base weight is not negative it is the zero vector exactly when the
    model impedance equals the measured one at every frequency, in its
    real and in its imaginary part: the weight never hides a misfit. *)
Theorem cole_residual_vanishes_iff_exact self params freq_array exp_real exp_imag
    z z_rock circuit' residual :
  _experiment_data self !! "freq" = Some freq_array ->
  _experiment_data self !! "Z_real" = Some exp_real ->
  _experiment_data self !! "Z_imag" = Some exp_imag ->
  length exp_real = length freq_array -> length exp_imag = length freq_array ->
  run_model params freq_array false (_model_circuit self) = (Ok (z, z_rock), circuit') ->
  0 <= base_weight self ->
  _residual_cole self params = Ok residual ->
  length residual = (2 * length freq_array)%nat
  /\ (Forall (fun v => v = 0) residual <-> map real z = exp_real /\ map imag z = exp_imag).
Proof.
  intros Hf%getitem_Ok Hr%getitem_Ok Hi%getitem_Ok Hlr Hli Hrun Hb.
  pose proof (run_model_length _ _ _ _ _ _ _ Hrun) as Hlz.
  unfold _residual_cole. rewrite Hf. cbn [mbind result_bind]. rewrite Hrun.
  cbn [fst mbind result_bind]. rewrite Hr, Hi. cbn [mbind result_bind].
  destruct (_weight_function self params) as [weight |] eqn:Hw; [| done].
  cbn [mbind result_bind]. pose proof (_weight_function_ge_1 _ _ _ Hb Hw) as Hw1.
  unfold np_sub. rewrite !broadcast2_same_length by (rewrite length_map; congruence).
  cbn [mbind result_bind]. intros [= <-]. split.
  - rewrite length_app, !length_map, !length_zip_with, !length_map. lia.
  - rewrite Forall_app, !scaled_vanish by lra.
    rewrite !differences_vanish by (rewrite length_map; congruence). done.
Qed.

Lemma _residual_cole_Ok self params freq_array exp_real exp_imag z z_rock circuit'
    Ph Pm Pl Pef :
  _experiment_data self !! "freq" = Some freq_array ->
  _experiment_data self !! "Z_real" = Some exp_real ->
  _experiment_data self !! "Z_imag" = Some exp_imag ->
  length exp_real = length freq_array -> length exp_imag = length freq_array ->
  run_model params freq_array false (_model_circuit self) = (Ok (z, z_rock), circuit') ->
  params !! "Ph" = Some Ph -> params !! "Pm" = Some Pm -> params !! "Pl" = Some Pl ->
  params !! "Pef" = Some Pef ->
  exists residual, _residual_cole self params = Ok residual.
Proof.
  intros Hf%getitem_Ok Hr%getitem_Ok Hi%getitem_Ok Hlr Hli Hrun
    HPh%getitem_Ok HPm%getitem_Ok HPl%getitem_Ok HPef%getitem_Ok.
  pose proof (run_model_length _ _ _ _ _ _ _ Hrun) as Hlz.
  unfold _residual_cole. rewrite Hf. cbn [mbind result_bind]. rewrite Hrun.
  cbn [fst mbind result_bind]. rewrite Hr, Hi. cbn [mbind result_bind].
  unfold _weight_function. cbn [foldl]. rewrite HPh, HPm, HPl, HPef. cbn [mbind result_bind].
  unfold np_sub. rewrite !broadcast2_same_length by (rewrite length_map; congruence).
  cbn [mbind result_bind]. eauto.
Qed.

Lemma cole_residual_vanishes_iff_exact_witness :
  exists z z_rock circuit' residual,
    run_model parameters [1; 10; 100] false (ModelCircuitSeries false ∅ ∅ ∅)
    = (Ok (z, z_rock), circuit')
    /\ _residual_cole (builder ∅ false) parameters = Ok residual
    /\ length residual = 6%nat.
Proof.
  destruct (parameters_run_model [1; 10; 100] ∅ ∅ ∅) as (z & z_rock & circuit' & Hrun).
  { repeat constructor; lra. }
  destruct (_residual_cole_Ok (builder ∅ false) parameters [1; 10; 100] [100; 90; 80]
              [-5; -10; -5] z z_rock circuit' 0.8 0.6 0.4 0.7
              eq_refl eq_refl eq_refl eq_refl eq_refl Hrun eq_refl eq_refl eq_refl eq_refl)
    as [residual Hres].
  exists z, z_rock, circuit', residual. split; [exact Hrun |]. split; [exact Hres |].
  refine (proj1 (cole_residual_vanishes_iff_exact (builder ∅ false) parameters [1; 10; 100]
                   [100; 90; 80] [-5; -10; -5] z z_rock circuit' residual
                   eq_refl eq_refl eq_refl eq_refl eq_refl Hrun _ Hres)).
  cbn [builder base_weight]. lra.
Defined.

Lemma float_mod_4_shift (x : R) (k : Z) : float_mod (x + 4 * IZR k) 4 = float_mod x 4.
Proof.
  unfold float_mod.
  replace ((x + 4 * IZR k) / 4) with (x / 4 + IZR k) by field.
  rewrite Zfloor_addz, plus_IZR. ring.
Qed.

(** X21.  In exact real arithmetic the wrap of Pei is a reduction modulo 4:
    the wrapped value differs from the value by a whole multiple of 4,
    two values that differ by a whole multiple of 4 are wrapped to the
    same value, and wrapping a wrapped dictionary changes nothing. *)
Theorem wrap_Pei_is_reduction_mod_4 (d : gmap string R) (x : R) (k : Z) :
  (exists n : Z, float_mod (x + 1) 4 - 1 = x - 4 * IZR n)
  /\ wrap_Pei (<["Pei" := x + 4 * IZR k]> d) = wrap_Pei (<["Pei" := x]> d)
  /\ wrap_Pei (wrap_Pei d) = wrap_Pei d.
Proof.
  split; [| split].
  - exists (Zfloor ((x + 1) / 4)). unfold float_mod. ring.
  - unfold wrap_Pei. rewrite !lookup_insert_eq, !insert_insert_eq. f_equal.
    replace (x + 4 * IZR k + 1) with (x + 1 + 4 * IZR k) by ring.
    by rewrite float_mod_4_shift.
  - unfold wrap_Pei at 2. destruct (d !! "Pei") as [v |] eqn:Hv.
    + unfold wrap_Pei. rewrite lookup_insert_eq, insert_insert_eq, Hv.
      by rewrite (wrap_fixed _ (wrap_range v)).
    + unfold wrap_Pei. by rewrite Hv.
Qed.

End FitBuilderFurther.

(** ** The time-domain transform, further *)

Section TimeDomainBuilderFurther.
Import ModelCircuits TimeDomainBuilder Examples TransformExamples.

(** *** Searching the time grid *)
Lemma searchsorted_right_all (a : list R) (v : R) :
  Forall (fun x => x <= v) a -> searchsorted_right a v = length a.
Proof.
  induction 1 as [| x a Hx _ IH]; simpl; [done |]. by rewrite decide_True, IH.
Qed.

Lemma searchsorted_right_some (a : list R) (v : R) (i : nat) (x : R) :
  a !! i = Some x -> v < x -> (searchsorted_right a v <= i)%nat.
Proof.
  revert i. induction a as [| y a IH]; intros i; [done |]. simpl.
  destruct i as [| i]; simpl.
  - intros [= ->] Hv. rewrite decide_False by lra. lia.
  - intros Hi Hv. case_decide; [| lia]. specialize (IH i Hi Hv). lia.
Qed.

Lemma searchsorted_left_le (a : list R) (v : R) : (searchsorted_left a v <= length a)%nat.
Proof. induction a as [| x a IH]; simpl; [lia |]. case_decide; lia. Qed.

Lemma searchsorted_left_some (a : list R) (v : R) (i : nat) (x : R) :
  a !! i = Some x -> v <= x -> (searchsorted_left a v <= i)%nat.
Proof.
  revert i. induction a as [| y a IH]; intros i; [done |]. simpl.
  destruct i as [| i]; simpl.
  - intros [= ->] Hv. rewrite decide_False by lra. lia.
  - intros Hi Hv. case_decide; [| lia]. specialize (IH i Hi Hv). lia.
Qed.

Lemma searchsorted_left_count (a : list R) (v : R) :
  forall k : nat,
    (k <= length a)%nat ->
    (forall i x, (i < k)%nat -> a !! i = Some x -> x < v) ->
    (forall x, a !! k = Some x -> v <= x) ->
    searchsorted_left a v = k.
Proof.
  induction a as [| y a IH]; intros k Hk Hlt Hge; simpl in *.
  - lia.
  - destruct k as [| k].
    + rewrite decide_False; [done |]. specialize (Hge y eq_refl). lra.
    + rewrite decide_True by (apply (Hlt 0%nat); [lia | done]).
      f_equal. apply IH; [lia | |].
      * intros i x Hi Hx. apply (Hlt (S i)); [lia | done].
      * intros x Hx. by apply Hge.
Qed.

Lemma time_grid_lookup (dt : R) (n i : nat) :
  (i < n)%nat -> map (fun i => INR i * dt) (seq 0 n) !! i = Some (INR i * dt).
Proof. intros Hi. by rewrite list_lookup_fmap, lookup_seq_lt. Qed.

Lemma time_grid_le (dt : R) (n : nat) (v : R) :
  0 < dt -> (0 < n)%nat -> INR (n - 1) * dt <= v ->
  Forall (fun x => x <= v) (map (fun i => INR i * dt) (seq 0 n)).
Proof.
  intros Hdt Hn Hlast. apply Forall_map, Forall_forall.
  intros i [_ Hi]%elem_of_seq. simpl in *.
  assert (INR i <= INR (n - 1)) by (apply le_INR; lia). nra.
Qed.

Lemma fourier_pulse_returns_iff irfft butter filtfilt z_complex dt raw impulse :
  irfft z_complex = Ok raw ->
  filtfilt (butter 2%nat 0.45).1 (butter 2%nat 0.45).2 raw = Ok impulse ->
  0 < dt -> impulse <> [] ->
  (2 < INR (length impulse - 1) * dt ->
   exists t volt_down volt_up,
     _fourier_transform_pulse irfft butter filtfilt z_complex dt = Ok (t, volt_down, volt_up)
     /\ length t = length impulse
     /\ length volt_down = length impulse
     /\ length volt_up = length impulse)
  /\ (INR (length impulse - 1) * dt <= 2 ->
      _fourier_transform_pulse irfft butter filtfilt z_complex dt = Raise IndexError).
Proof.
  intros Hraw Himp Hdt Hne.
  assert (Hn : (0 < length impulse)%nat) by (destruct impulse; [done | simpl; lia]).
  unfold _fourier_transform_pulse. destruct (butter 2%nat 0.45) as [b a]. simpl in Himp.
  rewrite Hraw. cbn [mbind result_bind]. rewrite Himp. cbn [mbind result_bind].
  pose proof (volt_up_length impulse) as Hvl. rewrite Nat.max_r in Hvl by lia.
  split.
  - intros Hlast.
    set (t := map (fun i => INR i * dt) (seq 0 (length impulse))).
    assert (Hidx : (searchsorted_right t 2 <= length impulse - 1)%nat).
    { eapply searchsorted_right_some; [apply time_grid_lookup; lia | exact Hlast]. }
    destruct (lookup_lt_is_Some_2 (0 :: removelast (np_cumsum impulse))
                (searchsorted_right t 2))
      as [reference Href]; [rewrite Hvl; lia |].
    apply index_Ok in Href. rewrite Href. cbn [mbind result_bind].
    eexists _, _, _. split; [reflexivity |].
    subst t. rewrite !length_map, length_seq, Hvl. done.
  - intros Hlast.
    rewrite searchsorted_right_all.
    2:{ apply time_grid_le; [done | done | done]. }
    rewrite length_map, length_seq. unfold index.
    rewrite lookup_ge_None_2; [done |]. rewrite Hvl. lia.
Qed.

(** X22.  The pulse transform needs a sample later than 2 time-units.  For a
    positive time step and a filtered impulse of n >= 1 samples it
    returns, with three arrays of n samples, exactly when the last sample
    time (n - 1) * dt exceeds 2; otherwise the reference sample does not
    exist and the transform raises an IndexError. *)
Theorem pulse_needs_a_sample_past_two irfft butter filtfilt z_complex dt raw impulse :
  irfft z_complex = Ok raw ->
  filtfilt (butter 2%nat 0.45).1 (butter 2%nat 0.45).2 raw = Ok impulse ->
  0 < dt -> impulse <> [] ->
  (2 < INR (length impulse - 1) * dt ->
   exists t volt_down volt_up,
     _fourier_transform_pulse irfft butter filtfilt z_complex dt = Ok (t, volt_down, volt_up)
     /\ length t = length impulse
     /\ length volt_down = length impulse
     /\ length volt_up = length impulse)
  /\ (INR (length impulse - 1) * dt <= 2 ->
      _fourier_transform_pulse irfft butter filtfilt z_complex dt = Raise IndexError).
Proof.
  exact (fourier_pulse_returns_iff irfft butter filtfilt z_complex dt raw impulse).
Qed.

Lemma pulse_needs_a_sample_past_two_witness :
  _fourier_transform_pulse ones_irfft unit_butter unit_filtfilt dc_spectrum 0.1
  = Raise IndexError.
Proof.
  refine (proj2 (pulse_needs_a_sample_past_two ones_irfft unit_butter unit_filtfilt
                   dc_spectrum 0.1 (repeat 1 12) (repeat 1 12) eq_refl eq_refl _ _) _).
  - lra.
  - discriminate.
  - simpl. lra.
Defined.

Lemma integration_variables_inv t v_down self self' :
  _integration_variables t v_down self = (Ok tt, self') ->
  N self' = N self /\ T self' = T self
  /\ (forall key s,
        (key, s) ∈ [("V(.1ms)", 0.0001); ("V(1ms)", 0.001); ("V(10)", 0.01); ("V(100)", 0.1);
                    ("V(200)", 0.2); ("V(400)", 0.4); ("V(800)", 0.8); ("V(1.2s)", 1.2);
                    ("V(1.6s)", 1.6)] ->
        exists v, v_down !! searchsorted_left t s = Some v
                  /\ _integral_variables self' !! key = Some v)
  /\ (forall k,
        k ∉ ["V(.1ms)"; "V(1ms)"; "V(10)"; "V(100)"; "V(200)"; "V(400)"; "V(800)";
             "V(1.2s)"; "V(1.6s)"] ->
        _integral_variables self' !! k = _integral_variables self !! k).
Proof.
  unfold _integration_variables. cbn [zip zip_with foldl]. intros H.
  apply M_bind_Ok in H as ([] & s8 & H & H9).
  apply M_bind_Ok in H as ([] & s7 & H & H8).
  apply M_bind_Ok in H as ([] & s6 & H & H7).
  apply M_bind_Ok in H as ([] & s5 & H & H6).
  apply M_bind_Ok in H as ([] & s4 & H & H5).
  apply M_bind_Ok in H as ([] & s3 & H & H4).
  apply M_bind_Ok in H as ([] & s2 & H & H3).
  apply M_bind_Ok in H as ([] & s1 & H & H2).
  apply M_bind_Ok in H as ([] & s0 & [= <-] & H1).
  apply lift_bind_Ok in H1 as (v1 & Hv1%index_Ok & [= <-]).
  apply lift_bind_Ok in H2 as (v2 & Hv2%index_Ok & [= <-]).
  apply lift_bind_Ok in H3 as (v3 & Hv3%index_Ok & [= <-]).
  apply lift_bind_Ok in H4 as (v4 & Hv4%index_Ok & [= <-]).
  apply lift_bind_Ok in H5 as (v5 & Hv5%index_Ok & [= <-]).
  apply lift_bind_Ok in H6 as (v6 & Hv6%index_Ok & [= <-]).
  apply lift_bind_Ok in H7 as (v7 & Hv7%index_Ok & [= <-]).
  apply lift_bind_Ok in H8 as (v8 & Hv8%index_Ok & [= <-]).
  apply lift_bind_Ok in H9 as (v9 & Hv9%index_Ok & [= <-]).
  cbn [N T _integral_variables].
  split; [done |]. split; [done |]. split.
  - intros key s Hin.
    repeat (apply elem_of_cons in Hin as [[= -> ->] | Hin];
            [eexists; split; [eassumption |];
             rewrite ?lookup_insert_ne by done; apply lookup_insert_eq |]).
    by apply elem_of_nil in Hin.
  - intros k Hk. rewrite !lookup_insert_ne; [done | ..];
      intros <-; apply Hk; set_unfold; tauto.
Qed.

Lemma integration_variables_Ok t v_down self :
  (forall s, s <= 1.6 -> (searchsorted_left t s < length v_down)%nat) ->
  exists self', _integration_variables t v_down self = (Ok tt, self').
Proof.
  intros Hidx. unfold _integration_variables. cbn [zip zip_with foldl].
  assert (Hat : forall s, s <= 1.6 -> exists v, index v_down (searchsorted_left t s) = Ok v).
  { intros s Hs. destruct (lookup_lt_is_Some_2 v_down _ (Hidx s Hs)) as [v Hv].
    exists v. by apply index_Ok. }
  destruct (Hat 0.0001) as [v1 Hv1]; [lra |]. destruct (Hat 0.001) as [v2 Hv2]; [lra |].
  destruct (Hat 0.01) as [v3 Hv3]; [lra |]. destruct (Hat 0.1) as [v4 Hv4]; [lra |].
  destruct (Hat 0.2) as [v5 Hv5]; [lra |]. destruct (Hat 0.4) as [v6 Hv6]; [lra |].
  destruct (Hat 0.8) as [v7 Hv7]; [lra |]. destruct (Hat 1.2) as [v8 Hv8]; [lra |].
  destruct (Hat 1.6) as [v9 Hv9]; [lra |].
  unfold mbind, M_bind, mret, M_ret, lift.
  rewrite Hv1. cbn [set_integral_variable]. rewrite Hv2. cbn [set_integral_variable].
  rewrite Hv3. cbn [set_integral_variable]. rewrite Hv4. cbn [set_integral_variable].
  rewrite Hv5. cbn [set_integral_variable]. rewrite Hv6. cbn [set_integral_variable].
  rewrite Hv7. cbn [set_integral_variable]. rewrite Hv8. cbn [set_integral_variable].
  rewrite Hv9. cbn [set_integral_variable]. eauto.
Qed.

Lemma searchsorted_left_first (a : list R) (v : R) (i : nat) (x : R) :
  a !! i = Some x -> (i < searchsorted_left a v)%nat -> x < v.
Proof.
  revert i. induction a as [| y a IH]; intros i; [done |]. simpl.
  case_decide as Hy; [| lia]. destruct i as [| i]; simpl.
  - by intros [= ->].
  - intros Hi Hlt. apply (IH i Hi). lia.
Qed.

Lemma searchsorted_left_at (a : list R) (v x : R) :
  a !! searchsorted_left a v = Some x -> v <= x.
Proof.
  induction a as [| y a IH]; simpl; [done |].
  case_decide as Hy; [exact IH |]. intros [= <-]. lra.
Qed.

(** X23.  What [_integration_variables] reads and writes, when it returns, on a
    time grid of step dt > 0: for each of its nine keys, of time s, the
    falling response at the first sample whose time is not below s (every
    earlier sample time is below s); N, T and every other entry are as
    before. *)
Theorem integration_variables_written n dt v_down self self' :
  0 < dt ->
  let t := map (fun i => INR i * dt) (seq 0 n) in
  _integration_variables t v_down self = (Ok tt, self') ->
  N self' = N self /\ T self' = T self
  /\ (forall key s,
        (key, s) ∈ [("V(.1ms)", 0.0001); ("V(1ms)", 0.001); ("V(10)", 0.01); ("V(100)", 0.1);
                    ("V(200)", 0.2); ("V(400)", 0.4); ("V(800)", 0.8); ("V(1.2s)", 1.2);
                    ("V(1.6s)", 1.6)] ->
        exists index_ v,
          index_ = searchsorted_left t s
          /\ v_down !! index_ = Some v
          /\ _integral_variables self' !! key = Some v
          /\ (forall i, (i < index_)%nat -> (i < n)%nat -> INR i * dt < s)
          /\ ((index_ < n)%nat -> s <= INR index_ * dt))
  /\ (forall k,
        k ∉ ["V(.1ms)"; "V(1ms)"; "V(10)"; "V(100)"; "V(200)"; "V(400)"; "V(800)";
             "V(1.2s)"; "V(1.6s)"] ->
        _integral_variables self' !! k = _integral_variables self !! k).
Proof.
  intros Hdt t Hrun.
  destruct (integration_variables_inv _ _ _ _ Hrun) as (HN & HT & Hkeys & Hother).
  split; [exact HN |]. split; [exact HT |]. split; [| exact Hother].
  intros key s Hin. destruct (Hkeys key s Hin) as (v & Hv & Hself).
  exists (searchsorted_left t s), v. split; [done |]. split; [done |]. split; [done |].
  split.
  - intros i Hi Hn. apply (searchsorted_left_first t s i); [| done].
    subst t. by apply time_grid_lookup.
  - intros Hn. apply (searchsorted_left_at t). subst t. by apply time_grid_lookup.
Qed.

Lemma integration_variables_written_witness :
  exists self' v,
    _integration_variables (map (fun i => INR i * 1) (seq 0 3)) [5; 6; 7] __init__
    = (Ok tt, self')
    /\ _integral_variables self' !! "V(1.6s)" = Some v.
Proof.
  destruct (integration_variables_Ok (map (fun i => INR i * 1) (seq 0 3)) [5; 6; 7] __init__)
    as [self' Hrun].
  { intros s Hs. apply Nat.le_lt_trans with 2%nat; [| simpl; lia].
    apply (searchsorted_left_some _ _ 2%nat (INR 2 * 1)); [done | simpl; lra]. }
  destruct (integration_variables_written 3 1 [5; 6; 7] __init__ self' ltac:(lra) Hrun)
    as (_ & _ & Hkeys & _).
  destruct (Hkeys "V(1.6s)" 1.6) as (index_ & v & _ & _ & Hself & _).
  { set_unfold. tauto. }
  exists self', v. split; [exact Hrun | exact Hself].
Defined.

Lemma Ok_inj {A} (a b : A) : Ok a = Ok b -> a = b.
Proof. by intros [= ->]. Qed.

Lemma pow2_14 : (2 ^ 14 = 2 * 2 ^ 13)%nat.
Proof. apply Nat.pow_succ_r'. Qed.

Lemma half_pow2_14 : (2 ^ 14 / 2 = 2 ^ 13)%nat.
Proof. rewrite pow2_14, Nat.mul_comm. apply Nat.div_mul. lia. Qed.

Lemma INR_pow2_13 : INR (2 ^ 13) = 8192.
Proof. rewrite pow_INR. simpl. lra. Qed.

Lemma INR_pow2_14 : INR (2 ^ 14) = 16384.
Proof. rewrite pow_INR. simpl. lra. Qed.

Lemma pow2_13_pos : (0 < 2 ^ 13)%nat.
Proof. apply Nat.neq_0_lt_0, Nat.pow_nonzero. lia. Qed.

Lemma rock_spectrum_length params freq_even circuit z circuit' :
  rock_spectrum params freq_even circuit = (Ok z, circuit') -> length z = length freq_even.
Proof.
  intros (z_raw & z0 & Hrun & Hz0 & ->)%rock_spectrum_inv.
  apply run_rock_length in Hrun. rewrite <- Hrun.
  destruct z_raw; [done | reflexivity].
Qed.

(** The index at which [run_time_domain] cuts its arrays: on the time grid
    of 2^14 samples of step 4 / 2^14 the first sample time not below 2 is
    sample 2^13, whose time is exactly 2. *)
Lemma half_window_index :
  let t := map (fun i => INR i * (INR 4 / INR (2 ^ 14))) (seq 0 (2 ^ 14)) in
  searchsorted_left t 2 = (2 ^ 13)%nat
  /\ t !! (2 ^ 13)%nat = Some 2.
Proof.
  assert (Hdt : INR 4 / INR (2 ^ 14) = 4 / 16384) by (rewrite INR_pow2_14; simpl; lra).
  rewrite Hdt. intros t.
  assert (Hat : t !! (2 ^ 13)%nat = Some 2).
  { subst t. rewrite time_grid_lookup by (rewrite pow2_14; pose proof pow2_13_pos; lia).
    f_equal. rewrite INR_pow2_13. lra. }
  split; [| exact Hat].
  apply searchsorted_left_count.
  - subst t. rewrite length_map, length_seq, pow2_14. lia.
  - intros i x Hi Hx. subst t.
    rewrite time_grid_lookup in Hx by (rewrite pow2_14; lia). injection Hx as <-.
    apply lt_INR in Hi. rewrite INR_pow2_13 in Hi. lra.
  - intros x Hx. rewrite Hat in Hx. injection Hx as <-. lra.
Qed.

(** X24.  With N = 2^14 and T = 4, an inverse real FFT that returns 2 (m - 1)
    samples for m bins and a filter that keeps the length, the four arrays
    [run_time_domain] returns all have 2^13 + 1 = 8193 entries: the whole
    frequency grid, and the time axis and the two responses from time 0 up
    to and including time 2, half the transform's time range. *)
Theorem time_domain_window irfft butter filtfilt params self circuit
    freq t volt_down volt_up self' circuit' :
  N self = (2 ^ 14)%nat -> T self = 4%nat ->
  (forall z raw, irfft z = Ok raw -> length raw = (2 * (length z - 1))%nat) ->
  (forall b a x y, filtfilt b a x = Ok y -> length y = length x) ->
  run_time_domain irfft butter filtfilt params self circuit
  = (Ok (freq, t, volt_down, volt_up), self', circuit') ->
  length freq = (2 ^ 13 + 1)%nat
  /\ length t = (2 ^ 13 + 1)%nat
  /\ length volt_down = (2 ^ 13 + 1)%nat
  /\ length volt_up = (2 ^ 13 + 1)%nat
  /\ frequency_grid self = Ok freq
  /\ t !! 0%nat = Some 0
  /\ t !! (2 ^ 13)%nat = Some 2.
Proof.
  intros HN HT Hirfft Hfilt Hrun. unfold run_time_domain in Hrun.
  rewrite HN, HT in Hrun.
  replace (INR (4 / 2)) with 2 in Hrun by (simpl; lra).
  destruct (float_div (INR 4) (INR (2 ^ 14))) as [dt |] eqn:Hdt; [| done].
  apply float_div_inv in Hdt as [_ ->].
  destruct (frequency_grid self) as [freq_even |] eqn:Hgrid; [| done].
  destruct (rock_spectrum params freq_even circuit) as [[z |] c1] eqn:Hrock; [| done].
  destruct (_fourier_transform_pulse irfft butter filtfilt z _) as [[[t0 vd] vu] |] eqn:Hp;
    [| done].
  destruct (_integration_variables t0 vd self) as [[[] |] s1] eqn:Hint; [| done].
  injection Hrun as <- <- <- <- <- <-.
  (* lengths *)
  destruct (frequency_grid_spec self) as (grid & Hgrid' & Hlen & _).
  { rewrite HT. lia. } { rewrite HN, pow2_14. pose proof pow2_13_pos. lia. }
  rewrite Hgrid in Hgrid'. injection Hgrid' as <-.
  rewrite HN, half_pow2_14 in Hlen.
  pose proof (rock_spectrum_length _ _ _ _ _ Hrock) as Hz. rewrite Hlen in Hz.
  apply _fourier_transform_pulse_inv in Hp
    as (raw & impulse & reference & Hraw & Himp & Ht & Hvu & _ & Hvd).
  apply Hirfft in Hraw. apply Hfilt in Himp.
  assert (Hn : length impulse = (2 ^ 14)%nat).
  { rewrite Himp, Hraw, Hz, pow2_14. lia. }
  rewrite Hn in Ht.
  assert (Hlvu : length vu = (2 ^ 14)%nat).
  { rewrite Hvu, volt_up_length, Hn, pow2_14. pose proof pow2_13_pos. lia. }
  assert (Hlvd : length vd = (2 ^ 14)%nat) by (by rewrite Hvd, length_map).
  assert (Hlt : length t0 = (2 ^ 14)%nat) by (by rewrite Ht, length_map, length_seq).
  destruct half_window_index as [Hidx Hat]. rewrite <- Ht in Hidx, Hat.
  rewrite Hidx.
  assert (Hcut : (2 ^ 13 + 1 <= 2 ^ 14)%nat) by (rewrite pow2_14; pose proof pow2_13_pos; lia).
  rewrite !length_take, Hlen, Hlt, Hlvd, Hlvu.
  split; [lia |]. split; [lia |]. split; [lia |]. split; [lia |].
  split; [by rewrite take_ge by lia |]. split.
  - rewrite lookup_take_lt by lia. rewrite Ht, time_grid_lookup by (rewrite pow2_14; lia).
    f_equal. simpl. lra.
  - rewrite lookup_take_lt by lia. exact Hat.
Qed.

Lemma parameters_run_time_domain :
  exists out self' circuit',
    run_time_domain even_irfft unit_butter unit_filtfilt parameters __init__
      (ModelCircuitSeries false ∅ ∅ ∅)
    = (Ok out, self', circuit').
Proof.
  destruct parameters_rock_spectrum as (freq_even & z & circuit' & Hgrid & Hrock).
  destruct (frequency_grid_spec __init__) as (grid & Hgrid' & Hlen & _).
  { simpl. lia. } { cbn [N __init__]. rewrite pow2_14. pose proof pow2_13_pos. lia. }
  rewrite Hgrid in Hgrid'. injection Hgrid' as <-.
  cbn [N __init__] in Hlen. rewrite half_pow2_14 in Hlen.
  pose proof (rock_spectrum_length _ _ _ _ _ Hrock) as Hz. rewrite Hlen in Hz.
  assert (Hdt : INR 4 / INR (2 ^ 14) = 4 / 16384) by (rewrite INR_pow2_14; simpl; lra).
  set (impulse := repeat 1 (2 * (length z - 1))).
  assert (Hn : length impulse = (2 ^ 14)%nat).
  { subst impulse. rewrite repeat_length, Hz, pow2_14. lia. }
  destruct (fourier_pulse_returns_iff even_irfft unit_butter unit_filtfilt z
              (INR 4 / INR (2 ^ 14)) impulse impulse eq_refl eq_refl) as [Hpulse _].
  { rewrite Hdt. lra. }
  { intros Hnil. rewrite Hnil, pow2_14 in Hn. cbn [length] in Hn.
    pose proof pow2_13_pos. lia. }
  destruct Hpulse as (t & vd & vu & Hp & Hlt & Hlvd & Hlvu).
  { rewrite Hn, Hdt, minus_INR, INR_pow2_14 by (rewrite pow2_14; pose proof pow2_13_pos; lia).
    simpl. lra. }
  pose proof (_fourier_transform_pulse_inv _ _ _ _ _ _ _ _ Hp)
    as (raw & impulse' & reference & Hraw & Himp & Ht & _).
  assert (raw = impulse) as ->.
  { unfold even_irfft in Hraw. apply Ok_inj in Hraw. by rewrite <- Hraw. }
  assert (impulse' = impulse) as ->.
  { unfold unit_filtfilt in Himp. apply Ok_inj in Himp. by rewrite <- Himp. }
  rewrite Hn in Ht.
  destruct half_window_index as [_ Hat]. rewrite <- Ht in Hat.
  destruct (integration_variables_Ok t vd __init__) as [self' Hint].
  { intros s Hs. apply Nat.le_lt_trans with (2 ^ 13)%nat.
    - apply (searchsorted_left_some _ _ _ 2 Hat). lra.
    - rewrite Hlvd, Hn, pow2_14. pose proof pow2_13_pos. lia. }
  unfold run_time_domain. cbn [N T __init__].
  rewrite float_div_Ok by (rewrite INR_pow2_14; lra).
  change (frequency_grid {| N := 2 ^ 14; T := 4; _integral_variables := ∅ |})
    with (frequency_grid __init__).
  rewrite Hgrid, Hrock, Hp.
  change (_integration_variables t vd {| N := 2 ^ 14; T := 4; _integral_variables := ∅ |})
    with (_integration_variables t vd __init__).
  rewrite Hint. eauto.
Qed.

Lemma time_domain_dc_bin_is_real_witness :
  exists freq_even z_raw z0 out self' circuit',
    length freq_even = Z.to_nat 8193
    /\ freq_even !! 0%nat = Some 0.001
    /\ run_rock parameters freq_even false (ModelCircuitSeries false ∅ ∅ ∅)
       = (Ok z_raw, circuit')
    /\ z_raw !! 0%nat = Some z0
    /\ _fourier_transform_pulse even_irfft unit_butter unit_filtfilt
         (c_of_R (real z0) :: tail z_raw) (INR 4 / INR (2 ^ 14))
       <> Raise IndexError
    /\ run_time_domain even_irfft unit_butter unit_filtfilt parameters __init__
         (ModelCircuitSeries false ∅ ∅ ∅)
       = (Ok out, self', circuit').
Proof.
  destruct (time_domain_dc_bin_is_real even_irfft unit_butter unit_filtfilt parameters
              __init__ (ModelCircuitSeries false ∅ ∅ ∅) eq_refl eq_refl)
    as (freq_even & _ & Hlen & H0 & _ & Hrun).
  destruct parameters_run_time_domain as (out & self' & circuit'' & Htd).
  destruct (run_rock parameters freq_even false (ModelCircuitSeries false ∅ ∅ ∅))
    as [[z_raw | e] circuit'] eqn:Hrock.
  - destruct Hrun as (z0 & z_complex & Hz0 & -> & _ & Hrun).
    pose proof Htd as Heq. rewrite Hrun in Heq. cbn [N T __init__] in Heq.
    exists freq_even, z_raw, z0, out, self', circuit'.
    split; [exact Hlen |]. split; [exact H0 |]. split; [exact Hrock |].
    split; [exact Hz0 |].
    destruct (_fourier_transform_pulse even_irfft unit_butter unit_filtfilt
                (c_of_R (real z0) :: tail z_raw) (INR 4 / INR (2 ^ 14)))
      as [[[t vd] vu] | e]; [| discriminate Heq].
    split; [discriminate |].
    destruct (_integration_variables t vd _) as [[[] | e] s]; [| discriminate Heq].
    injection Heq as _ _ <-. exact Htd.
  - rewrite Htd in Hrun. discriminate Hrun.
Defined.

Lemma time_domain_window_witness :
  exists freq t volt_down volt_up self' circuit',
    run_time_domain even_irfft unit_butter unit_filtfilt parameters __init__
      (ModelCircuitSeries false ∅ ∅ ∅)
    = (Ok (freq, t, volt_down, volt_up), self', circuit')
    /\ length t = (2 ^ 13 + 1)%nat
    /\ t !! (2 ^ 13)%nat = Some 2.
Proof.
  destruct parameters_run_time_domain as ([[[freq t] vd] vu] & self' & circuit' & Hrun).
  exists freq, t, vd, vu, self', circuit'. split; [exact Hrun |].
  destruct (time_domain_window even_irfft unit_butter unit_filtfilt parameters __init__
              (ModelCircuitSeries false ∅ ∅ ∅) freq t vd vu self' circuit')
    as (_ & Hlt & _ & _ & _ & _ & Hat).
  - reflexivity.
  - reflexivity.
  - intros z raw [= <-]. apply repeat_length.
  - intros b a x y [= <-]. reflexivity.
  - exact Hrun.
  - split; [exact Hlt | exact Hat].
Defined.

End TimeDomainBuilderFurther.

(** ** The calculator, further *)

Section CalculatorFurther.
Import ModelCircuits Calculator Examples.

Lemma on_cached_run_model params freq_array self :
  on_model_circuit (run_model params freq_array true) self
  = ((run_model params freq_array true (_model_circuit self)).1, self).
Proof.
  unfold on_model_circuit.
  pose proof (run_model_cached_state params freq_array (_model_circuit self)) as Hs.
  destruct (run_model params freq_array true (_model_circuit self)) as [r mc].
  simpl in *. subst mc. by destruct self.
Qed.

(** X25.  [_calculate_special_frequencies] never changes the circuit object,
    and of the calculator's variables it writes 'R01' only; when it
    raises, it has written nothing at all. *)
Theorem special_frequencies_frame params self :
  _model_circuit (_calculate_special_frequencies params self).2 = _model_circuit self
  /\ (forall k, k <> "R01" ->
        _calculator_variables (_calculate_special_frequencies params self).2 !! k
        = _calculator_variables self !! k)
  /\ (forall e, (_calculate_special_frequencies params self).1 = Raise e ->
        (_calculate_special_frequencies params self).2 = self).
Proof.
  remember (_calculate_special_frequencies params self) as out eqn:Hout.
  unfold _calculate_special_frequencies in Hout.
  destruct (_get_special_freqs params) as [dyn | e0] eqn:Hdyn.
  2:{ unfold mbind at 1, M_bind at 1, lift in Hout. subst out. done. }
  rewrite lift_Ok_bind in Hout.
  unfold mbind at 1, M_bind at 1 in Hout. rewrite on_cached_run_model in Hout.
  destruct (run_model _ [0.1] true (_model_circuit self)).1 as [[fsf_z fsf_rock] | e1];
    [| subst out; done].
  unfold mbind at 1, M_bind at 1 in Hout. rewrite on_cached_run_model in Hout.
  destruct (run_model params dyn true (_model_circuit self)).1 as [[dsf_z dsf_rock] | e2];
    [| subst out; done].
  destruct (index (map real fsf_z) 0) as [R01 | e3] eqn:HR01.
  2:{ unfold mbind at 1, M_bind at 1, lift in Hout. subst out. done. }
  rewrite lift_Ok_bind in Hout. subst out.
  unfold mbind, M_bind, mret, M_ret, set_calculator_variable.
  cbn [fst snd _model_circuit _calculator_variables].
  split; [done |]. split; [| done].
  intros k Hk. by rewrite lookup_insert_ne.
Qed.

(** X26.  The special frequencies rely on what an earlier [run_model] has
    cached.  On a circuit object that has cached nothing yet (as the one a
    new Calculator creates) they raise a KeyError, although the
    parameters hold every key. *)
Theorem special_frequencies_need_a_run params self :
  is_Some (params !! "Fh") -> is_Some (params !! "Fm") -> is_Some (params !! "Fl") ->
  negative_rinf (_model_circuit self) = false ->
  q (_model_circuit self) !! "Qm" = None ->
  par_second (_model_circuit self) !! "pRm" = None ->
  _calculate_special_frequencies params self = (Raise KeyError, self).
Proof.
  intros [Fh HFh%getitem_Ok] [Fm HFm%getitem_Ok] [Fl HFl%getitem_Ok] Hneg HQm HpRm.
  unfold _calculate_special_frequencies, _get_special_freqs.
  rewrite HFh, HFm, HFl. cbn [mbind result_bind]. rewrite lift_Ok_bind.
  unfold mbind at 1, M_bind at 1. rewrite on_cached_run_model.
  assert (Hrun : (run_model (<["Qe" := 1e2]> (<["Re" := 1e8]> params)) [0.1] true
                    (_model_circuit self)).1 = Raise KeyError).
  { unfold run_model.
    destruct (cls (_model_circuit self));
      [unfold ModelCircuitSeries.run_model | unfold ModelCircuitParallel.run_model];
      rewrite (M_bind_step _ _ _ _ _ (copy_with_rinf_sign_clear _ _ Hneg)), ret_bind.
    - unfold mbind at 1, M_bind at 1. unfold ModelCircuitSeries.run_rock.
      rewrite (M_bind_step _ _ _ _ _ (copy_with_rinf_sign_clear _ _ Hneg)), ret_bind.
      unfold reading, getitem. cbn [mapM]. by rewrite HQm.
    - unfold mbind at 1, M_bind at 1. unfold ModelCircuitParallel.run_rock.
      rewrite (M_bind_step _ _ _ _ _ (copy_with_rinf_sign_clear _ _ Hneg)), ret_bind.
      unfold reading, getitem. cbn [mapM]. by rewrite HpRm. }
  by rewrite Hrun.
Qed.

Lemma special_frequencies_need_a_run_witness :
  _calculate_special_frequencies parameters
    (Build_calculator (ModelCircuitParallel false ∅ ∅ ∅) ∅)
  = (Raise KeyError, Build_calculator (ModelCircuitParallel false ∅ ∅ ∅) ∅).
Proof.
  apply special_frequencies_need_a_run; try reflexivity; by eexists.
Defined.

End CalculatorFurther.
